(** * A Rocq model of the aspine-dev proof-of-concept cache servers

    Two reference implementations are embedded:
    - [CacheEngine] and [CommandParser] of [poc/async_ver/pyredis_async.py]
      (cooperative scheduling, expiry records kept in a [heapq] binary heap);
    - [PyRedisLite] and [handle_client] of [poc/simple_ver/pyredis_lite.py]
      (one OS thread per connection, expiry kept in a second dictionary);
    and with them [PyRedisAsyncClient] of
    [poc/async_ver/pyredis_async_client.py], the client of the first.

    Conventions of the embedding.
    - A Python [dict] with string keys is a [gmap string _]; a Python [list]
      is a [list], indexed with stdpp's lookup and insert.
    - Stored values are strings: this is what both command handlers pass to
      the engines, and what [incr]/[decr] write back.
    - [time.time()] returns a float; timestamps are modelled as exact
      rationals ([Q]), so rounding and float overflow are abstracted away.
      A statement that depends on what an addition or a subtraction of
      floats returns assumes that a double holds its operands and its
      result exactly ([Py.is_double]): there the source computes what the
      model computes.
      Every critical section runs at one instant [now], passed as argument.
    - Strings are sequences of 8-bit characters; the character classes
      ([isspace], decimal digits, [upper]) are the ASCII ones.
    - A Python exception is a value of type [exn]; a function that may raise
      returns a [result]. *)

From Stdlib Require Import ZArith QArith Qround Lqa.
From Stdlib Require Import Ascii String Decimal DecimalString DecimalZ.
From Stdlib Require OrderedTypeEx.
From stdpp Require Import gmap strings list fin_maps.

Local Open Scope string_scope.
Local Open Scope Z_scope.

(** ** Python built-ins used by the servers *)

Module Py.

(** Exceptions: the class name and the message printed by [str(e)]. *)
Record exn := Exn { exn_class : string; exn_msg : string }.

Inductive result (A : Type) : Type :=
| Ret (a : A)
| Raise (e : exn).
Arguments Ret {A} a.
Arguments Raise {A} e.

Definition ValueError (msg : string) : exn := Exn "ValueError" msg.
Definition OSError (msg : string) : exn := Exn "OSError" msg.
Definition EOFError (msg : string) : exn := Exn "EOFError" msg.

(** [str.isspace] on ASCII: TAB..CR, FS..US and the blank. *)
Definition is_space (c : ascii) : bool :=
  let n := nat_of_ascii c in
  ((9 <=? n)%nat && (n <=? 13)%nat) || ((28 <=? n)%nat && (n <=? 32)%nat).

Fixpoint lstrip (s : string) : string :=
  match s with
  | EmptyString => EmptyString
  | String c s' => if is_space c then lstrip s' else s
  end.

Fixpoint rstrip (s : string) : string :=
  match s with
  | EmptyString => EmptyString
  | String c s' =>
      match rstrip s' with
      | EmptyString => if is_space c then EmptyString else String c EmptyString
      | r => String c r
      end
  end.

(** [s.strip()] *)
Definition strip (s : string) : string := rstrip (lstrip s).

(** [s.split()] with no separator: maximal runs of non-blank characters.
    [cur] is the word being read. *)
Fixpoint split_from (cur : string) (s : string) : list string :=
  match s with
  | EmptyString => match cur with EmptyString => [] | _ => [cur] end
  | String c s' =>
      if is_space c then
        match cur with
        | EmptyString => split_from EmptyString s'
        | _ => cur :: split_from EmptyString s'
        end
      else split_from (cur ++ String c EmptyString) s'
  end.

Definition split (s : string) : list string := split_from EmptyString s.

Definition upper_char (c : ascii) : ascii :=
  let n := nat_of_ascii c in
  if ((97 <=? n)%nat && (n <=? 122)%nat) then ascii_of_nat (n - 32) else c.

(** [s.upper()] *)
Fixpoint upper (s : string) : string :=
  match s with
  | EmptyString => EmptyString
  | String c s' => String (upper_char c) (upper s')
  end.

(** [len(s)] *)
Definition len (s : string) : Z := Z.of_nat (String.length s).

(** Underscores of an integer literal: single, and only between two other
    characters.  [after_digit] tells whether the previous character was not
    an underscore. *)
Fixpoint drop_underscores (after_digit : bool) (s : string) : option string :=
  match s with
  | EmptyString => if after_digit then Some EmptyString else None
  | String c s' =>
      if Ascii.eqb c "_" then
        if after_digit then drop_underscores false s' else None
      else option_map (String c) (drop_underscores true s')
  end.

Definition parse_digits (body : string) : option Z :=
  match drop_underscores false body with
  | Some ds => option_map Z.of_uint (NilZero.uint_of_string ds)
  | None => None
  end.

(** The blanks that [int] skips around a literal: TAB..CR and the blank
    (C's [isspace]).  FS..US, which [str.isspace] accepts, are not
    skipped. *)
Definition is_c_space (c : ascii) : bool :=
  let n := nat_of_ascii c in
  ((9 <=? n)%nat && (n <=? 13)%nat) || (n =? 32)%nat.

Fixpoint skip_leading (s : string) : string :=
  match s with
  | EmptyString => EmptyString
  | String c s' => if is_c_space c then skip_leading s' else s
  end.

Fixpoint skip_trailing (s : string) : string :=
  match s with
  | EmptyString => EmptyString
  | String c s' =>
      match skip_trailing s' with
      | EmptyString => if is_c_space c then EmptyString else String c EmptyString
      | r => String c r
      end
  end.

(** [int(s)] for a string: blanks skipped, an optional sign, decimal
    digits.  [None] stands for the [ValueError] that Python raises. *)
Definition int (s : string) : option Z :=
  match skip_trailing (skip_leading s) with
  | EmptyString => None
  | String c r =>
      if Ascii.eqb c "-" then option_map Z.opp (parse_digits r)
      else if Ascii.eqb c "+" then parse_digits r
      else parse_digits (String c r)
  end.

(** [str(n)] for an integer. *)
Definition str (n : Z) : string := NilZero.string_of_int (Z.to_int n).

(** [int(x)] for a float: truncation toward zero. *)
Definition int_of_float (x : Q) : Z := Z.quot (Qnum x) (Zpos (Qden x)).

(** Comparisons of floats. *)
Definition flt (x y : Q) : bool :=
  match Qcompare x y with Lt => true | _ => false end.
Definition fgt (x y : Q) : bool := flt y x.

(** [bool(n)] for an integer: zero is false. *)
Definition truthy (n : Z) : bool := negb (n =? 0).

(** [repr(s)] for a string.  The quote is the double one when the string
    holds a single quote and no double quote; the quote in use and the
    backslash are escaped, TAB, LF and CR have their letters, the other
    characters that do not print are written in hexadecimal. *)
Definition quote1 : ascii := ascii_of_nat 39.
Definition quote2 : ascii := ascii_of_nat 34.
Definition backslash : ascii := ascii_of_nat 92.

Fixpoint contains (c : ascii) (s : string) : bool :=
  match s with
  | EmptyString => false
  | String c' s' => Ascii.eqb c c' || contains c s'
  end.

Definition hex_digit (n : nat) : ascii :=
  if (n <? 10)%nat then ascii_of_nat (48 + n) else ascii_of_nat (87 + n).

Definition escape (letter : ascii) : string :=
  String backslash (String letter EmptyString).

Definition repr_char (quote c : ascii) : string :=
  let n := nat_of_ascii c in
  if Ascii.eqb c quote || Ascii.eqb c backslash then escape c
  else if (n =? 9)%nat then escape "t"
  else if (n =? 10)%nat then escape "n"
  else if (n =? 13)%nat then escape "r"
  else if (n <? 32)%nat || (n =? 127)%nat
          || ((128 <=? n)%nat && (n <=? 160)%nat) || (n =? 173)%nat
  then String backslash
         (String "x" (String (hex_digit (n / 16)) (String (hex_digit (n mod 16))
            EmptyString)))
  else String c EmptyString.

Fixpoint repr_body (quote : ascii) (s : string) : string :=
  match s with
  | EmptyString => String quote EmptyString
  | String c s' => repr_char quote c ++ repr_body quote s'
  end.

Definition repr (s : string) : string :=
  let quote := if contains quote1 s && negb (contains quote2 s)
               then quote2 else quote1 in
  String quote (repr_body quote s).

(** The rationals that a double holds exactly: [m * 2^k] with
    [|m| < 2^53] and [-1074 <= k <= 971].  On such operands an addition or
    a subtraction whose exact result is again one of them returns that
    result, and [float(n)] is [n] for an integer [n] among them; outside,
    the arithmetic of the source rounds or, for an integer beyond the
    range, raises [OverflowError]. *)
Fixpoint odd_part (p : positive) : positive :=
  match p with
  | xO p' => odd_part p'
  | _ => p
  end.

Definition is_double (x : Q) : bool :=
  let y := Qred (x * inject_Z (2 ^ 1074)) in
  (Qden y =? 1)%positive &&
  match Qnum y with
  | Z0 => true
  | Zpos p | Zneg p => (Zpos (odd_part p) <? 2 ^ 53) && (Zpos p <? 2 ^ 2098)
  end.

End Py.

(** ** [heapq]: the binary heap of the standard library, on a list

    Positions are list indices.  The loops of [_siftdown] and [_siftup] move
    [pos] strictly toward the root or toward the leaves, so a fuel of
    [length heap] is never exhausted.  A position outside the list cannot
    occur for the calls made below; there the list is left as it is. *)

Module heapq.
Section heap.
Context {A : Type} (lt : A -> A -> bool).

Fixpoint _siftdown_loop (fuel : nat) (newitem : A) (startpos pos : nat)
    (heap : list A) : list A :=
  match fuel with
  | O => <[pos := newitem]> heap
  | S fuel' =>
      if (startpos <? pos)%nat then
        let parentpos := ((pos - 1) / 2)%nat in
        match heap !! parentpos with
        | Some parent =>
            if lt newitem parent
            then _siftdown_loop fuel' newitem startpos parentpos
                   (<[pos := parent]> heap)
            else <[pos := newitem]> heap
        | None => <[pos := newitem]> heap
        end
      else <[pos := newitem]> heap
  end.

Definition _siftdown (startpos pos : nat) (heap : list A) : list A :=
  match heap !! pos with
  | Some newitem => _siftdown_loop (length heap) newitem startpos pos heap
  | None => heap
  end.

(** The loop of [_siftup]: bubbles the smaller child up until a leaf is
    hit; returns the list and the final [pos]. *)
Fixpoint _siftup_loop (fuel : nat) (pos : nat) (heap : list A) : list A * nat :=
  match fuel with
  | O => (heap, pos)
  | S fuel' =>
      let endpos := length heap in
      let childpos := (2 * pos + 1)%nat in
      if (childpos <? endpos)%nat then
        let rightpos := (childpos + 1)%nat in
        let childpos :=
          match heap !! childpos, heap !! rightpos with
          | Some c, Some r => if negb (lt c r) then rightpos else childpos
          | _, _ => childpos
          end in
        match heap !! childpos with
        | Some c => _siftup_loop fuel' childpos (<[pos := c]> heap)
        | None => (heap, pos)
        end
      else (heap, pos)
  end.

Definition _siftup (pos : nat) (heap : list A) : list A :=
  match heap !! pos with
  | Some newitem =>
      let '(heap1, pos1) := _siftup_loop (length heap) pos heap in
      _siftdown pos pos1 (<[pos1 := newitem]> heap1)
  | None => heap
  end.

(** [heappush(heap, item)] *)
Definition heappush (heap : list A) (item : A) : list A :=
  _siftdown 0 (length heap) (heap ++ [item])%list.

(** [heappop(heap)]: [None] is the [IndexError] of an empty heap. *)
Definition heappop (heap : list A) : option (A * list A) :=
  match last heap with
  | None => None
  | Some lastelt =>
      let heap1 := removelast heap in
      match heap1 with
      | [] => Some (lastelt, [])
      | returnitem :: _ => Some (returnitem, _siftup 0 (<[0%nat := lastelt]> heap1))
      end
  end.

(** [heapify(x)]: [for i in reversed(range(n//2)): _siftup(x, i)] *)
Definition heapify (x : list A) : list A :=
  foldl (fun h i => _siftup i h) x (rev (seq 0 (length x / 2))).
End heap.
End heapq.

(** ** The environment of the persistence code

    [pickle] and the file system are not code of the repository.  A
    [pickler] gives the serializer of the two objects that [save] dumps and
    the matching readers, which consume the front of the file and return the
    rest.  The file system maps a path to its content; opening a path of
    [denied] for writing, or replacing it, raises [OSError]. *)

Record pickler (B : Type) := Pickler {
  dump_data : gmap string string -> list B;
  load_data : list B -> Py.result (gmap string string * list B);
  dump_heap : list (Q * string) -> list B;
  load_heap : list B -> Py.result (list (Q * string) * list B)
}.
Arguments dump_data {B} _ _.
Arguments load_data {B} _ _.
Arguments dump_heap {B} _ _.
Arguments load_heap {B} _ _.

Record filesystem (B : Type) := FS {
  files : gmap string (list B);
  denied : gset string
}.
Arguments FS {B} _ _.
Arguments files {B} _.
Arguments denied {B} _.

(** ** [CacheEngine] (asynchronous implementation) *)

Module CacheEngine.

(** The fields of the engine.  [_lock] and [_task] belong to the scheduling
    and are not part of the sequential state. *)
Record state := State {
  _data : gmap string string;
  _expire_heap : list (Q * string);
  _start_time : Q
}.

Definition with_data (d : gmap string string) (s : state) : state :=
  State d (_expire_heap s) (_start_time s).
Definition with_heap (h : list (Q * string)) (s : state) : state :=
  State (_data s) h (_start_time s).

(** [__init__], at the instant [now]. *)
Definition init (now : Q) : state := State ∅ [] now.

(** Order of the tuples [(expire_at, key)]: first components first, the keys
    when the times are equal. *)
Definition tuple_lt (a b : Q * string) : bool :=
  if Qeq_bool a.1 b.1 then String.ltb a.2 b.2 else Py.flt a.1 b.1.

(** One pass of the [while] loop of [_remove_expired_keys] per unit of
    fuel. *)
Fixpoint _remove_expired_loop (fuel : nat) (now : Q) (s : state) : state :=
  match fuel with
  | O => s
  | S fuel' =>
      match _expire_heap s !! 0%nat with
      | Some (expire_at, _) =>
          if Py.flt expire_at now then
            match heapq.heappop tuple_lt (_expire_heap s) with
            | Some ((_, key), heap') =>
                let data' :=
                  if decide (is_Some (_data s !! key))
                  then base.delete key (_data s) else _data s in
                _remove_expired_loop fuel' now (State data' heap' (_start_time s))
            | None => s
            end
          else s
      | None => s
      end
  end.

(** [_remove_expired_keys]: every pass pops one record, so the length of
    the heap is enough fuel. *)
Definition _remove_expired_keys (now : Q) (s : state) : state :=
  _remove_expired_loop (length (_expire_heap s)) now s.

(** One round of [_proactive_expire]: the sweep, then the time to sleep
    ([None] when the task does not sleep before the next round). *)
Definition _proactive_expire_round (now : Q) (s : state) : state * option Q :=
  let s' := _remove_expired_keys now s in
  match _expire_heap s' with
  | (t, _) :: _ =>
      let sleep_for := (t - now)%Q in
      (s', if Py.flt 0 sleep_for then Some sleep_for else None)
  | [] => (s', Some 1%Q)
  end.

(** [set(key, value, expire)]; [expire = None] when the argument is left
    out.  [if expire:] is false for [None] and for [0]. *)
Definition set (now : Q) (key value : string) (expire : option Z) (s : state)
    : state :=
  let s1 := with_data (<[key := value]> (_data s)) s in
  match expire with
  | Some e =>
      if Py.truthy e then
        let expire_at := (now + inject_Z e)%Q in
        with_heap (heapq.heappush tuple_lt (_expire_heap s1) (expire_at, key)) s1
      else s1
  | None => s1
  end.

(** [get(key)] *)
Definition get (now : Q) (key : string) (s : state) : state * option string :=
  let s' := _remove_expired_keys now s in
  (s', _data s' !! key).

(** [delete(key)] *)
Definition delete (key : string) (s : state) : state * Z :=
  if decide (is_Some (_data s !! key)) then
    let kept := List.filter (fun r : Q * string => negb (String.eqb r.2 key))
                  (_expire_heap s) in
    (State (base.delete key (_data s)) (heapq.heapify tuple_lt kept)
       (_start_time s), 1)
  else (s, 0).

(** [ttl(key)]: the first record of the heap list that names the key. *)
Definition ttl (now : Q) (key : string) (s : state) : Z :=
  if decide (is_Some (_data s !! key)) then
    match List.find (fun r : Q * string => String.eqb r.2 key) (_expire_heap s) with
    | Some (expire_at, _) => Py.int_of_float (expire_at - now)%Q
    | None => -1
    end
  else -2.

Definition not_an_integer : Py.exn :=
  Py.ValueError "value is not an integer or out of range".

(** [int(self._data.get(key, 0))] *)
Definition current_value (key : string) (s : state) : option Z :=
  match _data s !! key with
  | Some v => Py.int v
  | None => Some 0
  end.

(** [incr(key)] *)
Definition incr (key : string) (s : state) : state * Py.result Z :=
  match current_value key s with
  | Some current_value =>
      let current_value := current_value + 1 in
      (with_data (<[key := Py.str current_value]> (_data s)) s, Py.Ret current_value)
  | None => (s, Py.Raise not_an_integer)
  end.

(** [decr(key)] *)
Definition decr (key : string) (s : state) : state * Py.result Z :=
  match current_value key s with
  | Some current_value =>
      let current_value := current_value - 1 in
      (with_data (<[key := Py.str current_value]> (_data s)) s, Py.Ret current_value)
  | None => (s, Py.Raise not_an_integer)
  end.

(** [_get_memory_usage] *)
Definition _get_memory_usage (s : state) : Z :=
  map_fold (fun k v acc => acc + (Py.len k + Py.len v)) 0 (_data s).

(** [info()], as the list of items of the returned dictionary. *)
Definition info (now : Q) (s : state) : list (string * Z) :=
  [("keys", Z.of_nat (size (_data s)));
   ("memory_usage", _get_memory_usage s);
   ("uptime", Py.int_of_float (now - _start_time s)%Q)].

Section persistence.
Context {B : Type} (P : pickler B).

Definition permission_denied (path : string) : Py.exn :=
  Py.OSError ("[Errno 13] Permission denied: '" ++ path ++ "'").

(** [save(filename)]: both objects are dumped to the temporary file, which
    then replaces the target. *)
Definition save (filename : string) (s : state) (fs : filesystem B)
    : filesystem B * Py.result unit :=
  let temp_filename := filename ++ ".tmp" in
  if decide (temp_filename ∈ denied fs) then
    (fs, Py.Raise (permission_denied temp_filename))
  else
    let content := (dump_data P (_data s) ++ dump_heap P (_expire_heap s))%list in
    let fs1 := FS (<[temp_filename := content]> (files fs)) (denied fs) in
    if decide (filename ∈ denied fs) then
      (fs1, Py.Raise (permission_denied filename))
    else
      (FS (<[filename := content]> (base.delete temp_filename (files fs1)))
         (denied fs), Py.Ret tt).

(** [load(filename)]: the two assignments happen in sequence, each right
    after its object is read. *)
Definition load (filename : string) (s : state) (fs : filesystem B)
    : state * Py.result unit :=
  match files fs !! filename with
  | None => (s, Py.Ret tt)
  | Some f =>
      match load_data P f with
      | Py.Raise e => (s, Py.Raise e)
      | Py.Ret (d, f') =>
          let s1 := with_data d s in
          match load_heap P f' with
          | Py.Raise e => (s1, Py.Raise e)
          | Py.Ret (h, _) => (with_heap h s1, Py.Ret tt)
          end
      end
  end.
End persistence.

End CacheEngine.

(** What a connection loop does after one round: it sends [response] and
    reads on, or it leaves the loop and closes the connection, after a last
    message or without one. *)
Inductive action :=
| Continue (response : string)
| Close (last_response : option string).

(** ** [CommandParser] and [handle_client] (asynchronous implementation) *)

Module CommandParser.

Definition crlf : string :=
  String (ascii_of_nat 13) (String (ascii_of_nat 10) EmptyString).

Section parser.
Context {B : Type} (P : pickler B).

(** The parser owns the engine; [save] also reaches the file system. *)
Record world := World { cache : CacheEngine.state; disk : filesystem B }.

(** Commands run in a state monad that may raise. *)
Definition M (A : Type) : Type := world -> world * Py.result A.

Definition ret {A} (a : A) : M A := fun w => (w, Py.Ret a).

Definition bind {A C} (m : M A) (k : A -> M C) : M C :=
  fun w =>
    match m w with
    | (w', Py.Ret a) => k a w'
    | (w', Py.Raise e) => (w', Py.Raise e)
    end.

(** [try: body except Exception as e: handler(e)] *)
Definition try_except {A} (body : M A) (handler : Py.exn -> M A) : M A :=
  fun w =>
    match body w with
    | (w', Py.Ret a) => (w', Py.Ret a)
    | (w', Py.Raise e) => handler e w'
    end.

Notation "'let!' x ':=' m 'in' k" := (bind m (fun x => k))
  (at level 10, x name, m at level 100, k at level 200).

Definition cache_set (now : Q) (key value : string) (expire : option Z) : M unit :=
  fun w => (World (CacheEngine.set now key value expire (cache w)) (disk w), Py.Ret tt).
Definition cache_get (now : Q) (key : string) : M (option string) :=
  fun w => let '(c, v) := CacheEngine.get now key (cache w) in
           (World c (disk w), Py.Ret v).
Definition cache_delete (key : string) : M Z :=
  fun w => let '(c, n) := CacheEngine.delete key (cache w) in
           (World c (disk w), Py.Ret n).
Definition cache_ttl (now : Q) (key : string) : M Z :=
  fun w => (w, Py.Ret (CacheEngine.ttl now key (cache w))).
Definition cache_incr (key : string) : M Z :=
  fun w => let '(c, r) := CacheEngine.incr key (cache w) in (World c (disk w), r).
Definition cache_decr (key : string) : M Z :=
  fun w => let '(c, r) := CacheEngine.decr key (cache w) in (World c (disk w), r).
Definition cache_save (filename : string) : M unit :=
  fun w => let '(fs, r) := CacheEngine.save P filename (cache w) (disk w) in
           (World (cache w) fs, r).
Definition cache_info (now : Q) : M (list (string * Z)) :=
  fun w => (w, Py.Ret (CacheEngine.info now (cache w))).

(** ["\r\n".join(f"{k}:{v}" for k, v in items)] *)
Fixpoint join_items (items : list (string * Z)) : string :=
  match items with
  | [] => EmptyString
  | [(k, v)] => k ++ ":" ++ Py.str v
  | (k, v) :: rest => k ++ ":" ++ Py.str v ++ crlf ++ join_items rest
  end.

(** The body of the [try] of [parse]. *)
Definition dispatch (now : Q) (command : string) (args : list string) : M string :=
  if String.eqb command "SET" then
    match args with
    | key :: value :: rest =>
        match rest with
        | a2 :: a3 :: _ =>
            (* len(args) > 3 *)
            if String.eqb (Py.upper a2) "EX" then
              match Py.int a3 with
              | Some expire =>
                  let! _ := cache_set now key value (Some expire) in ret ("OK" ++ crlf)
              | None => ret ("ERROR: Invalid expire value" ++ crlf)
              end
            else let! _ := cache_set now key value None in ret ("OK" ++ crlf)
        | _ => let! _ := cache_set now key value None in ret ("OK" ++ crlf)
        end
    | _ => ret ("ERROR: Not enough arguments for SET" ++ crlf)
    end
  else if String.eqb command "GET" then
    match args with
    | [key] =>
        let! value := cache_get now key in
        match value with
        | None => ret ("(nil)" ++ crlf)
        | Some v => ret (v ++ crlf)
        end
    | _ => ret ("ERROR: Incorrect number of arguments for GET" ++ crlf)
    end
  else if String.eqb command "DEL" then
    match args with
    | [key] => let! result := cache_delete key in ret (":" ++ Py.str result ++ crlf)
    | _ => ret ("ERROR: Incorrect number of arguments for DEL" ++ crlf)
    end
  else if String.eqb command "TTL" then
    match args with
    | [key] => let! ttl := cache_ttl now key in ret (":" ++ Py.str ttl ++ crlf)
    | _ => ret ("ERROR: Incorrect number of arguments for TTL" ++ crlf)
    end
  else if String.eqb command "INCR" then
    match args with
    | [key] => let! result := cache_incr key in ret (":" ++ Py.str result ++ crlf)
    | _ => ret ("ERROR: Incorrect number of arguments for INCR" ++ crlf)
    end
  else if String.eqb command "DECR" then
    match args with
    | [key] => let! result := cache_decr key in ret (":" ++ Py.str result ++ crlf)
    | _ => ret ("ERROR: Incorrect number of arguments for DECR" ++ crlf)
    end
  else if String.eqb command "SAVE" then
    let! _ := cache_save "dump.rdb" in ret ("OK" ++ crlf)
  else if String.eqb command "INFO" then
    let! info_data := cache_info now in ret (join_items info_data ++ crlf)
  else ret ("ERROR: Unknown command '" ++ command ++ "'" ++ crlf).

(** [parse(data)] *)
Definition parse (now : Q) (data : string) : M string :=
  match Py.split (Py.strip data) with
  | [] => ret ("ERROR: No command specified" ++ crlf)
  | part0 :: args =>
      let command := Py.upper part0 in
      try_except (dispatch now command args)
        (fun e => ret ("ERROR: " ++ Py.exn_msg e ++ crlf))
  end.

(** One round of the loop of [handle_client], for the decoded message
    [data]: an empty read ends the loop, and so does an exception, which
    the handler only prints. *)
Definition handle_client_round (now : Q) (data : string) (w : world)
    : world * action :=
  match data with
  | EmptyString => (w, Close None)
  | _ =>
      match parse now data w with
      | (w', Py.Ret response) => (w', Continue response)
      | (w', Py.Raise _) => (w', Close None)
      end
  end.

(** The same round from the bytes that [reader.read] returned.  [decode]
    is [bytes.decode], which is not code of the repository: it returns the
    text or raises [UnicodeDecodeError].  The call sits inside the [try] of
    the loop, so a read that does not decode ends the loop like any other
    exception: it is printed and the connection is closed.  A connection
    that breaks while the reply is written, and the cancellation of the
    task, end the loop as well; they are events of the network and of the
    scheduler and have no place in this function. *)
Definition handle_client_read (decode : string -> Py.result string) (now : Q)
    (data : string) (w : world) : world * action :=
  match data with
  | EmptyString => (w, Close None)
  | _ =>
      match decode data with
      | Py.Raise _ => (w, Close None)
      | Py.Ret message =>
          match parse now message w with
          | (w', Py.Ret response) => (w', Continue response)
          | (w', Py.Raise _) => (w', Close None)
          end
      end
  end.

(** The start of [main]: the engine is created and the snapshot is loaded
    before the parser and the server exist.  [main] has no handler around
    [load], so an exception of [load] ends [main]. *)
Definition main_startup (now : Q) (fs : filesystem B) : Py.result world :=
  let cache := CacheEngine.init now in
  match CacheEngine.load P "dump.rdb" cache fs with
  | (cache', Py.Ret _) => Py.Ret (World cache' fs)
  | (_, Py.Raise e) => Py.Raise e
  end.
End parser.

Arguments World {B} _ _.
Arguments cache {B} _.
Arguments disk {B} _.

End CommandParser.

(** ** [PyRedisLite] and [handle_client] (threaded implementation) *)

Module PyRedisLite.

(** The [ex] argument of [set] is untyped: the command handler passes the
    token it read, a caller of the class may pass an integer. *)
Inductive pyval :=
| PyInt (n : Z)
| PyStr (s : string).

(** [bool(x)] *)
Definition truthy (x : pyval) : bool :=
  match x with
  | PyInt n => Py.truthy n
  | PyStr s => negb (String.eqb s EmptyString)
  end.

(** Message of the [ValueError] of [int(s)]: the literal is shown as its
    [repr], cut after 200 characters. *)
Definition invalid_literal (s : string) : Py.exn :=
  Py.ValueError ("invalid literal for int() with base 10: "
                 ++ String.substring 0 200 (Py.repr s)).

(** [int(x)] *)
Definition to_int (x : pyval) : Py.result Z :=
  match x with
  | PyInt n => Py.Ret n
  | PyStr s =>
      match Py.int s with
      | Some n => Py.Ret n
      | None => Py.Raise (invalid_literal s)
      end
  end.

Record state := State {
  data : gmap string string;
  expirations : gmap string Q
}.

(** [__init__] *)
Definition init : state := State ∅ ∅.

(** [del self.data[key]; del self.expirations[key]] *)
Definition expire_key (key : string) (s : state) : state :=
  State (base.delete key (data s)) (base.delete key (expirations s)).

(** [set(key, value, ex)]: the value is stored before [int(ex)] is
    evaluated. *)
Definition set (now : Q) (key value : string) (ex : option pyval) (s : state)
    : state * Py.result string :=
  let s1 := State (<[key := value]> (data s)) (expirations s) in
  match ex with
  | Some x =>
      if truthy x then
        match to_int x with
        | Py.Ret n =>
            (State (data s1) (<[key := (now + inject_Z n)%Q]> (expirations s1)),
             Py.Ret "OK")
        | Py.Raise e => (s1, Py.Raise e)
        end
      else (s1, Py.Ret "OK")
  | None => (s1, Py.Ret "OK")
  end.

(** [get(key)] *)
Definition get (now : Q) (key : string) (s : state) : state * string :=
  match data s !! key with
  | Some v =>
      match expirations s !! key with
      | Some t => if Py.fgt now t then (expire_key key s, "(nil)") else (s, v)
      | None => (s, v)
      end
  | None => (s, "(nil)")
  end.

(** [delete(key)] *)
Definition delete (key : string) (s : state) : state * string :=
  match data s !! key with
  | Some _ =>
      let d := base.delete key (data s) in
      match expirations s !! key with
      | Some _ => (State d (base.delete key (expirations s)), "1")
      | None => (State d (expirations s), "1")
      end
  | None => (s, "0")
  end.

(** [exists(key)] *)
Definition exists_ (now : Q) (key : string) (s : state) : state * string :=
  match data s !! key with
  | Some _ =>
      match expirations s !! key with
      | Some t => if Py.fgt now t then (expire_key key s, "0") else (s, "1")
      | None => (s, "1")
      end
  | None => (s, "0")
  end.

(** [ttl(key)] *)
Definition ttl (now : Q) (key : string) (s : state) : state * string :=
  match data s !! key with
  | Some _ =>
      match expirations s !! key with
      | Some t =>
          if Py.fgt now t then (expire_key key s, "-2")
          else (s, Py.str (Py.int_of_float (t - now)%Q))
      | None => (s, "-1")
      end
  | None => (s, "-2")
  end.

(** [incr(key)] *)
Definition incr (key : string) (s : state) : state * string :=
  match data s !! key with
  | Some v =>
      match Py.int v with
      | Some n =>
          let r := Py.str (n + 1) in
          (State (<[key := r]> (data s)) (expirations s), r)
      | None => (s, "ERROR: Value is not an integer")
      end
  | None => (State (<[key := "1"]> (data s)) (expirations s), "1")
  end.

(** [flushall()] *)
Definition flushall (s : state) : state * string := (State ∅ ∅, "OK").

(** One round of the loop of [active_expire].  The order in which the
    dictionary is walked does not matter for the resulting state. *)
Definition keys_to_delete (now : Q) (s : state) : list string :=
  (List.filter (fun kt : string * Q => Py.fgt now kt.2)
     (map_to_list (expirations s))).*1.

Definition delete_expired (key : string) (s : state) : state :=
  let d := if decide (is_Some (data s !! key))
           then base.delete key (data s) else data s in
  State d (base.delete key (expirations s)).

Definition active_expire_round (now : Q) (s : state) : state :=
  foldl (fun s key => delete_expired key s) s (keys_to_delete now s).

(** The chain of tests of [handle_client]; an exception leaves it. *)
Definition dispatch (now : Q) (cmd : string) (args : list string) (db : state)
    : state * Py.result string :=
  let total (r : state * string) := (r.1, Py.Ret r.2) in
  let unknown := (db, Py.Ret "ERROR: Unknown command or wrong number of arguments") in
  if String.eqb cmd "SET" then
    match args with
    | [key; value] => set now key value None db
    | [key; value; a2; a3] =>
        if String.eqb (Py.upper a2) "EX"
        then set now key value (Some (PyStr a3)) db
        else unknown
    | _ => unknown
    end
  else match args with
  | [key] =>
      if String.eqb cmd "GET" then total (get now key db)
      else if String.eqb cmd "DEL" then total (delete key db)
      else if String.eqb cmd "EXISTS" then total (exists_ now key db)
      else if String.eqb cmd "TTL" then total (ttl now key db)
      else if String.eqb cmd "INCR" then total (incr key db)
      else unknown
  | [] => if String.eqb cmd "FLUSHALL" then total (flushall db) else unknown
  | _ => unknown
  end.

(** The operations of the class, one round of [active_expire] included,
    and the state each of them leaves. *)
Inductive operation :=
| OpSet (key value : string) (ex : option pyval)
| OpGet (key : string)
| OpDelete (key : string)
| OpExists (key : string)
| OpTtl (key : string)
| OpIncr (key : string)
| OpFlushall
| OpActiveExpire.

Definition run (now : Q) (o : operation) (s : state) : state :=
  match o with
  | OpSet key value ex => (set now key value ex s).1
  | OpGet key => (get now key s).1
  | OpDelete key => (delete key s).1
  | OpExists key => (exists_ now key s).1
  | OpTtl key => (ttl now key s).1
  | OpIncr key => (incr key s).1
  | OpFlushall => (flushall s).1
  | OpActiveExpire => active_expire_round now s
  end.

(** Every key with an expiry is a stored key. *)
Definition expirations_are_stored (s : state) : Prop :=
  dom (expirations s) ⊆ dom (data s).

Definition newline : string := String (ascii_of_nat 10) EmptyString.

(** One round of the loop of [handle_client], for the decoded bytes
    [received]. *)
Definition handle_client_round (now : Q) (received : string) (db : state)
    : state * action :=
  match Py.strip received with
  | EmptyString => (db, Close None)
  | command =>
      match Py.split command with
      | [] => (db, Close (Some ("ERROR: list index out of range" ++ newline)))
      | part0 :: args =>
          match dispatch now (Py.upper part0) args db with
          | (db', Py.Ret response) => (db', Continue (response ++ newline))
          | (db', Py.Raise e) =>
              (db', Close (Some ("ERROR: " ++ Py.exn_msg e ++ newline)))
          end
      end
  end.

End PyRedisLite.

(** ** Concurrent callers of [incr]

    Both engines run the body of [incr] inside [with self.lock] (threads)
    or [async with self._lock] (tasks), and both have a background task
    that takes the same lock around its sweep: [_proactive_expire] and
    [active_expire].  A caller is followed through the statements of its
    block: it takes the lock, reads and parses the stored value, writes the
    new one, and gives the lock back.  A background task takes the lock,
    sweeps at the time it reads from the clock, gives the lock back, and
    starts again after its sleep.  Any caller or task whose next statement
    is enabled may move, so every interleaving is an execution. *)

Module Concurrent.

Inductive impl := Async | Threaded.

(** What a caller holds after the read: the parsed integer, or nothing when
    the threaded engine found the key absent and goes to its [else]. *)
Inductive local :=
| LCur (n : Z)
| LFresh.

(** The string written back. *)
Definition written (l : local) : string :=
  match l with
  | LCur n => Py.str (n + 1)
  | LFresh => "1"
  end.

(** What the callers and the background task use of an engine: the two
    statements of the block of [incr], [incr] itself, the block of the
    background task, the dictionary, and whether a key has an expiry
    pending. *)
Class Engine (St : Type) := {
  read : string -> St -> option local;
  write : string -> local -> St -> St;
  incr : string -> St -> St;
  sweep : Q -> St -> St;
  value : string -> St -> option string;
  unscheduled : string -> St -> Prop
}.

(** [CacheEngine]: [int(self._data.get(key, 0))], then
    [self._data[key] = str(current_value)]; the background task runs
    [_remove_expired_keys]; an expiry is pending for the keys that the
    records of the heap name. *)
#[export] Instance engine_async : Engine CacheEngine.state := {|
  read key s := option_map LCur (CacheEngine.current_value key s);
  write key l s :=
    CacheEngine.with_data (<[key := written l]> (CacheEngine._data s)) s;
  incr key s := (CacheEngine.incr key s).1;
  sweep now s := CacheEngine._remove_expired_keys now s;
  value key s := CacheEngine._data s !! key;
  unscheduled key s :=
    Forall (fun r : Q * string => r.2 <> key) (CacheEngine._expire_heap s)
|}.

(** [PyRedisLite]: [int(self.data[key])] when the key is stored, then the
    assignment of either branch; the background task runs one round of
    [active_expire]; an expiry is pending for the keys of [expirations]. *)
#[export] Instance engine_threaded : Engine PyRedisLite.state := {|
  read key s :=
    match PyRedisLite.data s !! key with
    | Some v => option_map LCur (Py.int v)
    | None => Some LFresh
    end;
  write key l s :=
    PyRedisLite.State (<[key := written l]> (PyRedisLite.data s))
      (PyRedisLite.expirations s);
  incr key s := (PyRedisLite.incr key s).1;
  sweep now s := PyRedisLite.active_expire_round now s;
  value key s := PyRedisLite.data s !! key;
  unscheduled key s := PyRedisLite.expirations s !! key = None
|}.

Definition store_of (i : impl) : Type :=
  match i with
  | Async => CacheEngine.state
  | Threaded => PyRedisLite.state
  end.

Definition engine_of (i : impl) : Engine (store_of i) :=
  match i with
  | Async => engine_async
  | Threaded => engine_threaded
  end.

(** Where a caller of [incr] is, and where a background task is. *)
Inductive pc :=
| Waiting
| Locked
| Read (l : local)
| Failed
| Written
| Done (ok : bool)
| Idle
| Sweeping
| Swept.

(** Who takes a step. *)
Inductive actor := Caller | Background.

Record config (St : Type) := Config {
  store : St;
  lock : bool;
  threads : list pc
}.
Arguments Config {St} _ _ _.
Arguments store {St} _.
Arguments lock {St} _.
Arguments threads {St} _.

(** [M] callers and [B] background tasks, none of them inside its block. *)
Definition initial {St : Type} (s : St) (M B : nat) : config St :=
  Config s false (replicate M Waiting ++ replicate B Idle).

Section steps.
Context {St : Type} {E : Engine St} (key : string).

(** The lock is taken only when it is free.  A background task that holds
    it sweeps at any instant [now], or leaves the engine as it is
    ([periodic_save] of the asynchronous server, which only dumps). *)
Inductive step : config St -> actor -> config St -> Prop :=
| step_acquire s ts t :
    ts !! t = Some Waiting ->
    step (Config s false ts) Caller (Config s true (<[t := Locked]> ts))
| step_read s b ts t l :
    ts !! t = Some Locked -> read key s = Some l ->
    step (Config s b ts) Caller (Config s b (<[t := Read l]> ts))
| step_raise s b ts t :
    ts !! t = Some Locked -> read key s = None ->
    step (Config s b ts) Caller (Config s b (<[t := Failed]> ts))
| step_write s b ts t l :
    ts !! t = Some (Read l) ->
    step (Config s b ts) Caller (Config (write key l s) b (<[t := Written]> ts))
| step_release s b ts t :
    ts !! t = Some Written ->
    step (Config s b ts) Caller (Config s false (<[t := Done true]> ts))
| step_release_failed s b ts t :
    ts !! t = Some Failed ->
    step (Config s b ts) Caller (Config s false (<[t := Done false]> ts))
| step_wake s ts t :
    ts !! t = Some Idle ->
    step (Config s false ts) Background (Config s true (<[t := Sweeping]> ts))
| step_sweep s b ts t now :
    ts !! t = Some Sweeping ->
    step (Config s b ts) Background (Config (sweep now s) b (<[t := Swept]> ts))
| step_dump s b ts t :
    ts !! t = Some Sweeping ->
    step (Config s b ts) Background (Config s b (<[t := Swept]> ts))
| step_sleep s b ts t :
    ts !! t = Some Swept ->
    step (Config s b ts) Background (Config s false (<[t := Idle]> ts)).

(** Executions with [n] steps of callers and [m] steps of background
    tasks. *)
Inductive exec : nat -> nat -> config St -> config St -> Prop :=
| exec_O c : exec 0 0 c c
| exec_caller n m c c1 c2 :
    exec n m c c1 -> step c1 Caller c2 -> exec (S n) m c c2
| exec_background n m c c1 c2 :
    exec n m c c1 -> step c1 Background c2 -> exec n (S m) c c2.

(** The calls of the engine, one after the other. *)
Inductive op :=
| OIncr
| OSweep (now : Q).

Definition apply_op (s : St) (o : op) : St :=
  match o with
  | OIncr => incr key s
  | OSweep now => sweep now s
  end.

Definition run (ops : list op) (s : St) : St := foldl apply_op s ops.

Definition calls (ops : list op) : nat :=
  sum_list_with (fun o => match o with OIncr => 1%nat | OSweep _ => 0%nat end) ops.
End steps.

Definition background (p : pc) : Prop :=
  match p with
  | Idle | Sweeping | Swept => True
  | _ => False
  end.

(** Every caller has returned, without an exception. *)
Definition finished {St : Type} (c : config St) : Prop :=
  Forall (fun p => p = Done true \/ background p) (threads c).

(** The counter that [M] increments of an absent key leave. *)
Definition counter (M : nat) : option string :=
  match M with
  | O => None
  | S _ => Some (Py.str (Z.of_nat M))
  end.

(** Statements a caller still has to run. *)
Definition weight (p : pc) : nat :=
  match p with
  | Waiting => 4
  | Locked => 3
  | Read _ => 2
  | Failed | Written => 1
  | Done _ | Idle | Sweeping | Swept => 0
  end.

Definition in_block (p : pc) : Prop :=
  match p with
  | Locked | Read _ | Failed | Written | Sweeping | Swept => True
  | Waiting | Done _ | Idle => False
  end.

Definition has_written (p : pc) : nat :=
  match p with
  | Written | Done true => 1
  | _ => 0
  end.

Definition is_caller (p : pc) : nat :=
  match p with
  | Idle | Sweeping | Swept => 0
  | _ => 1
  end.

(** [h] is the caller or task inside its block, if any: the lock is taken
    exactly when there is one, and no other is inside. *)
Definition holder_ok {St : Type} (c : config St) (h : option nat) : Prop :=
  lock c = bool_decide (is_Some h) /\
  match h with Some t => is_Some (threads c !! t) | None => True end /\
  forall t p, threads c !! t = Some p -> in_block p <-> h = Some t.

(** What holds after [n] steps of [M] callers that started from [s0], on a
    key that was absent and had no expiry pending. *)
Record invariant {St : Type} {E : Engine St} (key : string) (s0 : St)
    (M n : nat) (c : config St) : Prop := {
  inv_callers : sum_list_with is_caller (threads c) = M;
  inv_weight : (sum_list_with weight (threads c) + n = 4 * M)%nat;
  inv_value : value key (store c) = counter (sum_list_with has_written (threads c));
  inv_unscheduled : unscheduled key (store c);
  inv_linear : exists ops,
                 store c = run key ops s0 /\
                 calls ops = sum_list_with has_written (threads c);
  inv_holder : exists h, holder_ok c h;
  inv_read : forall t l, threads c !! t = Some (Read l) ->
                         read key (store c) = Some l;
  inv_no_failure : forall t p, threads c !! t = Some p ->
                               p <> Failed /\ p <> Done false
}.

End Concurrent.

(** ** A reference pickler

    One frame per dumped object; a reader fails at the end of the file and
    on a frame of the other kind. *)

Module Frames.

Inductive frame :=
| FData (d : gmap string string)
| FHeap (h : list (Q * string)).

Definition UnpicklingError : Py.exn := Py.Exn "UnpicklingError" "invalid load key".
Definition ran_out : Py.exn := Py.EOFError "Ran out of input".

Definition pickle : pickler frame :=
  Pickler frame
    (fun d => [FData d])
    (fun f => match f with
              | FData d :: rest => Py.Ret (d, rest)
              | [] => Py.Raise ran_out
              | _ :: _ => Py.Raise UnpicklingError
              end)
    (fun h => [FHeap h])
    (fun f => match f with
              | FHeap h :: rest => Py.Ret (h, rest)
              | [] => Py.Raise ran_out
              | _ :: _ => Py.Raise UnpicklingError
              end).

End Frames.

(** The law of a pickler that the persistence code relies on: reading back
    what was dumped returns the object and leaves the rest of the file. *)
Definition pickler_sound {B : Type} (P : pickler B) : Prop :=
  (forall d rest, load_data P (dump_data P d ++ rest)%list = Py.Ret (d, rest)) /\
  (forall h rest, load_heap P (dump_heap P h ++ rest)%list = Py.Ret (h, rest)).

(** ** The order of a binary heap

    What [heapq] documents as its invariant, [heap[k] <= heap[2*k+1]] and
    [heap[k] <= heap[2*k+2]], stated from the child's side and from a
    position [k] on, as the loops of [_siftup] and [heapify] need it. *)

Module HeapOrder.
Section order.
Context {A : Type} (lt : A -> A -> bool).

(** [(pos - 1) >> 1] *)
Definition parent (pos : nat) : nat := ((pos - 1) / 2)%nat.

(** The laws of [<] that the heap relies on. *)
Record strict_weak_order : Prop := {
  lt_asym : forall x y, lt x y = true -> lt y x = false;
  lt_negtrans : forall x y z, lt y x = false -> lt z y = false -> lt z x = false
}.

(** No item whose parent sits at [k] or beyond is smaller than its parent. *)
Definition heap_from (k : nat) (heap : list A) : Prop :=
  forall i x y,
    (0 < i)%nat -> (k <= parent i)%nat ->
    heap !! i = Some x -> heap !! parent i = Some y -> lt x y = false.

Definition is_heap (heap : list A) : Prop := heap_from 0 heap.
End order.

(** The positions below [a] in the tree, [a] included. *)
Inductive descendant (a : nat) : nat -> Prop :=
| descendant_self : descendant a a
| descendant_left p : descendant a p -> descendant a (2 * p + 1)
| descendant_right p : descendant a p -> descendant a (2 * p + 2).

End HeapOrder.

(** A record is due at [now] when the sweep would pop it from the root. *)
Definition due (now : Q) (r : Q * string) : bool := Py.flt r.1 now.

(** ** The operations of the asynchronous engine, as data *)

Module Engine.

(** The calls that change or read the engine; [OpSweep] is the sweep of one
    round of [_proactive_expire]. *)
Inductive operation :=
| OpSet (key value : string) (expire : option Z)
| OpGet (key : string)
| OpDelete (key : string)
| OpIncr (key : string)
| OpDecr (key : string)
| OpSweep.

Definition run (now : Q) (o : operation) (s : CacheEngine.state)
    : CacheEngine.state :=
  match o with
  | OpSet key value expire => CacheEngine.set now key value expire s
  | OpGet key => (CacheEngine.get now key s).1
  | OpDelete key => (CacheEngine.delete key s).1
  | OpIncr key => (CacheEngine.incr key s).1
  | OpDecr key => (CacheEngine.decr key s).1
  | OpSweep => (CacheEngine._proactive_expire_round now s).1
  end.

(** The list of records is a heap for the order of the tuples. *)
Definition heap_ok (s : CacheEngine.state) : Prop :=
  HeapOrder.is_heap CacheEngine.tuple_lt (CacheEngine._expire_heap s).

(** Some record of the heap names [key] and is due at [now]. *)
Definition has_due_record (now : Q) (key : string) (s : CacheEngine.state) : bool :=
  existsb (fun r => due now r && String.eqb r.2 key) (CacheEngine._expire_heap s).

End Engine.

(** ** More string built-ins *)

Module PyText.

(** No character of the string is a blank. *)
Fixpoint no_space (s : string) : bool :=
  match s with
  | EmptyString => true
  | String c s' => negb (Py.is_space c) && no_space s'
  end.

(** Every character of the string is a blank. *)
Fixpoint all_space (s : string) : bool :=
  match s with
  | EmptyString => true
  | String c s' => Py.is_space c && all_space s'
  end.


(** A token as [split] produces them: not empty, no blank. *)
Definition is_token (s : string) : Prop := s <> EmptyString /\ no_space s = true.

(** [s.startswith(prefix)] *)
Definition startswith (s prefix : string) : bool := String.prefix prefix s.

(** [s.endswith(suffix)] *)
Definition endswith (s suffix : string) : bool :=
  let n := String.length s in
  let m := String.length suffix in
  (m <=? n)%nat && String.eqb (String.substring (n - m) m s) suffix.

(** [s[n:]] *)
Definition slice_from (n : nat) (s : string) : string :=
  String.substring n (String.length s - n) s.

(** What a [read(n)] returns of the bytes that are there: at most [n]. *)
Definition read (n : nat) (s : string) : string := String.substring 0 n s.

End PyText.

(** ** [PyRedisAsyncClient] ([poc/async_ver/pyredis_async_client.py])

    The connection is a [transport]: what the peer writes back for what the
    client wrote, the empty string when the peer has closed.  The client
    reads at most 1024 bytes of it.  [info], which parses floats, is left
    out. *)

Module PyRedisAsyncClient.

Definition ConnectionError (msg : string) : Py.exn := Py.Exn "ConnectionError" msg.

Section client.
Context {W : Type} (transport : string -> W -> W * string).

(** The client and its peer. *)
Record state := State { _connected : bool; peer : W }.

Definition M (A : Type) : Type := state -> state * Py.result A.

Definition ret {A} (a : A) : M A := fun c => (c, Py.Ret a).

Definition bind {A C} (m : M A) (k : A -> M C) : M C :=
  fun c =>
    match m c with
    | (c', Py.Ret a) => k a c'
    | (c', Py.Raise e) => (c', Py.Raise e)
    end.

(** [_send_command(command)] *)
Definition _send_command (command : string) : M string :=
  fun c =>
    if negb (_connected c) then
      (c, Py.Raise (ConnectionError "Not connected to server"))
    else
      let command :=
        if PyText.endswith command CommandParser.crlf then command
        else command ++ CommandParser.crlf in
      let '(w', written) := transport command (peer c) in
      match PyText.read 1024 written with
      | EmptyString =>
          (State false w',
           Py.Raise (ConnectionError
             "Error communicating with server: Connection closed by server"))
      | response => (State (_connected c) w', Py.Ret (Py.strip response))
      end.

(** [set(key, value, expire)] *)
Definition set (key value : string) (expire : option Z) : M bool :=
  let command :=
    match expire with
    | Some e => "SET " ++ key ++ " " ++ value ++ " EX " ++ Py.str e
    | None => "SET " ++ key ++ " " ++ value
    end in
  bind (_send_command command) (fun response => ret (String.eqb response "OK")).

(** [get(key)] *)
Definition get (key : string) : M (option string) :=
  bind (_send_command ("GET " ++ key))
    (fun response =>
       ret (if String.eqb response "(nil)" then None else Some response)).

(** [int(response[1:]) if response.startswith(':') else default] *)
Definition int_reply (default : Z) (response : string) : M Z :=
  fun c =>
    if PyText.startswith response ":" then
      match Py.int (PyText.slice_from 1 response) with
      | Some n => (c, Py.Ret n)
      | None =>
          (c, Py.Raise (PyRedisLite.invalid_literal (PyText.slice_from 1 response)))
      end
    else (c, Py.Ret default).

(** [delete(key)] *)
Definition delete (key : string) : M Z :=
  bind (_send_command ("DEL " ++ key)) (int_reply 0).

(** [ttl(key)] *)
Definition ttl (key : string) : M Z :=
  bind (_send_command ("TTL " ++ key)) (int_reply (-2)).

(** [incr(key)] *)
Definition incr (key : string) : M Z :=
  bind (_send_command ("INCR " ++ key)) (int_reply 0).

(** [decr(key)] *)
Definition decr (key : string) : M Z :=
  bind (_send_command ("DECR " ++ key)) (int_reply 0).

(** [save()] *)
Definition save : M bool :=
  bind (_send_command "SAVE") (fun response => ret (String.eqb response "OK")).

(** [ping()]: any exception is turned into [False]. *)
Definition ping : M bool :=
  fun c =>
    match _send_command "GET __ping_test__" c with
    | (c', Py.Ret _) => (c', Py.Ret true)
    | (c', Py.Raise _) => (c', Py.Ret false)
    end.
End client.

Arguments State {W} _ _.
Arguments _connected {W} _.
Arguments peer {W} _.

(** The asynchronous server as a peer, on a connection that hands over each
    message in one piece: the handler reads at most 1024 bytes and answers
    at the instant [now]. *)
Definition async_server {B : Type} (P : pickler B) (now : Q) (written : string)
    (w : @CommandParser.world B) : @CommandParser.world B * string :=
  match CommandParser.handle_client_round P now (PyText.read 1024 written) w with
  | (w', Continue response) => (w', response)
  | (w', Close (Some response)) => (w', response)
  | (w', Close None) => (w', EmptyString)
  end.

End PyRedisAsyncClient.

(** * Facts *)

(** ** Python built-ins *)

Section py_facts.
Import Py.

Example builtins_run :
  int "42" = Some 42 /\ int " -7 " = Some (-7) /\ int "1_000" = Some 1000
  /\ int "abc" = None /\ int "" = None /\ int "1__0" = None
  /\ int "+" = None /\ int "007" = Some 7 /\ str (-12) = "-12"
  /\ str 0 = "0" /\ split "  SET k  v " = ["SET"; "k"; "v"]
  /\ upper "set" = "SET" /\ strip "  a b  " = "a b"
  /\ int_of_float (-3 # 2) = -1 /\ int_of_float (7 # 2) = 3.
Proof. vm_compute. repeat split; reflexivity. Qed.

Lemma rstrip_cons c s :
  is_space c = false -> rstrip s = s -> rstrip (String c s) = String c s.
Proof.
  intros Hc Hs. simpl. rewrite Hs, Hc. now destruct s.
Qed.

Lemma rstrip_digits u :
  rstrip (NilEmpty.string_of_uint u) = NilEmpty.string_of_uint u.
Proof.
  induction u; [reflexivity | ..];
    cbn [NilEmpty.string_of_uint]; now apply rstrip_cons.
Qed.

Lemma strip_digits u :
  strip (NilEmpty.string_of_uint u) = NilEmpty.string_of_uint u.
Proof.
  unfold strip.
  replace (lstrip (NilEmpty.string_of_uint u)) with (NilEmpty.string_of_uint u)
    by now destruct u.
  apply rstrip_digits.
Qed.

Lemma skip_trailing_cons c s :
  is_c_space c = false -> skip_trailing s = s ->
  skip_trailing (String c s) = String c s.
Proof.
  intros Hc Hs. simpl. rewrite Hs, Hc. now destruct s.
Qed.

Lemma skip_trailing_digits u :
  skip_trailing (NilEmpty.string_of_uint u) = NilEmpty.string_of_uint u.
Proof.
  induction u; [reflexivity | ..];
    cbn [NilEmpty.string_of_uint]; now apply skip_trailing_cons.
Qed.

Lemma skip_digits u :
  skip_trailing (skip_leading (NilEmpty.string_of_uint u))
  = NilEmpty.string_of_uint u.
Proof.
  replace (skip_leading (NilEmpty.string_of_uint u))
    with (NilEmpty.string_of_uint u) by now destruct u.
  apply skip_trailing_digits.
Qed.

Lemma drop_underscores_digits u :
  drop_underscores true (NilEmpty.string_of_uint u)
  = Some (NilEmpty.string_of_uint u).
Proof.
  induction u; [reflexivity | ..];
    cbn [NilEmpty.string_of_uint drop_underscores];
    (replace (Ascii.eqb _ "_") with false by reflexivity);
    now rewrite IHu.
Qed.

Lemma parse_digits_of_uint u :
  u <> Nil -> parse_digits (NilEmpty.string_of_uint u) = Some (Z.of_uint u).
Proof.
  intros Hu. unfold parse_digits.
  assert (drop_underscores false (NilEmpty.string_of_uint u)
          = Some (NilEmpty.string_of_uint u)) as ->.
  { destruct u; [congruence | ..];
      cbn [NilEmpty.string_of_uint drop_underscores];
      (replace (Ascii.eqb _ "_") with false by reflexivity);
      now rewrite drop_underscores_digits. }
  replace (NilEmpty.string_of_uint u) with (NilZero.string_of_uint u)
    by now destruct u.
  now rewrite NilZero.usu.
Qed.

(** [int(str(n)) == n] *)
Lemma int_str (n : Z) : int (str n) = Some n.
Proof.
  unfold str.
  assert (forall u, u <> Nil ->
            int (NilEmpty.string_of_uint u) = Some (Z.of_uint u)) as Hpos.
  { intros u Hu. unfold int. rewrite skip_digits.
    pose proof (parse_digits_of_uint u Hu) as Hp.
    destruct u; [congruence | ..]; exact Hp. }
  assert (forall u, u <> Nil ->
            int (String "-" (NilEmpty.string_of_uint u)) = Some (- Z.of_uint u))
    as Hneg.
  { intros u Hu. unfold int.
    cbn [skip_leading]. replace (is_c_space "-") with false by reflexivity.
    rewrite skip_trailing_cons by (reflexivity || apply skip_trailing_digits).
    replace (Ascii.eqb "-" "-") with true by reflexivity.
    now rewrite parse_digits_of_uint. }
  rewrite <- (DecimalZ.of_to n) at 2.
  destruct n as [|p|p]; cbn [Z.to_int NilZero.string_of_int Z.of_int].
  - reflexivity.
  - pose proof (DecimalPos.Unsigned.to_uint_nonnil p) as Hp.
    replace (NilZero.string_of_uint (Pos.to_uint p))
      with (NilEmpty.string_of_uint (Pos.to_uint p))
      by (now destruct (Pos.to_uint p)).
    now apply Hpos.
  - pose proof (DecimalPos.Unsigned.to_uint_nonnil p) as Hp.
    replace (NilZero.string_of_uint (Pos.to_uint p))
      with (NilEmpty.string_of_uint (Pos.to_uint p))
      by (now destruct (Pos.to_uint p)).
    now apply Hneg.
Qed.

Lemma flt_spec (x y : Q) : flt x y = true <-> (x < y)%Q.
Proof.
  unfold flt. rewrite Qlt_alt. destruct (x ?= y)%Q; split; congruence.
Qed.

(** Truncation of a non-negative float is non-negative. *)
Lemma int_of_float_nonneg (x : Q) : (0 <= x)%Q -> 0 <= int_of_float x.
Proof.
  intros Hx. unfold int_of_float.
  apply Z.quot_pos; [| lia].
  unfold Qle in Hx. simpl in Hx. lia.
Qed.
End py_facts.

(** ** [heapq]: the operations keep the length in step and invent no item *)

Section heapq_facts.
Context {A : Type} (lt : A -> A -> bool).
Implicit Types (heap : list A) (P : A -> Prop).

Lemma _siftdown_loop_length fuel x startpos pos heap :
  length (heapq._siftdown_loop lt fuel x startpos pos heap) = length heap.
Proof.
  revert pos heap.
  induction fuel as [|fuel IH]; intros pos heap; simpl;
    [now rewrite length_insert|].
  destruct (startpos <? pos)%nat; [|now rewrite length_insert].
  destruct (heap !! _) as [parent|]; [|now rewrite length_insert].
  destruct (lt x parent); [|now rewrite length_insert].
  now rewrite IH, length_insert.
Qed.

Lemma _siftdown_length startpos pos heap :
  length (heapq._siftdown lt startpos pos heap) = length heap.
Proof.
  unfold heapq._siftdown. destruct (heap !! pos); [|done].
  apply _siftdown_loop_length.
Qed.

Lemma _siftup_loop_length fuel pos heap :
  length (heapq._siftup_loop lt fuel pos heap).1 = length heap.
Proof.
  revert pos heap.
  induction fuel as [|fuel IH]; intros pos heap; [done|].
  cbn [heapq._siftup_loop].
  repeat case_match; try done; now rewrite IH, length_insert.
Qed.

Lemma _siftup_length pos heap :
  length (heapq._siftup lt pos heap) = length heap.
Proof.
  unfold heapq._siftup. destruct (heap !! pos); [|done].
  pose proof (_siftup_loop_length (length heap) pos heap) as Hlen.
  destruct (heapq._siftup_loop lt (length heap) pos heap) as [heap1 pos1].
  simpl in Hlen. now rewrite _siftdown_length, length_insert.
Qed.

Lemma _siftdown_loop_Forall P fuel x startpos pos heap :
  Forall P heap -> P x ->
  Forall P (heapq._siftdown_loop lt fuel x startpos pos heap).
Proof.
  revert pos heap.
  induction fuel as [|fuel IH]; intros pos heap Hheap Hx; simpl;
    [now apply Forall_insert|].
  destruct (startpos <? pos)%nat; [|now apply Forall_insert].
  destruct (heap !! _) as [parent|] eqn:Hparent; [|now apply Forall_insert].
  destruct (lt x parent); [|now apply Forall_insert].
  apply IH; [|done]. apply Forall_insert; [done|].
  eapply Forall_lookup_1; eauto.
Qed.

Lemma _siftdown_Forall P startpos pos heap :
  Forall P heap -> Forall P (heapq._siftdown lt startpos pos heap).
Proof.
  intros Hheap. unfold heapq._siftdown.
  destruct (heap !! pos) as [x|] eqn:Hx; [|done].
  apply _siftdown_loop_Forall; [done|]. eapply Forall_lookup_1; eauto.
Qed.

Lemma _siftup_loop_Forall P fuel pos heap :
  Forall P heap -> Forall P (heapq._siftup_loop lt fuel pos heap).1.
Proof.
  revert pos heap.
  induction fuel as [|fuel IH]; intros pos heap Hheap; [done|].
  cbn [heapq._siftup_loop].
  repeat case_match; try done;
    (apply IH, Forall_insert; [done|]; eapply Forall_lookup_1; eauto).
Qed.

Lemma _siftup_Forall P pos heap :
  Forall P heap -> Forall P (heapq._siftup lt pos heap).
Proof.
  intros Hheap. unfold heapq._siftup.
  destruct (heap !! pos) as [x|] eqn:Hx; [|done].
  pose proof (_siftup_loop_Forall P (length heap) pos heap Hheap) as H1.
  destruct (heapq._siftup_loop lt (length heap) pos heap) as [heap1 pos1].
  apply _siftdown_Forall, Forall_insert; [done|].
  exact (Forall_lookup_1 _ _ _ _ Hheap Hx).
Qed.

Lemma heappush_Forall P heap x :
  Forall P heap -> P x -> Forall P (heapq.heappush lt heap x).
Proof.
  intros Hheap Hx. apply _siftdown_Forall, Forall_app_2; [done|].
  now constructor.
Qed.

Lemma heappush_length heap x :
  length (heapq.heappush lt heap x) = S (length heap).
Proof.
  unfold heapq.heappush. rewrite _siftdown_length, length_app. simpl. lia.
Qed.

Lemma heappop_Some heap x heap' :
  heapq.heappop lt heap = Some (x, heap') ->
  length heap = S (length heap') /\
  forall P, Forall P heap -> P x /\ Forall P heap'.
Proof.
  unfold heapq.heappop. destruct (last heap) as [lastelt|] eqn:Hlast; [|done].
  apply last_Some in Hlast as [heap1 ->].
  rewrite removelast_last, length_app. simpl.
  destruct heap1 as [|returnitem heap1]; intros [= <- <-].
  - split; [done|]. intros P HP. split; [|constructor].
    now apply Forall_inv in HP.
  - split.
    + rewrite _siftup_length. simpl. lia.
    + intros P [HP Hlast]%Forall_app. apply Forall_inv in Hlast.
      split; [now apply Forall_inv in HP|].
      apply _siftup_Forall. simpl. constructor; [done|].
      now apply Forall_inv_tail in HP.
Qed.

Lemma heappop_is_Some heap x :
  heap !! 0%nat = Some x -> is_Some (heapq.heappop lt heap).
Proof.
  intros Hx. unfold heapq.heappop.
  destruct (last heap) as [lastelt|] eqn:Hlast.
  - destruct (removelast heap); eauto.
  - apply last_None in Hlast. now subst.
Qed.

Lemma heapify_Forall P heap :
  Forall P heap -> Forall P (heapq.heapify lt heap).
Proof.
  unfold heapq.heapify. generalize (rev (seq 0 (length heap / 2))).
  intros l. revert heap. induction l as [|i l IH]; intros heap Hheap; simpl;
    [done|]. now apply IH, _siftup_Forall.
Qed.
End heapq_facts.

(** ** The sweep of the asynchronous engine *)

Section sweep_facts.
Import CacheEngine.

(** The loop stops on its own condition: the heap is empty or its first
    record is not due.  The fuel is not what ends it. *)
Lemma _remove_expired_loop_exit fuel now s :
  (length (_expire_heap s) <= fuel)%nat ->
  match _expire_heap (_remove_expired_loop fuel now s) !! 0%nat with
  | Some (t, _) => Py.flt t now = false
  | None => True
  end.
Proof.
  revert s. induction fuel as [|fuel IH]; intros s Hlen.
  - destruct (_expire_heap s) eqn:Hh; simpl in *; [now rewrite Hh | lia].
  - cbn [_remove_expired_loop].
    destruct (_expire_heap s !! 0%nat) as [[t k]|] eqn:Hfirst;
      [|now rewrite Hfirst].
    destruct (Py.flt t now) eqn:Hdue; [|now rewrite Hfirst, Hdue].
    destruct (heapq.heappop tuple_lt (_expire_heap s)) as [[[t' key] heap']|]
      eqn:Hpop.
    + apply heappop_Some in Hpop as [Hl _]. apply IH. simpl. lia.
    + pose proof (heappop_is_Some tuple_lt _ _ Hfirst) as [? ?]. congruence.
Qed.

Lemma _remove_expired_keys_exit now s :
  match _expire_heap (_remove_expired_keys now s) !! 0%nat with
  | Some (t, _) => Py.flt t now = false
  | None => True
  end.
Proof. now apply _remove_expired_loop_exit. Qed.

(** A key that no record of the heap names is out of reach of the sweep. *)
Lemma _remove_expired_loop_untouched key fuel now s :
  Forall (fun r => r.2 <> key) (_expire_heap s) ->
  _data (_remove_expired_loop fuel now s) !! key = _data s !! key /\
  Forall (fun r => r.2 <> key) (_expire_heap (_remove_expired_loop fuel now s)).
Proof.
  revert s. induction fuel as [|fuel IH]; intros s Hheap; [done|].
  cbn [_remove_expired_loop].
  destruct (_expire_heap s !! 0%nat) as [[t k]|]; [|done].
  destruct (Py.flt t now); [|done].
  destruct (heapq.heappop tuple_lt (_expire_heap s)) as [[[t' k'] heap']|]
    eqn:Hpop; [|done].
  apply heappop_Some in Hpop as [_ Hpop].
  destruct (Hpop _ Hheap) as [Hk' Hheap']. simpl in Hk'.
  destruct (IH (State (if decide (is_Some (_data s !! k'))
                       then base.delete k' (_data s) else _data s)
                  heap' (_start_time s)) Hheap') as [IHd IHh].
  split; [|exact IHh]. rewrite IHd. simpl.
  case_decide; [|done]. now rewrite lookup_delete_ne.
Qed.

(** The sweep reads and writes the dictionary and the heap only. *)
Lemma _remove_expired_loop_start_time fuel now s t :
  _remove_expired_loop fuel now (State (_data s) (_expire_heap s) t)
  = State (_data (_remove_expired_loop fuel now s))
      (_expire_heap (_remove_expired_loop fuel now s)) t.
Proof.
  revert s. induction fuel as [|fuel IH]; intros s; [done|].
  cbn [_remove_expired_loop _expire_heap _data _start_time].
  destruct (_expire_heap s !! 0%nat) as [[t0 k]|]; [|done].
  destruct (Py.flt t0 now); [|done].
  destruct (heapq.heappop tuple_lt (_expire_heap s)) as [[[t' k'] heap']|];
    [|done].
  exact (IH (State _ heap' (_start_time s))).
Qed.
End sweep_facts.

(** ** Overwriting a key that has a pending expiry *)

(** C1, evaluated on both engines.  The key [k] is set at time 0 with a TTL
    of 10 seconds and set again at time 1 with the TTL left out.  The second
    value is stored, but the old expiry stays attached to the key: [ttl] at
    time 2 answers 8 instead of -1, and at time 11 [get] finds the key gone. *)
Theorem set_without_ttl_keeps_old_expiry :
  let s := CacheEngine.set 1 "k" "v2" None
             (CacheEngine.set 0 "k" "v1" (Some 10) (CacheEngine.init 0)) in
  let l := (PyRedisLite.set 1 "k" "v2" None
             (PyRedisLite.set 0 "k" "v1" (Some (PyRedisLite.PyInt 10))
                PyRedisLite.init).1).1 in
  (CacheEngine.get 2 "k" s).2 = Some "v2" /\
  CacheEngine.ttl 2 "k" s = 8 /\
  (CacheEngine.get 11 "k" s).2 = None /\
  (PyRedisLite.get 2 "k" l).2 = "v2" /\
  (PyRedisLite.ttl 2 "k" l).2 = "8" /\
  (PyRedisLite.get 11 "k" l).2 = "(nil)".
Proof. vm_compute. repeat split; reflexivity. Qed.

(** ** Stale records in the sweep *)

(** C2, evaluated.  The key [k] is set at time 0 with a TTL of 1 second and
    set again, still at time 0, with a TTL of 100 seconds.  At time 2 the
    sweep drains the first record, which no longer describes the entry, and
    deletes the entry all the same; the record of the live entry stays in
    the heap. *)
Theorem sweep_deletes_redefined_entry :
  let s := CacheEngine.set 0 "k" "v2" (Some 100)
             (CacheEngine.set 0 "k" "v1" (Some 1) (CacheEngine.init 0)) in
  let s' := CacheEngine._remove_expired_keys 2 s in
  CacheEngine._data s !! "k" = Some "v2" /\
  CacheEngine._expire_heap s = [(1%Q, "k"); (100%Q, "k")] /\
  CacheEngine._data s' !! "k" = None /\
  CacheEngine._expire_heap s' = [(100%Q, "k")].
Proof. vm_compute. repeat split; reflexivity. Qed.

(** The part of C2 that the code does have: a drained record whose key is
    not stored leaves every entry as it was. *)
Lemma sweep_pass_absent_key fuel now s t k heap' :
  CacheEngine._expire_heap s !! 0%nat = Some (t, k) ->
  Py.flt t now = true ->
  heapq.heappop CacheEngine.tuple_lt (CacheEngine._expire_heap s)
    = Some ((t, k), heap') ->
  CacheEngine._data s !! k = None ->
  CacheEngine._remove_expired_loop (S fuel) now s
  = CacheEngine._remove_expired_loop fuel now
      (CacheEngine.State (CacheEngine._data s) heap' (CacheEngine._start_time s)).
Proof.
  intros Hfirst Hdue Hpop Hk. cbn [CacheEngine._remove_expired_loop].
  rewrite Hfirst, Hdue, Hpop. case_decide as Hin; [|done].
  rewrite Hk in Hin. now destruct Hin.
Qed.

(** ** [ttl] *)

(** C3, evaluated on the asynchronous engine.  The key [k] is set at time 0
    with a TTL of 1 second; no sweep has run when [ttl] is called at time
    5/2.  [ttl] does not check the expiry: the key is still stored and the
    answer is [int(1 - 2.5)], that is -1, a negative number in the branch of
    a key with an expiry.  The threaded engine, on the same input, removes
    the entry and answers -2. *)
Theorem async_ttl_negative_for_expired_key :
  let s := CacheEngine.set 0 "k" "v" (Some 1) (CacheEngine.init 0) in
  let l := (PyRedisLite.set 0 "k" "v" (Some (PyRedisLite.PyInt 1))
              PyRedisLite.init).1 in
  CacheEngine._data s !! "k" = Some "v" /\
  CacheEngine._expire_heap s = [(1%Q, "k")] /\
  CacheEngine.ttl (5 # 2) "k" s = -1 /\
  (PyRedisLite.ttl (5 # 2) "k" l).2 = "-2" /\
  PyRedisLite.data (PyRedisLite.ttl (5 # 2) "k" l).1 !! "k" = None.
Proof. vm_compute. repeat split; reflexivity. Qed.

(** The two answers of the asynchronous [ttl] that do not depend on the
    time. *)
Lemma async_ttl_absent now key s :
  CacheEngine._data s !! key = None -> CacheEngine.ttl now key s = -2.
Proof.
  intros Hk. unfold CacheEngine.ttl. case_decide as Hin; [|done].
  rewrite Hk in Hin. now destruct Hin.
Qed.

Lemma async_ttl_no_record now key s :
  is_Some (CacheEngine._data s !! key) ->
  Forall (fun r => r.2 <> key) (CacheEngine._expire_heap s) ->
  CacheEngine.ttl now key s = -1.
Proof.
  intros Hk Hheap. unfold CacheEngine.ttl. case_decide; [|done].
  destruct (List.find _ _) as [[t k]|] eqn:Hfind; [|done].
  apply find_some in Hfind as [Hin Heq]. simpl in Heq.
  apply String.eqb_eq in Heq. subst k.
  apply list_elem_of_In in Hin. rewrite Forall_forall in Hheap.
  now destruct (Hheap _ Hin).
Qed.

(** The threaded [ttl] does what C3 says: the expiry is checked before the
    remaining time is computed, which is therefore never negative. *)
Lemma lite_ttl_spec now key s :
  match PyRedisLite.data s !! key, PyRedisLite.expirations s !! key with
  | None, _ => PyRedisLite.ttl now key s = (s, "-2")
  | Some _, None => PyRedisLite.ttl now key s = (s, "-1")
  | Some _, Some t =>
      if Py.fgt now t
      then PyRedisLite.ttl now key s = (PyRedisLite.expire_key key s, "-2")
      else PyRedisLite.ttl now key s = (s, Py.str (Py.int_of_float (t - now)%Q))
           /\ 0 <= Py.int_of_float (t - now)%Q
  end.
Proof.
  unfold PyRedisLite.ttl.
  destruct (PyRedisLite.data s !! key); [|done].
  destruct (PyRedisLite.expirations s !! key) as [t|]; [|done].
  destruct (Py.fgt now t) eqn:Hgt; [done|]. split; [done|].
  apply int_of_float_nonneg.
  unfold Py.fgt in Hgt.
  destruct (Qlt_le_dec t now) as [Hlt|Hle].
  - apply flt_spec in Hlt. congruence.
  - lra.
Qed.

(** ** [incr] and [decr] on a value that is not an integer *)

(** C4.  When the value stored under [key] does not parse as an integer,
    [incr] and [decr] of the asynchronous engine raise [ValueError] and
    [incr] of the threaded engine returns its error message; in each case
    the whole state, values and expiry data alike, is the one before the
    call. *)
Theorem incr_decr_reject_non_integer
    (key v : string) (s : CacheEngine.state) (l : PyRedisLite.state)
    (Hv : Py.int v = None)
    (Hs : CacheEngine._data s !! key = Some v)
    (Hl : PyRedisLite.data l !! key = Some v) :
  CacheEngine.incr key s = (s, Py.Raise CacheEngine.not_an_integer) /\
  CacheEngine.decr key s = (s, Py.Raise CacheEngine.not_an_integer) /\
  PyRedisLite.incr key l = (l, "ERROR: Value is not an integer").
Proof.
  unfold CacheEngine.incr, CacheEngine.decr, CacheEngine.current_value,
    PyRedisLite.incr.
  now rewrite Hs, Hl, Hv.
Qed.

Lemma incr_decr_reject_non_integer_witness :
  let s := CacheEngine.set 0 "k" "abc" (Some 5) (CacheEngine.init 0) in
  let l := (PyRedisLite.set 0 "k" "abc" (Some (PyRedisLite.PyInt 5))
              PyRedisLite.init).1 in
  CacheEngine.incr "k" s = (s, Py.Raise CacheEngine.not_an_integer) /\
  CacheEngine.decr "k" s = (s, Py.Raise CacheEngine.not_an_integer) /\
  PyRedisLite.incr "k" l = (l, "ERROR: Value is not an integer").
Proof.
  intros s l.
  apply (incr_decr_reject_non_integer "k" "abc" s l); reflexivity.
Defined.


(** ** Snapshots *)

Section snapshot_facts.
Import CacheEngine.
Context {B : Type} (P : pickler B).

(** What [get] and [ttl] answer depends on the dictionary and on the heap,
    not on the start time of the engine. *)
Lemma reads_ignore_start_time s t now key :
  let s' := State (_data s) (_expire_heap s) t in
  ttl now key s' = ttl now key s /\
  (get now key s').2 = (get now key s).2 /\
  _data (get now key s').1 = _data (get now key s).1 /\
  _expire_heap (get now key s').1 = _expire_heap (get now key s).1.
Proof.
  split; [done|]. unfold get, _remove_expired_keys. simpl.
  now rewrite _remove_expired_loop_start_time.
Qed.

Lemma save_writes filename s fs :
  filename ++ ".tmp" ∉ denied fs -> filename ∉ denied fs ->
  exists fs',
    save P filename s fs = (fs', Py.Ret tt) /\
    files fs' !! filename
    = Some (dump_data P (_data s) ++ dump_heap P (_expire_heap s))%list.
Proof.
  intros Htmp Hfile. unfold save.
  rewrite decide_False by done. rewrite decide_False by done.
  eexists. split; [done|]. simpl. apply lookup_insert_eq.
Qed.
End snapshot_facts.

(** C5.  For a pickler that reads back what it dumps, [save] followed by
    [load] into a fresh engine gives an engine with the same dictionary and
    the same heap of records.  The records carry absolute times, so at every
    later instant the loaded engine answers [ttl] and [get] as the saved one
    would at that instant: the time between save and load counts against
    the TTL, and a key whose time has passed is swept by the first [get]. *)
Theorem save_load_round_trip {B : Type} (P : pickler B) (filename : string)
    (s : CacheEngine.state) (fs : filesystem B) (t0 : Q)
    (HP : pickler_sound P)
    (Htmp : filename ++ ".tmp" ∉ denied fs)
    (Hfile : filename ∉ denied fs) :
  exists fs' s',
    CacheEngine.save P filename s fs = (fs', Py.Ret tt) /\
    CacheEngine.load P filename (CacheEngine.init t0) fs' = (s', Py.Ret tt) /\
    CacheEngine._data s' = CacheEngine._data s /\
    CacheEngine._expire_heap s' = CacheEngine._expire_heap s /\
    forall now key,
      CacheEngine.ttl now key s' = CacheEngine.ttl now key s /\
      (CacheEngine.get now key s').2 = (CacheEngine.get now key s).2 /\
      CacheEngine._data (CacheEngine.get now key s').1
      = CacheEngine._data (CacheEngine.get now key s).1.
Proof.
  destruct HP as [Hdata Hheap].
  destruct (save_writes P filename s fs Htmp Hfile) as (fs' & Hsave & Hread).
  exists fs', (CacheEngine.State (CacheEngine._data s) (CacheEngine._expire_heap s) t0).
  split; [done|]. split.
  - unfold CacheEngine.load. rewrite Hread, Hdata.
    rewrite <- (app_nil_r (dump_heap P _)), Hheap. reflexivity.
  - split; [done|]. split; [done|]. intros now key.
    pose proof (reads_ignore_start_time s t0 now key) as H. simpl in H. tauto.
Qed.

Lemma save_load_round_trip_witness :
  let s := CacheEngine.set 1 "b" "2" None
             (CacheEngine.set 0 "a" "1" (Some 5) (CacheEngine.init 0)) in
  exists fs' s',
    CacheEngine.save Frames.pickle "dump.rdb" s (FS ∅ ∅) = (fs', Py.Ret tt) /\
    CacheEngine.load Frames.pickle "dump.rdb" (CacheEngine.init 10) fs'
    = (s', Py.Ret tt) /\
    CacheEngine._data s' = CacheEngine._data s /\
    CacheEngine._expire_heap s' = CacheEngine._expire_heap s /\
    forall now key,
      CacheEngine.ttl now key s' = CacheEngine.ttl now key s /\
      (CacheEngine.get now key s').2 = (CacheEngine.get now key s).2 /\
      CacheEngine._data (CacheEngine.get now key s').1
      = CacheEngine._data (CacheEngine.get now key s).1.
Proof.
  intros s.
  apply (save_load_round_trip Frames.pickle "dump.rdb" s (FS ∅ ∅) 10).
  - split; intros; reflexivity.
  - simpl. apply not_elem_of_empty.
  - simpl. apply not_elem_of_empty.
Defined.

(** A snapshot taken at time 1 and loaded at time 10: the key with a TTL of
    5 seconds is served as absent, the other one is there. *)
Example snapshot_gap_expires_key :
  let s := CacheEngine.set 1 "b" "2" None
             (CacheEngine.set 0 "a" "1" (Some 5) (CacheEngine.init 0)) in
  let fs' := (CacheEngine.save Frames.pickle "dump.rdb" s (FS ∅ ∅)).1 in
  let s' := (CacheEngine.load Frames.pickle "dump.rdb" (CacheEngine.init 10) fs').1 in
  CacheEngine.ttl 3 "a" s' = 2 /\
  (CacheEngine.get 10 "a" s').2 = None /\
  (CacheEngine.get 10 "b" s').2 = Some "2".
Proof. vm_compute. repeat split; reflexivity. Qed.

(** C6 as stated fails on a snapshot cut after its first object.  The file
    holds the dictionary of an engine whose key [k] expires at time 100, and
    nothing else.  [load] into a fresh engine raises [EOFError], and the
    engine is not what it was: it holds [k], without any record of its
    expiry. *)
Lemma load_truncated_snapshot_keeps_data :
  let s := CacheEngine.set 0 "k" "v" (Some 100) (CacheEngine.init 0) in
  let fs := FS {["dump.rdb" := dump_data Frames.pickle (CacheEngine._data s)]} ∅ in
  let fresh := CacheEngine.init 1 in
  let r := CacheEngine.load Frames.pickle "dump.rdb" fresh fs in
  r.2 = Py.Raise Frames.ran_out /\
  r.1 <> fresh /\
  CacheEngine._data fresh !! "k" = None /\
  CacheEngine._data r.1 !! "k" = Some "v" /\
  CacheEngine._expire_heap r.1 = [] /\
  CacheEngine._expire_heap s = [(100%Q, "k")].
Proof.
  vm_compute. repeat split; try reflexivity. intros [=].
Qed.

(** C6, amended.  When the snapshot file exists, [load] either returns with
    both the dictionary and the heap replaced by what the file holds, or
    raises.  A failure in the first read leaves the engine as it was; a
    failure in the second read leaves the dictionary of the file in place
    with the heap of before.  In both cases the exception leaves [main]
    before a parser or a server exists. *)
Theorem load_replaces_both_or_raises {B : Type} (P : pickler B)
    (filename : string) (s : CacheEngine.state) (fs : filesystem B)
    (f : list B) (Hf : files fs !! filename = Some f) :
  match CacheEngine.load P filename s fs with
  | (s', Py.Ret _) =>
      exists d f' h f'',
        load_data P f = Py.Ret (d, f') /\ load_heap P f' = Py.Ret (h, f'') /\
        s' = CacheEngine.State d h (CacheEngine._start_time s)
  | (s', Py.Raise e) =>
      (load_data P f = Py.Raise e /\ s' = s) \/
      (exists d f',
         load_data P f = Py.Ret (d, f') /\ load_heap P f' = Py.Raise e /\
         s' = CacheEngine.State d (CacheEngine._expire_heap s)
                (CacheEngine._start_time s))
  end /\
  forall now,
    match CacheEngine.load P "dump.rdb" (CacheEngine.init now) fs with
    | (c, Py.Ret _) =>
        CommandParser.main_startup P now fs = Py.Ret (CommandParser.World c fs)
    | (_, Py.Raise e) => CommandParser.main_startup P now fs = Py.Raise e
    end.
Proof.
  split.
  - unfold CacheEngine.load. rewrite Hf.
    destruct (load_data P f) as [[d f']|e] eqn:Hd; [|now left].
    destruct (load_heap P f') as [[h f'']|e] eqn:Hh.
    + now exists d, f', h, f''.
    + right. now exists d, f'.
  - intros now. unfold CommandParser.main_startup.
    now destruct (CacheEngine.load P "dump.rdb" (CacheEngine.init now) fs)
      as [c [[]|e]].
Qed.

Lemma load_replaces_both_or_raises_witness :
  let s := CacheEngine.set 0 "k" "v" (Some 100) (CacheEngine.init 0) in
  let fs := FS {["dump.rdb" := dump_data Frames.pickle (CacheEngine._data s)]} ∅ in
  CommandParser.main_startup Frames.pickle 1 fs = Py.Raise Frames.ran_out.
Proof.
  intros s fs.
  destruct (load_replaces_both_or_raises Frames.pickle "dump.rdb"
              (CacheEngine.init 1) fs
              (dump_data Frames.pickle (CacheEngine._data s)) eq_refl)
    as [_ Hmain].
  exact (Hmain 1%Q).
Defined.


(** ** Exceptions at the dispatch boundary *)

Lemma parse_returns {B : Type} (P : pickler B) now data (w : @CommandParser.world B) :
  exists w' reply, CommandParser.parse P now data w = (w', Py.Ret reply).
Proof.
  unfold CommandParser.parse.
  destruct (Py.split (Py.strip data)) as [|part0 args]; [by eexists _, _|].
  unfold CommandParser.try_except.
  destruct (CommandParser.dispatch P now (Py.upper part0) args w) as [w1 [r|e]];
    by eexists _, _.
Qed.

(** C7 as stated fails on the threaded handler.  [SET k v EX abc] makes
    [int(ex)] raise inside [set]; the handler sends the error message and
    then leaves its loop, which closes the connection. *)
Lemma lite_error_closes_connection :
  let r := PyRedisLite.handle_client_round 0 "SET k v EX abc" PyRedisLite.init in
  r.2 = Close (Some ("ERROR: invalid literal for int() with base 10: 'abc'"
                     ++ PyRedisLite.newline)) /\
  PyRedisLite.data r.1 !! "k" = Some "v".
Proof. vm_compute. split; reflexivity. Qed.

(** C7, amended.  In the asynchronous server [parse] never raises: it
    returns a reply for every line, the connection loop sends it and reads
    on, and when the command raised [e] the reply is [ERROR: ] followed by
    the message of [e].  In the threaded server the exception of a command
    is turned into the same kind of reply, after which the handler closes
    the connection. *)
Theorem exceptions_become_error_replies {B : Type} (P : pickler B) (now : Q)
    (data received : string) (w : @CommandParser.world B)
    (db : PyRedisLite.state) :
  (exists w' reply,
     CommandParser.parse P now data w = (w', Py.Ret reply) /\
     (data <> EmptyString ->
      CommandParser.handle_client_round P now data w = (w', Continue reply)) /\
     (forall part0 args w1 e,
        Py.split (Py.strip data) = part0 :: args ->
        CommandParser.dispatch P now (Py.upper part0) args w = (w1, Py.Raise e) ->
        w' = w1 /\ reply = "ERROR: " ++ Py.exn_msg e ++ CommandParser.crlf)) /\
  (forall part0 args db1 e,
     Py.split (Py.strip received) = part0 :: args ->
     PyRedisLite.dispatch now (Py.upper part0) args db = (db1, Py.Raise e) ->
     PyRedisLite.handle_client_round now received db
     = (db1, Close (Some ("ERROR: " ++ Py.exn_msg e ++ PyRedisLite.newline)))).
Proof.
  split.
  - destruct (parse_returns P now data w) as (w' & reply & Hparse).
    exists w', reply. split; [done|]. split.
    + intros Hdata. unfold CommandParser.handle_client_round.
      rewrite Hparse. now destruct data.
    + intros part0 args w1 e Hsplit Hraise. revert Hparse.
      unfold CommandParser.parse, CommandParser.try_except.
      rewrite Hsplit, Hraise. unfold CommandParser.ret. now intros [= <- <-].
  - intros part0 args db1 e Hsplit Hraise.
    unfold PyRedisLite.handle_client_round.
    destruct (Py.strip received) as [|c r] eqn:Hstrip; [discriminate Hsplit|].
    now rewrite Hsplit, Hraise.
Qed.

Lemma exceptions_become_error_replies_witness :
  let w := CommandParser.World
             (CacheEngine.set 0 "k" "abc" None (CacheEngine.init 0))
             (FS (B := Frames.frame) ∅ ∅) in
  CommandParser.handle_client_round Frames.pickle 1 "INCR k" w
  = (w, Continue ("ERROR: value is not an integer or out of range"
                  ++ CommandParser.crlf)) /\
  (PyRedisLite.handle_client_round 1 "SET k v EX abc" PyRedisLite.init).2
  = Close (Some ("ERROR: invalid literal for int() with base 10: 'abc'"
                 ++ PyRedisLite.newline)).
Proof.
  intros w.
  destruct (exceptions_become_error_replies Frames.pickle 1 "INCR k"
              "SET k v EX abc" w PyRedisLite.init)
    as [(w' & reply & _ & Hloop & Hraise) Hlite].
  split.
  - destruct (Hraise "INCR" ["k"] w CacheEngine.not_an_integer eq_refl eq_refl)
      as [-> ->].
    apply Hloop. discriminate.
  - rewrite (Hlite "SET" ["k"; "v"; "EX"; "abc"] _ _ eq_refl eq_refl).
    reflexivity.
Defined.

(** ** A TTL of zero *)

Lemma sweeps_keep_unscheduled_key key value times s :
  CacheEngine._data s !! key = Some value ->
  Forall (fun r => r.2 <> key) (CacheEngine._expire_heap s) ->
  CacheEngine._data
    (foldl (fun st t => CacheEngine._remove_expired_keys t st) s times) !! key
  = Some value.
Proof.
  revert s. induction times as [|t times IH]; intros s Hdata Hheap; [done|].
  simpl. unfold CacheEngine._remove_expired_keys at 2.
  destruct (_remove_expired_loop_untouched key
              (length (CacheEngine._expire_heap s)) t s Hheap) as [Hd Hh].
  apply IH; [congruence | done].
Qed.

(** C9 as stated fails in two ways.  In either engine a key that already
    has a pending expiry keeps it through a [set] with a TTL of 0: here [k]
    still answers 8 to [ttl] and is gone at time 11.  And in the threaded
    server the TTL arrives as the token [0], a non-empty string, so the test
    succeeds and the key expires at the time of the [set]. *)
Lemma set_ttl_zero_may_expire :
  let s := CacheEngine.set 1 "k" "v2" (Some 0)
             (CacheEngine.set 0 "k" "v1" (Some 10) (CacheEngine.init 0)) in
  let r := PyRedisLite.handle_client_round 0 "SET k v EX 0" PyRedisLite.init in
  CacheEngine.ttl 2 "k" s = 8 /\
  (CacheEngine.get 11 "k" s).2 = None /\
  r.2 = Continue ("OK" ++ PyRedisLite.newline) /\
  PyRedisLite.expirations r.1 !! "k" = Some 0%Q /\
  (PyRedisLite.ttl 1 "k" r.1).2 = "-2".
Proof. vm_compute. repeat split; reflexivity. Qed.

(** C9, amended.  For a key without a pending expiry, [set] with the
    integer 0 as TTL does what [set] without a TTL does: no record is pushed
    (no expiry is stored), no sequence of sweeps removes the key, and at
    every later instant [ttl] answers -1 and [get] returns the value. *)
Theorem set_ttl_zero_is_no_expiry (now : Q) (key value : string)
    (s : CacheEngine.state) (l : PyRedisLite.state)
    (Hs : Forall (fun r => r.2 <> key) (CacheEngine._expire_heap s))
    (Hl : PyRedisLite.expirations l !! key = None) :
  let s' := CacheEngine.set now key value (Some 0) s in
  let l' := (PyRedisLite.set now key value (Some (PyRedisLite.PyInt 0)) l).1 in
  s' = CacheEngine.set now key value None s /\
  CacheEngine._expire_heap s' = CacheEngine._expire_heap s /\
  (forall times,
     CacheEngine._data
       (foldl (fun st t => CacheEngine._remove_expired_keys t st) s' times) !! key
     = Some value) /\
  (forall later,
     CacheEngine.ttl later key s' = -1 /\
     (CacheEngine.get later key s').2 = Some value) /\
  PyRedisLite.set now key value (Some (PyRedisLite.PyInt 0)) l = (l', Py.Ret "OK") /\
  PyRedisLite.expirations l' = PyRedisLite.expirations l /\
  (forall later,
     PyRedisLite.ttl later key l' = (l', "-1") /\
     PyRedisLite.get later key l' = (l', value)).
Proof.
  intros s' l'.
  assert (CacheEngine._data s' !! key = Some value) as Hdata
    by apply lookup_insert_eq.
  assert (Forall (fun r => r.2 <> key) (CacheEngine._expire_heap s')) as Hheap
    by exact Hs.
  repeat split; try reflexivity.
  - intros times. now apply sweeps_keep_unscheduled_key.
  - apply async_ttl_no_record; [by rewrite Hdata | done].
  - exact (sweeps_keep_unscheduled_key key value [later] s' Hdata Hheap).
  - unfold PyRedisLite.ttl. subst l'. simpl. now rewrite lookup_insert_eq, Hl.
  - unfold PyRedisLite.get. subst l'. simpl. now rewrite lookup_insert_eq, Hl.
Qed.

Lemma set_ttl_zero_is_no_expiry_witness :
  let s := CacheEngine.set 0 "other" "x" (Some 5) (CacheEngine.init 0) in
  let s' := CacheEngine.set 1 "k" "v" (Some 0) s in
  CacheEngine._expire_heap s' = [(5%Q, "other")] /\
  forall later,
    CacheEngine.ttl later "k" s' = -1 /\
    (CacheEngine.get later "k" s').2 = Some "v".
Proof.
  intros s s'.
  destruct (set_ttl_zero_is_no_expiry 1 "k" "v" s PyRedisLite.init)
    as (_ & Hheap & _ & Hlater & _).
  - repeat constructor. discriminate.
  - reflexivity.
  - split; [exact Hheap | exact Hlater].
Defined.

(** ** The expirations of the threaded engine belong to stored keys *)

Section lite_invariant.
Implicit Types (s : PyRedisLite.state) (key : string).

Lemma expire_key_stored key s :
  PyRedisLite.expirations_are_stored s ->
  PyRedisLite.expirations_are_stored (PyRedisLite.expire_key key s).
Proof.
  unfold PyRedisLite.expirations_are_stored, PyRedisLite.expire_key. simpl.
  rewrite !dom_delete_L.
  intros Hs k [Hk Hne]%elem_of_difference.
  apply elem_of_difference. split; [now apply Hs | done].
Qed.

Lemma delete_expired_stored key s :
  PyRedisLite.expirations_are_stored s ->
  PyRedisLite.expirations_are_stored (PyRedisLite.delete_expired key s).
Proof.
  unfold PyRedisLite.expirations_are_stored, PyRedisLite.delete_expired. simpl.
  case_decide as Hin; rewrite !dom_delete_L;
    intros Hs k [Hk Hne]%elem_of_difference.
  - apply elem_of_difference. split; [now apply Hs | done].
  - now apply Hs.
Qed.

Lemma active_expire_round_stored now s :
  PyRedisLite.expirations_are_stored s ->
  PyRedisLite.expirations_are_stored (PyRedisLite.active_expire_round now s).
Proof.
  unfold PyRedisLite.active_expire_round.
  generalize (PyRedisLite.keys_to_delete now s).
  intros keys. revert s.
  induction keys as [|key keys IH]; intros s Hs; simpl; [done|].
  now apply IH, delete_expired_stored.
Qed.

Lemma set_stored now key value ex s :
  PyRedisLite.expirations_are_stored s ->
  PyRedisLite.expirations_are_stored (PyRedisLite.set now key value ex s).1.
Proof.
  unfold PyRedisLite.expirations_are_stored, PyRedisLite.set. intros Hs.
  destruct ex as [x|];
    [destruct (PyRedisLite.truthy x); [destruct (PyRedisLite.to_int x)|]|];
    simpl; rewrite ?dom_insert_L;
    first [ now apply union_mono_l
          | etrans; [exact Hs | apply union_subseteq_r] ].
Qed.
End lite_invariant.

(** C10.  In the threaded engine every key of [expirations] is a key of
    [data]: this holds when the engine is created and every operation, one
    round of [active_expire] included, keeps it, at whatever time it runs
    and whether or not it raises. *)
Theorem expirations_stay_stored :
  PyRedisLite.expirations_are_stored PyRedisLite.init /\
  forall now o s,
    PyRedisLite.expirations_are_stored s ->
    PyRedisLite.expirations_are_stored (PyRedisLite.run now o s).
Proof.
  split; [unfold PyRedisLite.expirations_are_stored; simpl; set_solver|].
  intros now o s Hs. destruct o as [key value ex|key|key|key|key|key| |]; simpl.
  - now apply set_stored.
  - unfold PyRedisLite.get. repeat case_match; simpl;
      auto using expire_key_stored.
  - unfold PyRedisLite.delete. repeat case_match; simpl; try done.
    + now apply (expire_key_stored key).
    + unfold PyRedisLite.expirations_are_stored in *. simpl.
      rewrite dom_delete_L. intros k Hk.
      assert (k <> key) by (intros ->; apply elem_of_dom in Hk as [? ?]; congruence).
      set_solver.
  - unfold PyRedisLite.exists_. repeat case_match; simpl;
      auto using expire_key_stored.
  - unfold PyRedisLite.ttl. repeat case_match; simpl;
      auto using expire_key_stored.
  - unfold PyRedisLite.incr, PyRedisLite.expirations_are_stored in *.
    repeat case_match; simpl; rewrite ?dom_insert_L; set_solver.
  - unfold PyRedisLite.expirations_are_stored. simpl. set_solver.
  - now apply active_expire_round_stored.
Qed.

Lemma expirations_stay_stored_witness :
  let s := PyRedisLite.run 0
             (PyRedisLite.OpSet "k" "v" (Some (PyRedisLite.PyStr "abc")))
             PyRedisLite.init in
  PyRedisLite.expirations_are_stored (PyRedisLite.run 7 PyRedisLite.OpActiveExpire
    (PyRedisLite.run 1 (PyRedisLite.OpSet "k" "w" (Some (PyRedisLite.PyInt 5))) s)).
Proof.
  intros s.
  destruct expirations_stay_stored as [Hinit Hrun].
  apply Hrun, Hrun, Hrun, Hinit.
Defined.

(** ** One round of [active_expire], key by key *)

Section lite_facts.
Import PyRedisLite.
Implicit Types (s : state) (key : string).

Lemma fgt_false now t : Py.fgt now t = false <-> (now <= t)%Q.
Proof.
  unfold Py.fgt. rewrite <- not_true_iff_false, flt_spec. split; lra.
Qed.

Lemma fgt_true now t : Py.fgt now t = true <-> (t < now)%Q.
Proof. unfold Py.fgt. apply flt_spec. Qed.

(** The decimal string of an integer that is not negative is not [-2]. *)
Lemma str_nonneg_ne n : 0 <= n -> Py.str n <> "-2".
Proof.
  intros Hn Heq. pose proof (int_str n) as Hint. rewrite Heq in Hint.
  vm_compute in Hint. injection Hint as Hn2. lia.
Qed.

Lemma delete_expired_lookup k s key :
  expirations (delete_expired k s) !! key
  = (if decide (key = k) then None else expirations s !! key) /\
  data (delete_expired k s) !! key
  = (if decide (key = k) then None else data s !! key).
Proof.
  unfold delete_expired. simpl.
  destruct (decide (key = k)) as [->|Hne].
  - rewrite lookup_delete_eq. split; [done|].
    destruct (decide (is_Some (data s !! k))) as [Hin|Hin].
    + apply lookup_delete_eq.
    + now apply eq_None_not_Some.
  - rewrite lookup_delete_ne by done. split; [done|].
    case_decide; [now rewrite lookup_delete_ne|done].
Qed.

Lemma foldl_delete_expired keys s key :
  let s' := foldl (fun s k => delete_expired k s) s keys in
  expirations s' !! key
  = (if decide (key ∈ keys) then None else expirations s !! key) /\
  data s' !! key = (if decide (key ∈ keys) then None else data s !! key).
Proof.
  revert s. induction keys as [|k keys IH]; intros s; [done|].
  simpl. destruct (IH (delete_expired k s)) as [IHe IHd].
  destruct (delete_expired_lookup k s key) as [He Hd].
  rewrite IHe, IHd, He, Hd. clear IHe IHd He Hd.
  destruct (decide (key = k)) as [->|Hne].
  - assert (k ∈ k :: keys) as Hk by left.
    split; repeat case_decide; done.
  - destruct (decide (key ∈ keys)) as [Hk|Hk].
    + assert (key ∈ k :: keys) as Hk' by now right.
      split; repeat case_decide; done.
    + assert (key ∉ k :: keys) as Hk' by (intros [?|?]%elem_of_cons; done).
      split; repeat case_decide; done.
Qed.

Lemma elem_of_keys_to_delete now s key :
  key ∈ keys_to_delete now s <->
  exists t, expirations s !! key = Some t /\ Py.fgt now t = true.
Proof.
  unfold keys_to_delete. rewrite list_elem_of_fmap. split.
  - intros ([k t] & -> & Hin). simpl.
    apply list_elem_of_In, filter_In in Hin as [Hin Ht].
    apply list_elem_of_In, elem_of_map_to_list in Hin. eauto.
  - intros (t & Hk & Ht). exists (key, t). split; [done|].
    apply list_elem_of_In, filter_In. split; [|done].
    now apply list_elem_of_In, elem_of_map_to_list.
Qed.
End lite_facts.

(** ** Concurrent increments *)

Section engine_laws.
Import Concurrent.

(** The two statements of the block make up [incr]. *)
Lemma async_incr_read_write key (s : CacheEngine.state) l :
  read key s = Some l -> incr key s = write key l s.
Proof.
  cbn [read write incr engine_async]. unfold CacheEngine.incr.
  destruct (CacheEngine.current_value key s) as [n|]; [|done].
  now intros [= <-].
Qed.

Lemma async_incr_raises key (s : CacheEngine.state) :
  read key s = None ->
  CacheEngine.incr key s = (s, Py.Raise CacheEngine.not_an_integer).
Proof.
  cbn [read engine_async]. unfold CacheEngine.incr.
  now destruct (CacheEngine.current_value key s).
Qed.

Lemma lite_incr_read_write key (s : PyRedisLite.state) l :
  read key s = Some l -> incr key s = write key l s.
Proof.
  cbn [read write incr engine_threaded]. unfold PyRedisLite.incr.
  destruct (PyRedisLite.data s !! key) as [v|]; [|now intros [= <-]].
  destruct (Py.int v) as [n|]; [|done]. now intros [= <-].
Qed.

Lemma lite_incr_raises key (s : PyRedisLite.state) :
  read key s = None ->
  PyRedisLite.incr key s = (s, "ERROR: Value is not an integer").
Proof.
  cbn [read engine_threaded]. unfold PyRedisLite.incr.
  destruct (PyRedisLite.data s !! key) as [v|]; [|done].
  now destruct (Py.int v).
Qed.

(** After [k] increments the stored string parses, and a caller that reads
    it writes the string of [k + 1]. *)
Lemma async_read_counter key (s : CacheEngine.state) k :
  value key s = counter k ->
  exists l, read key s = Some l /\ written l = Py.str (Z.of_nat (S k)).
Proof.
  cbn [read value engine_async]. unfold CacheEngine.current_value.
  intros ->. destruct k as [|k]; cbn [counter].
  - now exists (LCur 0).
  - rewrite int_str. eexists. split; [done|]. cbn [written]. f_equal. lia.
Qed.

Lemma lite_read_counter key (s : PyRedisLite.state) k :
  value key s = counter k ->
  exists l, read key s = Some l /\ written l = Py.str (Z.of_nat (S k)).
Proof.
  cbn [read value engine_threaded].
  intros ->. destruct k as [|k]; cbn [counter].
  - now exists LFresh.
  - rewrite int_str. eexists. split; [done|]. cbn [written]. f_equal. lia.
Qed.

Lemma async_value_write key l (s : CacheEngine.state) :
  value key (write key l s) = Some (written l).
Proof. apply lookup_insert_eq. Qed.

Lemma lite_value_write key l (s : PyRedisLite.state) :
  value key (write key l s) = Some (written l).
Proof. apply lookup_insert_eq. Qed.

(** A sweep leaves alone a key that has no expiry pending. *)
Lemma async_sweep_keeps key now (s : CacheEngine.state) :
  unscheduled key s ->
  value key (sweep now s) = value key s /\ unscheduled key (sweep now s).
Proof.
  cbn [sweep value unscheduled engine_async]. intros Hheap.
  now apply _remove_expired_loop_untouched.
Qed.

Lemma lite_sweep_keeps key now (s : PyRedisLite.state) :
  unscheduled key s ->
  value key (sweep now s) = value key s /\ unscheduled key (sweep now s).
Proof.
  cbn [sweep value unscheduled engine_threaded]. intros Hkey.
  unfold PyRedisLite.active_expire_round.
  destruct (foldl_delete_expired (PyRedisLite.keys_to_delete now s) s key)
    as [He Hd].
  rewrite He, Hd.
  destruct (decide (key ∈ PyRedisLite.keys_to_delete now s)) as [Hin|Hin]; [|done].
  apply elem_of_keys_to_delete in Hin as (t & Ht & _). congruence.
Qed.
End engine_laws.

Section protocol.
Import Concurrent.
Context {St : Type} {E : Engine St} (key : string) (s0 : St).

Hypothesis read_counter :
  forall s k, value key s = counter k ->
              exists l, read key s = Some l /\ written l = Py.str (Z.of_nat (S k)).
Hypothesis value_write :
  forall l s, value key (write key l s) = Some (written l).
Hypothesis unscheduled_write :
  forall l s, unscheduled key s -> unscheduled key (write key l s).
Hypothesis incr_read_write :
  forall s l, read key s = Some l -> incr key s = write key l s.
Hypothesis sweep_keeps :
  forall now s, unscheduled key s ->
                value key (sweep now s) = value key s /\
                unscheduled key (sweep now s).

Lemma sum_list_with_insert (f : pc -> nat) ts t p q :
  ts !! t = Some p ->
  (sum_list_with f (<[t := q]> ts) + f p = sum_list_with f ts + f q)%nat.
Proof.
  revert t. induction ts as [|p0 ts IH]; intros [|t] Hp; simplify_eq/=; [lia|].
  specialize (IH t Hp). lia.
Qed.

Lemma sum_list_with_pos (f : pc -> nat) ts :
  (0 < sum_list_with f ts)%nat -> exists t p, ts !! t = Some p /\ (0 < f p)%nat.
Proof.
  induction ts as [|p0 ts IH]; simpl; [lia|]. intros Hpos.
  destruct (f p0) as [|k] eqn:Hp0.
  - destruct IH as (t & p & Ht & Hp); [lia|]. now exists (S t), p.
  - exists 0%nat, p0. split; [done | lia].
Qed.

Lemma sum_list_with_zero (f : pc -> nat) ts t p :
  sum_list_with f ts = 0%nat -> ts !! t = Some p -> f p = 0%nat.
Proof.
  intros Hsum Hp. apply list_elem_of_lookup_2 in Hp.
  pose proof (sum_list_with_in p f ts Hp). lia.
Qed.

Lemma sum_list_with_initial (f : pc -> nat) M B :
  sum_list_with f (replicate M Waiting ++ replicate B Idle)
  = (M * f Waiting + B * f Idle)%nat.
Proof.
  rewrite sum_list_with_app.
  assert (forall k p, sum_list_with f (replicate k p) = (k * f p)%nat) as Hrep
    by (intros k p; induction k; simpl; lia).
  now rewrite !Hrep.
Qed.

Lemma run_snoc ops o :
  run key (ops ++ [o])%list s0 = apply_op key (run key ops s0) o.
Proof. unfold run. now rewrite foldl_app. Qed.

Lemma calls_snoc ops o :
  calls (ops ++ [o])%list
  = (calls ops + match o with OIncr => 1 | OSweep _ => 0 end)%nat.
Proof. unfold calls. rewrite sum_list_with_app. simpl. lia. Qed.

Lemma initial_invariant M B :
  value key s0 = None -> unscheduled key s0 ->
  invariant key s0 M 0 (initial s0 M B).
Proof.
  intros Hvalue Hquiet.
  split; cbn [initial store lock threads].
  - rewrite sum_list_with_initial. simpl. lia.
  - rewrite sum_list_with_initial. simpl. lia.
  - rewrite sum_list_with_initial. simpl.
    now replace (M * 0 + B * 0)%nat with 0%nat by lia.
  - done.
  - exists []. split; [done|]. rewrite sum_list_with_initial. simpl. lia.
  - exists None. split; [done|]. split; [done|].
    intros t p Hp. cbn [threads] in Hp.
    apply lookup_app_Some in Hp as [[-> _]%lookup_replicate
                                   |[_ [-> _]%lookup_replicate]];
      simpl; (split; [done | discriminate]).
  - intros t l Hp.
    apply lookup_app_Some in Hp as [[? _]%lookup_replicate
                                   |[_ [? _]%lookup_replicate]]; done.
  - intros t p Hp.
    apply lookup_app_Some in Hp as [[-> _]%lookup_replicate
                                   |[_ [-> _]%lookup_replicate]]; done.
Qed.

Lemma holder_is ts t p (s : St) b h :
  ts !! t = Some p -> in_block p -> holder_ok (Config s b ts) h -> h = Some t.
Proof. intros Hp Hin (_ & _ & Hblk). now apply (Hblk t p). Qed.

Lemma holder_enter ts t p q (s : St) h :
  ts !! t = Some p -> ~ in_block p -> in_block q ->
  holder_ok (Config s false ts) h ->
  holder_ok (Config s true (<[t := q]> ts)) (Some t).
Proof.
  intros Hp Hout Hq (Hlock & _ & Hblk). simpl in *.
  assert (h = None) as -> by (destruct h; [discriminate Hlock | done]).
  split; [done|]. split.
  - simpl. rewrite list_lookup_insert_eq; [eauto|]. eapply lookup_lt_Some, Hp.
  - intros t' p' [(-> & <- & _)|(Hne & Hp')]%list_lookup_insert_Some;
      simpl; [done|].
    apply Hblk in Hp'. split; [intros ?%Hp'; done | congruence].
Qed.

Lemma holder_move ts t p q (s s' : St) b h :
  ts !! t = Some p -> in_block p -> in_block q ->
  holder_ok (Config s b ts) h ->
  holder_ok (Config s' b (<[t := q]> ts)) h.
Proof.
  intros Hp Hin Hq Hh. pose proof (holder_is _ _ _ _ _ _ Hp Hin Hh) as ->.
  destruct Hh as (Hlock & _ & Hblk). simpl in *.
  split; [done|]. split.
  - simpl. rewrite list_lookup_insert_eq; [eauto|]. eapply lookup_lt_Some, Hp.
  - intros t' p' [(-> & <- & _)|(Hne & Hp')]%list_lookup_insert_Some;
      simpl; [done|]. now apply Hblk.
Qed.

Lemma holder_leave ts t p q (s : St) b h :
  ts !! t = Some p -> in_block p -> ~ in_block q ->
  holder_ok (Config s b ts) h ->
  holder_ok (Config s false (<[t := q]> ts)) None.
Proof.
  intros Hp Hin Hq Hh. pose proof (holder_is _ _ _ _ _ _ Hp Hin Hh) as ->.
  destruct Hh as (_ & _ & Hblk). simpl in *.
  split; [done|]. split; [done|].
  intros t' p' [(-> & <- & _)|(Hne & Hp')]%list_lookup_insert_Some; simpl.
  - split; [done | discriminate].
  - apply Hblk in Hp'. split; [intros ?%Hp'; congruence | discriminate].
Qed.

(** The three sums after a caller or a task has moved from [p] to [q]. *)
Lemma sums_insert ts t p q :
  ts !! t = Some p ->
  (sum_list_with is_caller (<[t := q]> ts) + is_caller p
   = sum_list_with is_caller ts + is_caller q)%nat /\
  (sum_list_with weight (<[t := q]> ts) + weight p
   = sum_list_with weight ts + weight q)%nat /\
  (sum_list_with has_written (<[t := q]> ts) + has_written p
   = sum_list_with has_written ts + has_written q)%nat.
Proof. intros Hp. repeat split; now apply sum_list_with_insert. Qed.

(** A step of a caller keeps the invariant and uses up one statement. *)
Lemma caller_step_invariant M n c c' :
  invariant key s0 M n c -> step key c Caller c' ->
  invariant key s0 M (S n) c'.
Proof.
  intros [Hcal Hw Hst Hq [ops [Hops Hcalls]] [h Hh] Hrd Hnf] Hstep.
  inversion Hstep as [s ts t Hp|s b ts t l Hp Hread|s b ts t Hp Hread
                     |s b ts t l Hp|s b ts t Hp|s b ts t Hp| | | |];
    subst; cbn [store lock threads] in *.
  - (* acquire *)
    destruct (sums_insert ts t _ Locked Hp) as (Hc' & Hw' & Hs').
    simpl in Hc', Hw', Hs'. split; cbn [store lock threads].
    + lia.
    + lia.
    + rewrite Hst. f_equal. lia.
    + done.
    + exists ops. split; [done | lia].
    + exists (Some t). eapply holder_enter; eauto; simpl; tauto.
    + intros t' l' [(_ & [=] & _)|(_ & Hp')]%list_lookup_insert_Some. eauto.
    + intros t' p' [(_ & <- & _)|(_ & Hp')]%list_lookup_insert_Some; eauto.
  - (* read *)
    destruct (sums_insert ts t _ (Read l) Hp) as (Hc' & Hw' & Hs').
    simpl in Hc', Hw', Hs'. split; cbn [store lock threads].
    + lia.
    + lia.
    + rewrite Hst. f_equal. lia.
    + done.
    + exists ops. split; [done | lia].
    + exists h. eapply holder_move; eauto; done.
    + intros t' l' [(_ & [= <-] & _)|(_ & Hp')]%list_lookup_insert_Some; eauto.
    + intros t' p' [(_ & <- & _)|(_ & Hp')]%list_lookup_insert_Some; eauto.
  - (* the read cannot raise *)
    destruct (read_counter s _ Hst) as (l & Hl & _). congruence.
  - (* write *)
    destruct (sums_insert ts t _ Written Hp) as (Hc' & Hw' & Hs').
    simpl in Hc', Hw', Hs'.
    pose proof (Hrd t l Hp) as Hread.
    destruct (read_counter s _ Hst) as (l' & Hl' & Hwritten).
    assert (l' = l) as -> by congruence.
    split; cbn [store lock threads].
    + lia.
    + lia.
    + rewrite value_write, Hwritten.
      replace (sum_list_with has_written (<[t:=Written]> ts))
        with (S (sum_list_with has_written ts)) by lia.
      reflexivity.
    + now apply unscheduled_write.
    + exists (ops ++ [OIncr])%list. split.
      * rewrite run_snoc, <- Hops. cbn [apply_op]. symmetry.
        now apply incr_read_write.
      * rewrite calls_snoc. lia.
    + exists h. eapply holder_move; eauto; done.
    + intros t' l' [(_ & [=] & _)|(Hne & Hp')]%list_lookup_insert_Some.
      pose proof (holder_is _ _ _ _ _ _ Hp I Hh) as Ht.
      pose proof (holder_is _ _ _ _ _ _ Hp' I Hh) as Ht'. congruence.
    + intros t' p' [(_ & <- & _)|(_ & Hp')]%list_lookup_insert_Some; eauto.
  - (* release *)
    destruct (sums_insert ts t _ (Done true) Hp) as (Hc' & Hw' & Hs').
    simpl in Hc', Hw', Hs'. split; cbn [store lock threads].
    + lia.
    + lia.
    + rewrite Hst. f_equal. lia.
    + done.
    + exists ops. split; [done | lia].
    + exists None. eapply holder_leave; eauto; simpl; tauto.
    + intros t' l' [(_ & [=] & _)|(_ & Hp')]%list_lookup_insert_Some. eauto.
    + intros t' p' [(_ & <- & _)|(_ & Hp')]%list_lookup_insert_Some; eauto.
  - (* no caller has failed *)
    now destruct (Hnf t Failed Hp).
Qed.

(** A step of a background task keeps the invariant. *)
Lemma background_step_invariant M n c c' :
  invariant key s0 M n c -> step key c Background c' ->
  invariant key s0 M n c'.
Proof.
  intros [Hcal Hw Hst Hq [ops [Hops Hcalls]] [h Hh] Hrd Hnf] Hstep.
  inversion Hstep as [| | | | | |s ts t Hp|s b ts t now Hp|s b ts t Hp
                     |s b ts t Hp];
    subst; cbn [store lock threads] in *.
  - (* the task takes the lock *)
    destruct (sums_insert ts t _ Sweeping Hp) as (Hc' & Hw' & Hs').
    simpl in Hc', Hw', Hs'. split; cbn [store lock threads].
    + lia.
    + lia.
    + rewrite Hst. f_equal. lia.
    + done.
    + exists ops. split; [done | lia].
    + exists (Some t). eapply holder_enter; eauto; simpl; tauto.
    + intros t' l' [(_ & [=] & _)|(_ & Hp')]%list_lookup_insert_Some. eauto.
    + intros t' p' [(_ & <- & _)|(_ & Hp')]%list_lookup_insert_Some; eauto.
  - (* the sweep *)
    destruct (sums_insert ts t _ Swept Hp) as (Hc' & Hw' & Hs').
    simpl in Hc', Hw', Hs'.
    destruct (sweep_keeps now s Hq) as [Hv' Hq'].
    split; cbn [store lock threads].
    + lia.
    + lia.
    + rewrite Hv', Hst. f_equal. lia.
    + done.
    + exists (ops ++ [OSweep now])%list. split.
      * rewrite run_snoc, <- Hops. done.
      * rewrite calls_snoc. lia.
    + exists h. eapply holder_move; eauto; done.
    + intros t' l' [(_ & [=] & _)|(Hne & Hp')]%list_lookup_insert_Some.
      pose proof (holder_is _ _ _ _ _ _ Hp I Hh) as Ht.
      pose proof (holder_is _ _ _ _ _ _ Hp' I Hh) as Ht'. congruence.
    + intros t' p' [(_ & <- & _)|(_ & Hp')]%list_lookup_insert_Some; eauto.
  - (* the dump *)
    destruct (sums_insert ts t _ Swept Hp) as (Hc' & Hw' & Hs').
    simpl in Hc', Hw', Hs'. split; cbn [store lock threads].
    + lia.
    + lia.
    + rewrite Hst. f_equal. lia.
    + done.
    + exists ops. split; [done | lia].
    + exists h. eapply holder_move; eauto; done.
    + intros t' l' [(_ & [=] & _)|(_ & Hp')]%list_lookup_insert_Some. eauto.
    + intros t' p' [(_ & <- & _)|(_ & Hp')]%list_lookup_insert_Some; eauto.
  - (* the task gives the lock back *)
    destruct (sums_insert ts t _ Idle Hp) as (Hc' & Hw' & Hs').
    simpl in Hc', Hw', Hs'. split; cbn [store lock threads].
    + lia.
    + lia.
    + rewrite Hst. f_equal. lia.
    + done.
    + exists ops. split; [done | lia].
    + exists None. eapply holder_leave; eauto; simpl; tauto.
    + intros t' l' [(_ & [=] & _)|(_ & Hp')]%list_lookup_insert_Some. eauto.
    + intros t' p' [(_ & <- & _)|(_ & Hp')]%list_lookup_insert_Some; eauto.
Qed.

Lemma exec_invariant M B n m c :
  value key s0 = None -> unscheduled key s0 ->
  exec key n m (initial s0 M B) c -> invariant key s0 M n c.
Proof.
  intros Hvalue Hquiet Hexec. remember (initial s0 M B) as c0 eqn:Hc0.
  induction Hexec as [c|n m c c1 c2 _ IH Hstep|n m c c1 c2 _ IH Hstep]; subst.
  - now apply initial_invariant.
  - eapply caller_step_invariant; eauto.
  - eapply background_step_invariant; eauto.
Qed.

(** While a statement of a caller is left, a caller can run one, unless a
    background task is inside its block, and then that task can move. *)
Lemma invariant_progress M n c :
  invariant key s0 M n c -> (n < 4 * M)%nat ->
  (exists c', step key c Caller c') \/
  (exists t c', (threads c !! t = Some Sweeping \/ threads c !! t = Some Swept) /\
                step key c Background c').
Proof.
  intros [Hcal Hw Hst Hq _ [h Hh] Hrd Hnf] Hn. destruct c as [s b ts].
  cbn [store lock threads] in *.
  destruct h as [t|].
  - destruct Hh as (_ & [p Hp] & Hblk). cbn [threads] in *.
    assert (in_block p) as Hin by now apply (Hblk t p).
    destruct p as [| |l| | |ok| | |]; try done.
    + destruct (read_counter s _ Hst) as (l & Hl & _).
      left. eexists. eapply step_read; eauto.
    + left. eexists. eapply step_write; eauto.
    + now destruct (Hnf t Failed Hp).
    + left. eexists. eapply step_release; eauto.
    + right. exists t. eexists. split; [now left|]. eapply step_dump; eauto.
    + right. exists t. eexists. split; [now right|]. eapply step_sleep; eauto.
  - destruct Hh as (Hlock & _ & Hblk). cbn [lock threads] in *. subst b.
    destruct (sum_list_with_pos weight ts) as (t & p & Hp & Hpos); [lia|].
    assert (~ in_block p) as Hout by (intros ?%(Hblk t p Hp); done).
    destruct p as [| |l| | |ok| | |]; simpl in *; try tauto; try lia.
    left. eexists. eapply step_acquire; eauto.
Qed.

Lemma invariant_finished M n c :
  invariant key s0 M n c ->
  (n = 4 * M <-> finished c)%nat /\
  (finished c -> value key (store c) = counter M).
Proof.
  intros [Hcal Hw Hst _ _ _ _ Hnf]. unfold finished.
  assert (n = (4 * M)%nat ->
          Forall (fun p => p = Done true \/ background p) (threads c)) as Hall.
  { intros ->. apply Forall_lookup_2. intros t p Hp.
    assert (weight p = 0%nat) as Hz
      by (eapply sum_list_with_zero; [|exact Hp]; lia).
    destruct (Hnf t p Hp) as [_ Hok].
    destruct p as [| |l| | |[]| | |]; simpl in Hz; try lia;
      simpl; tauto. }
  assert (Forall (fun p => p = Done true \/ background p) (threads c) ->
          sum_list_with weight (threads c) = 0%nat /\
          sum_list_with has_written (threads c)
          = sum_list_with is_caller (threads c)) as Hsum.
  { clear. induction 1 as [|p ts [->|Hp] _ [IH1 IH2]]; simpl; [done| |].
    - split; lia.
    - destruct p; simpl in Hp; try done; simpl; split; lia. }
  split; [split; [done|]|].
  - intros [Hz _]%Hsum. lia.
  - intros [_ Hk]%Hsum. now rewrite Hst, Hk, Hcal.
Qed.
End protocol.

(** An execution of the asynchronous engine that shows why the key must
    have no expiry pending.  The key was set twice with a TTL and swept
    once, which leaves it absent with a record that still names it (see
    C2).  Two callers increment it, the background task sweeps at time 101,
    a third caller increments it: the counter reads 1. *)
Example stale_record_restarts_counter :
  let s0 := CacheEngine._remove_expired_keys 2
              (CacheEngine.set 0 "n" "x" (Some 100)
                 (CacheEngine.set 0 "n" "x" (Some 1) (CacheEngine.init 0))) in
  let ops := [Concurrent.OIncr; Concurrent.OIncr; Concurrent.OSweep 101;
              Concurrent.OIncr] in
  Concurrent.value (Engine := Concurrent.engine_async) "n" s0 = None /\
  ~ Concurrent.unscheduled (Engine := Concurrent.engine_async) "n" s0 /\
  Concurrent.value (Engine := Concurrent.engine_async) "n"
    (Concurrent.run (E := Concurrent.engine_async) "n" ops s0) = Some "1".
Proof.
  vm_compute. repeat split; try reflexivity.
  intros H. apply Forall_inv in H. now apply H.
Qed.

(** C8.  [M] callers of [incr] start together on a fresh key: it is absent
    and has no expiry pending.  They run their statements in any
    interleaving that the lock allows, among themselves and with any number
    of background tasks that sweep at any time.  The callers take at most
    [4 * M] steps; as long as they have taken fewer, a caller can take a
    step, or a background task holds the lock and can take its next step,
    so no execution is stuck; they have taken [4 * M] steps exactly when
    every caller has returned; at every point the store is the one that the
    engine's own [incr] and sweep leave when they are called one after the
    other, [incr] once for every caller that has written; and when every
    caller has returned the stored counter is the string of [M] (no entry
    when [M = 0]). *)
Theorem concurrent_incr_counts (i : Concurrent.impl) (key : string)
    (s0 : Concurrent.store_of i) (M B n m : nat)
    (c : Concurrent.config (Concurrent.store_of i))
    (Habsent : Concurrent.value (Engine := Concurrent.engine_of i) key s0 = None)
    (Hfresh : Concurrent.unscheduled (Engine := Concurrent.engine_of i) key s0)
    (Hexec : Concurrent.exec (E := Concurrent.engine_of i) key n m
               (Concurrent.initial s0 M B) c) :
  (n <= 4 * M)%nat /\
  ((n < 4 * M)%nat ->
   (exists c', Concurrent.step (E := Concurrent.engine_of i) key c
                 Concurrent.Caller c') \/
   (exists t c',
      (Concurrent.threads c !! t = Some Concurrent.Sweeping \/
       Concurrent.threads c !! t = Some Concurrent.Swept) /\
      Concurrent.step (E := Concurrent.engine_of i) key c
        Concurrent.Background c')) /\
  (n = (4 * M)%nat <-> Concurrent.finished c) /\
  (exists ops,
     Concurrent.store c = Concurrent.run (E := Concurrent.engine_of i) key ops s0 /\
     Concurrent.calls ops
     = sum_list_with Concurrent.has_written (Concurrent.threads c)) /\
  (Concurrent.finished c ->
   Concurrent.value (Engine := Concurrent.engine_of i) key (Concurrent.store c)
   = Concurrent.counter M).
Proof.
  assert (Concurrent.invariant (E := Concurrent.engine_of i) key s0 M n c) as Hinv.
  { destruct i.
    - exact (exec_invariant (E := Concurrent.engine_async) key s0
               (async_read_counter key) (async_value_write key)
               (fun l s H => H) (async_incr_read_write key)
               (async_sweep_keeps key) M B n m c Habsent Hfresh Hexec).
    - exact (exec_invariant (E := Concurrent.engine_threaded) key s0
               (lite_read_counter key) (lite_value_write key)
               (fun l s H => H) (lite_incr_read_write key)
               (lite_sweep_keeps key) M B n m c Habsent Hfresh Hexec). }
  assert (forall s k,
            Concurrent.value (Engine := Concurrent.engine_of i) key s
            = Concurrent.counter k ->
            exists l,
              Concurrent.read (Engine := Concurrent.engine_of i) key s = Some l /\
              Concurrent.written l = Py.str (Z.of_nat (S k))) as Hread
    by (destruct i; [apply async_read_counter | apply lite_read_counter]).
  split; [destruct Hinv; lia|].
  split; [exact (invariant_progress key s0 Hread M n c Hinv)|].
  split; [exact (proj1 (invariant_finished key s0 M n c Hinv))|].
  split; [destruct Hinv; done|].
  exact (proj2 (invariant_finished key s0 M n c Hinv)).
Qed.

(** Runs a schedule, given last step first. *)
Ltac schedule l :=
  lazymatch l with
  | nil => apply Concurrent.exec_O
  | cons Concurrent.Caller ?l' => eapply Concurrent.exec_caller; [schedule l'|]
  | cons Concurrent.Background ?l' =>
      eapply Concurrent.exec_background; [schedule l'|]
  end.

Lemma concurrent_incr_counts_witness :
  let s0 := CacheEngine.set 0 "other" "x" (Some 5) (CacheEngine.init 0) in
  exists c,
    Concurrent.exec (E := Concurrent.engine_async) "counter" 8 3
      (Concurrent.initial s0 2 1) c /\
    CacheEngine._data (Concurrent.store c) !! "counter" = Some "2".
Proof.
  intros s0.
  assert (exists c, Concurrent.exec (E := Concurrent.engine_async) "counter" 8 3
                      (Concurrent.initial s0 2 1) c) as [c Hexec].
  { eexists.
    schedule [Concurrent.Caller; Concurrent.Caller; Concurrent.Caller;
              Concurrent.Caller; Concurrent.Background; Concurrent.Background;
              Concurrent.Background; Concurrent.Caller; Concurrent.Caller;
              Concurrent.Caller; Concurrent.Caller].
    - eapply (Concurrent.step_acquire _ _ _ 0%nat); reflexivity.
    - eapply (Concurrent.step_read _ _ _ _ 0%nat); reflexivity.
    - eapply (Concurrent.step_write _ _ _ _ 0%nat); reflexivity.
    - eapply (Concurrent.step_release _ _ _ _ 0%nat); reflexivity.
    - eapply (Concurrent.step_wake _ _ _ 2%nat); reflexivity.
    - eapply (Concurrent.step_sweep _ _ _ _ 2%nat 10%Q); reflexivity.
    - eapply (Concurrent.step_sleep _ _ _ _ 2%nat); reflexivity.
    - eapply (Concurrent.step_acquire _ _ _ 1%nat); reflexivity.
    - eapply (Concurrent.step_read _ _ _ _ 1%nat); reflexivity.
    - eapply (Concurrent.step_write _ _ _ _ 1%nat); reflexivity.
    - eapply (Concurrent.step_release _ _ _ _ 1%nat); reflexivity. }
  exists c. split; [exact Hexec|].
  destruct (concurrent_incr_counts Concurrent.Async "counter" s0 2 1 8 3 c)
    as (_ & _ & Hdone & _ & Hstore).
  - reflexivity.
  - repeat constructor. discriminate.
  - exact Hexec.
  - apply Hstore, Hdone. reflexivity.
Defined.

(** * Further facts

    The heap of the asynchronous engine, expiry as a caller sees it, the
    counters, the figures of [info], snapshots, the background task, the
    text protocol of both servers and the client. *)

(** ** [heapq]: no item is lost or duplicated *)

Section heapq_permutation.
Context {A : Type} (lt : A -> A -> bool).
Implicit Types (heap : list A).

Lemma insert_cons_perm heap j (x y : A) :
  heap !! j = Some y -> y :: <[j := x]> heap ≡ₚ x :: heap.
Proof.
  revert j. induction heap as [|a heap IH]; intros [|j] Hj; simplify_eq/=.
  - apply perm_swap.
  - rewrite perm_swap, (IH j Hj). apply perm_swap.
Qed.

(** Moving the item at [j] into the hole at [i]: the hole is now at [j]. *)
Lemma insert_hole_perm heap i j (x y : A) :
  heap !! j = Some y -> i <> j -> (i < length heap)%nat ->
  <[j := x]> (<[i := y]> heap) ≡ₚ <[i := x]> heap.
Proof.
  revert i j. induction heap as [|a heap IH]; intros [|i] [|j] Hj Hne Hi;
    simplify_eq/=; try lia.
  - now apply insert_cons_perm.
  - rewrite <- (list_insert_insert_eq heap i y x).
    apply insert_cons_perm, list_lookup_insert_eq. lia.
  - f_equiv. apply IH; [done | congruence | lia].
Qed.

Lemma parent_lt pos : (0 < pos)%nat -> (HeapOrder.parent pos < pos)%nat.
Proof.
  intros Hpos. unfold HeapOrder.parent.
  apply Nat.Div0.div_lt_upper_bound. lia.
Qed.

Lemma _siftdown_loop_perm fuel x startpos pos heap :
  (pos < length heap)%nat ->
  heapq._siftdown_loop lt fuel x startpos pos heap ≡ₚ <[pos := x]> heap.
Proof.
  revert pos heap. induction fuel as [|fuel IH]; intros pos heap Hpos; [done|].
  cbn [heapq._siftdown_loop].
  destruct (startpos <? pos)%nat eqn:Hlt; [|done].
  apply Nat.ltb_lt in Hlt.
  assert (HeapOrder.parent pos < pos)%nat as Hpar by (apply parent_lt; lia).
  fold (HeapOrder.parent pos).
  destruct (heap !! HeapOrder.parent pos) as [parent|] eqn:Hparent; [|done].
  destruct (lt x parent); [|done].
  rewrite IH by (rewrite length_insert; lia).
  apply insert_hole_perm; [done | lia | done].
Qed.

Lemma _siftdown_perm startpos pos heap :
  heapq._siftdown lt startpos pos heap ≡ₚ heap.
Proof.
  unfold heapq._siftdown. destruct (heap !! pos) as [x|] eqn:Hx; [|done].
  rewrite _siftdown_loop_perm by (eapply lookup_lt_Some, Hx).
  now rewrite list_insert_id.
Qed.

(** The loop of [_siftup] leaves a hole at the returned position. *)
Lemma _siftup_loop_perm fuel pos heap x :
  (pos < length heap)%nat ->
  let r := heapq._siftup_loop lt fuel pos heap in
  (r.2 < length heap)%nat /\ <[r.2 := x]> r.1 ≡ₚ <[pos := x]> heap.
Proof.
  revert pos heap. induction fuel as [|fuel IH]; intros pos heap Hpos; [done|].
  cbn [heapq._siftup_loop].
  destruct (2 * pos + 1 <? length heap)%nat eqn:Hc; [|done].
  apply Nat.ltb_lt in Hc.
  set (childpos := match heap !! (2 * pos + 1)%nat, heap !! (2 * pos + 1 + 1)%nat with
                   | Some c, Some r =>
                       if negb (lt c r) then (2 * pos + 1 + 1)%nat
                       else (2 * pos + 1)%nat
                   | _, _ => (2 * pos + 1)%nat
                   end).
  assert (pos < childpos)%nat as Hgt
    by (subst childpos; repeat case_match; lia).
  destruct (heap !! childpos) as [c|] eqn:Hchild; [|done].
  assert (childpos < length heap)%nat as Hclt by (eapply lookup_lt_Some, Hchild).
  destruct (IH childpos (<[pos := c]> heap)) as [Hr Hperm];
    [rewrite length_insert; lia|].
  rewrite length_insert in Hr. cbn zeta. split; [done|].
  rewrite Hperm. apply insert_hole_perm; [done | lia | done].
Qed.

Lemma _siftup_perm pos heap : heapq._siftup lt pos heap ≡ₚ heap.
Proof.
  unfold heapq._siftup. destruct (heap !! pos) as [x|] eqn:Hx; [|done].
  pose proof (_siftup_loop_perm (length heap) pos heap x
                (lookup_lt_Some _ _ _ Hx)) as [_ Hperm].
  destruct (heapq._siftup_loop lt (length heap) pos heap) as [heap1 pos1].
  simpl in Hperm. rewrite _siftdown_perm, Hperm. now rewrite list_insert_id.
Qed.

Lemma heappush_perm heap x : heapq.heappush lt heap x ≡ₚ x :: heap.
Proof.
  unfold heapq.heappush. rewrite _siftdown_perm.
  symmetry. apply Permutation_cons_append.
Qed.

Lemma heappop_perm heap x heap' :
  heapq.heappop lt heap = Some (x, heap') -> x :: heap' ≡ₚ heap.
Proof.
  unfold heapq.heappop. destruct (last heap) as [lastelt|] eqn:Hlast; [|done].
  apply last_Some in Hlast as [heap1 ->]. rewrite removelast_last.
  destruct heap1 as [|returnitem heap1]; intros [= <- <-]; [done|].
  rewrite _siftup_perm. simpl.
  rewrite perm_swap.
  apply (Permutation_cons_append (returnitem :: heap1) lastelt).
Qed.

(** [heappop] returns the item at the root. *)
Lemma heappop_root heap x heap' :
  heapq.heappop lt heap = Some (x, heap') -> heap !! 0%nat = Some x.
Proof.
  unfold heapq.heappop. destruct (last heap) as [lastelt|] eqn:Hlast; [|done].
  apply last_Some in Hlast as [heap1 ->]. rewrite removelast_last.
  now destruct heap1 as [|returnitem heap1]; intros [= <- <-].
Qed.

Lemma heapify_perm heap : heapq.heapify lt heap ≡ₚ heap.
Proof.
  unfold heapq.heapify. generalize (rev (seq 0 (length heap / 2))).
  intros l. revert heap. induction l as [|i l IH]; intros heap; simpl; [done|].
  now rewrite IH, _siftup_perm.
Qed.
End heapq_permutation.

(** ** [heapq]: the operations keep the order of the heap *)

Section heapq_order.
Context {A : Type} (lt : A -> A -> bool).
Context (Hlt : HeapOrder.strict_weak_order lt).
Implicit Types (heap : list A).

Local Notation "x ≼ y" := (lt y x = false) (at level 70).

Lemma le_refl x : x ≼ x.
Proof.
  destruct (lt x x) eqn:Hx; [|done].
  now rewrite (HeapOrder.lt_asym lt Hlt x x Hx) in Hx.
Qed.

Lemma le_trans x y z : x ≼ y -> y ≼ z -> x ≼ z.
Proof. intros Hxy Hyz. exact (HeapOrder.lt_negtrans lt Hlt x y z Hxy Hyz). Qed.

Lemma lt_le x y : lt x y = true -> x ≼ y.
Proof. apply (HeapOrder.lt_asym lt Hlt). Qed.

Lemma parent_left p : HeapOrder.parent (2 * p + 1) = p.
Proof.
  unfold HeapOrder.parent. replace (2 * p + 1 - 1)%nat with (p * 2)%nat by lia.
  now apply Nat.div_mul.
Qed.

Lemma parent_right p : HeapOrder.parent (2 * p + 2) = p.
Proof.
  unfold HeapOrder.parent.
  replace (2 * p + 2 - 1)%nat with (1 + p * 2)%nat by lia.
  rewrite Nat.div_add by lia. reflexivity.
Qed.

Lemma child_of_parent i :
  (0 < i)%nat ->
  i = (2 * HeapOrder.parent i + 1)%nat \/ i = (2 * HeapOrder.parent i + 2)%nat.
Proof.
  intros Hi. unfold HeapOrder.parent.
  pose proof (Nat.div_mod_eq (i - 1) 2) as Hdiv.
  pose proof (Nat.mod_upper_bound (i - 1) 2). lia.
Qed.

Lemma descendant_ge a p : HeapOrder.descendant a p -> (a <= p)%nat.
Proof. induction 1; lia. Qed.

Lemma descendant_parent a p :
  HeapOrder.descendant a p -> p <> a ->
  HeapOrder.descendant a (HeapOrder.parent p).
Proof.
  intros [|q Hq|q Hq] Hne; [done|..].
  - now rewrite parent_left.
  - now rewrite parent_right.
Qed.

Lemma descendant_root p : HeapOrder.descendant 0 p.
Proof.
  induction p as [p IH] using lt_wf_ind.
  destruct (decide (p = 0%nat)) as [->|Hp]; [constructor|].
  assert (HeapOrder.parent p < p)%nat as Hlt' by (apply parent_lt; lia).
  destruct (child_of_parent p) as [Heq|Heq]; [lia|..]; rewrite Heq.
  - now apply HeapOrder.descendant_left, IH.
  - now apply HeapOrder.descendant_right, IH.
Qed.

(** Writing [x] into a position keeps the order when [x] fits between the
    parent and the children of the position. *)
Lemma heap_from_insert k pos x heap :
  HeapOrder.heap_from lt k heap ->
  (forall c y, (0 < c)%nat -> HeapOrder.parent c = pos -> heap !! c = Some y ->
               x ≼ y) ->
  ((0 < pos)%nat -> (k <= HeapOrder.parent pos)%nat ->
   forall y, heap !! HeapOrder.parent pos = Some y -> y ≼ x) ->
  HeapOrder.heap_from lt k (<[pos := x]> heap).
Proof.
  intros Hheap Hchildren Hparent i a b Hi Hk Ha Hb.
  assert (HeapOrder.parent i < i)%nat as Hpi by now apply parent_lt.
  apply list_lookup_insert_Some in Ha as [(-> & -> & _)|(Hne & Ha)].
  - rewrite list_lookup_insert_ne in Hb by lia. now apply (Hparent Hi Hk).
  - apply list_lookup_insert_Some in Hb as [(Heq & -> & _)|(_ & Hb)].
    + now apply (Hchildren i).
    + now apply (Hheap i).
Qed.

(** The loop of [_siftdown] never reads the position it is to fill. *)
Lemma _siftdown_loop_hole fuel x startpos pos g heap :
  heapq._siftdown_loop lt fuel x startpos pos (<[pos := g]> heap)
  = heapq._siftdown_loop lt fuel x startpos pos heap.
Proof.
  destruct fuel as [|fuel]; cbn [heapq._siftdown_loop];
    [apply list_insert_insert_eq|].
  destruct (startpos <? pos)%nat eqn:Hsp; [|apply list_insert_insert_eq].
  apply Nat.ltb_lt in Hsp.
  assert (HeapOrder.parent pos < pos)%nat as Hpar by (apply parent_lt; lia).
  fold (HeapOrder.parent pos).
  rewrite list_lookup_insert_ne by lia.
  destruct (heap !! HeapOrder.parent pos) as [v|];
    now rewrite !list_insert_insert_eq.
Qed.

Lemma _siftdown_loop_order fuel x startpos pos heap :
  (pos <= fuel)%nat -> (pos < length heap)%nat ->
  HeapOrder.descendant startpos pos ->
  HeapOrder.heap_from lt startpos heap ->
  (forall c y, (0 < c)%nat -> HeapOrder.parent c = pos -> heap !! c = Some y ->
               x ≼ y) ->
  HeapOrder.heap_from lt startpos
    (heapq._siftdown_loop lt fuel x startpos pos heap).
Proof.
  revert pos heap.
  induction fuel as [|fuel IH]; intros pos heap Hfuel Hpos Hdesc Hheap Hch;
    cbn [heapq._siftdown_loop].
  - apply heap_from_insert; [done..|lia].
  - pose proof (descendant_ge _ _ Hdesc) as Hge.
    destruct (startpos <? pos)%nat eqn:Hsp.
    2:{ apply Nat.ltb_ge in Hsp. apply heap_from_insert; [done..|].
        intros Hp Hk. pose proof (parent_lt pos Hp). lia. }
    apply Nat.ltb_lt in Hsp.
    assert (HeapOrder.parent pos < pos)%nat as Hpar by (apply parent_lt; lia).
    assert (HeapOrder.descendant startpos (HeapOrder.parent pos)) as Hdesc'
      by (apply descendant_parent; [done | lia]).
    pose proof (descendant_ge _ _ Hdesc') as Hge'.
    fold (HeapOrder.parent pos).
    destruct (heap !! HeapOrder.parent pos) as [v|] eqn:Hv.
    2:{ apply lookup_ge_None in Hv. lia. }
    destruct (lt x v) eqn:Hxv.
    2:{ apply heap_from_insert; [done..|]. intros _ _ y Hy. congruence. }
    destruct (lookup_lt_is_Some_2 heap pos Hpos) as [old Hold].
    assert (v ≼ old) as Hvold by (apply (Hheap pos); [lia|done..]).
    apply IH.
    + lia.
    + rewrite length_insert. lia.
    + done.
    + apply heap_from_insert; [done| |].
      * intros c y Hc Hpc Hy. apply (le_trans _ old); [done|].
        apply (Hheap c); [done | lia | done | now rewrite Hpc].
      * intros _ _ y Hy. replace y with v by congruence. apply le_refl.
    + intros c y Hc Hpc Hy.
      apply list_lookup_insert_Some in Hy as [(-> & -> & _)|(Hne & Hy)].
      * now apply lt_le.
      * apply (le_trans _ v); [now apply lt_le|].
        apply (Hheap c); [done | lia | done | now rewrite Hpc].
Qed.

(** The loop of [_siftup] walks the hole down to a leaf, along the smaller
    children. *)
Lemma _siftup_loop_order fuel startpos pos heap :
  (length heap <= fuel + pos)%nat -> (pos < length heap)%nat ->
  HeapOrder.descendant startpos pos ->
  (forall i a b, (0 < i)%nat -> (startpos <= HeapOrder.parent i)%nat ->
                 HeapOrder.parent i <> startpos \/ pos <> startpos ->
                 heap !! i = Some a -> heap !! HeapOrder.parent i = Some b ->
                 b ≼ a) ->
  let r := heapq._siftup_loop lt fuel pos heap in
  HeapOrder.descendant startpos r.2 /\
  (length heap <= 2 * r.2 + 1)%nat /\
  HeapOrder.heap_from lt startpos r.1.
Proof.
  revert pos heap.
  induction fuel as [|fuel IH]; intros pos heap Hfuel Hpos Hdesc HK;
    [simpl in *; lia|].
  pose proof (descendant_ge _ _ Hdesc) as Hge.
  cbn [heapq._siftup_loop].
  destruct (2 * pos + 1 <? length heap)%nat eqn:Hc.
  2:{ apply Nat.ltb_ge in Hc. cbn zeta. simpl. split; [done|]. split; [done|].
      intros i a b Hi Hk Ha Hb. apply (HK i); try done.
      destruct (decide (pos = startpos)) as [<-|]; [left | now right].
      intros Heq. destruct (child_of_parent i Hi) as [Hi'|Hi'];
        apply lookup_lt_Some in Ha; lia. }
  apply Nat.ltb_lt in Hc.
  destruct (lookup_lt_is_Some_2 heap (2 * pos + 1) Hc) as [l Hl].
  set (childpos := match heap !! (2 * pos + 1)%nat, heap !! (2 * pos + 1 + 1)%nat with
                   | Some c, Some r =>
                       if negb (lt c r) then (2 * pos + 1 + 1)%nat
                       else (2 * pos + 1)%nat
                   | _, _ => (2 * pos + 1)%nat
                   end).
  assert (exists cv, heap !! childpos = Some cv /\
            (childpos = (2 * pos + 1)%nat \/ childpos = (2 * pos + 2)%nat) /\
            forall c y, (0 < c)%nat -> HeapOrder.parent c = pos ->
                        heap !! c = Some y -> cv ≼ y)
    as (cv & Hcv & Hwhich & Hsmall).
  { subst childpos. rewrite Hl.
    destruct (heap !! (2 * pos + 1 + 1)%nat) as [r|] eqn:Hr.
    - destruct (lt l r) eqn:Hlr; simpl.
      + exists l. split; [done|]. split; [now left|].
        intros c y Hc' Hpc Hy.
        destruct (child_of_parent c Hc') as [Hcc|Hcc]; rewrite Hpc in Hcc; subst c.
        * replace y with l by congruence. apply le_refl.
        * replace (2 * pos + 2)%nat with (2 * pos + 1 + 1)%nat in Hy by lia.
          replace y with r by congruence. now apply lt_le.
      + exists r. split; [done|]. split; [right; lia|].
        intros c y Hc' Hpc Hy.
        destruct (child_of_parent c Hc') as [Hcc|Hcc]; rewrite Hpc in Hcc; subst c.
        * replace y with l by congruence. done.
        * replace (2 * pos + 2)%nat with (2 * pos + 1 + 1)%nat in Hy by lia.
          replace y with r by congruence. apply le_refl.
    - exists l. split; [done|]. split; [now left|].
      intros c y Hc' Hpc Hy.
      destruct (child_of_parent c Hc') as [Hcc|Hcc]; rewrite Hpc in Hcc; subst c.
      + replace y with l by congruence. apply le_refl.
      + replace (2 * pos + 2)%nat with (2 * pos + 1 + 1)%nat in Hy by lia.
        congruence. }
  clearbody childpos. rewrite Hcv.
  assert (childpos < length heap)%nat as Hclt by (eapply lookup_lt_Some, Hcv).
  assert (HeapOrder.parent childpos = pos) as Hpchild
    by (destruct Hwhich as [-> | ->]; [apply parent_left | apply parent_right]).
  rewrite <- (length_insert heap pos cv) at 1.
  apply IH.
  - rewrite length_insert. lia.
  - rewrite length_insert. lia.
  - destruct Hwhich as [-> | ->]; now constructor.
  - intros i a b Hi Hk _ Ha Hb.
    assert (HeapOrder.parent i < i)%nat as Hpi by now apply parent_lt.
    apply list_lookup_insert_Some in Ha as [(<- & -> & _)|(Hne & Ha)].
    + rewrite list_lookup_insert_ne in Hb by lia.
      destruct (lookup_lt_is_Some_2 heap pos Hpos) as [old Hold].
      apply (le_trans _ old).
      * apply (HK pos); try done. right. lia.
      * apply (HK childpos); rewrite ?Hpchild; try done; try lia.
    + apply list_lookup_insert_Some in Hb as [(Heq & -> & _)|(Hne' & Hb)].
      * now apply (Hsmall i).
      * apply (HK i); try done.
        destruct (decide (pos = startpos)) as [->|]; [left; congruence | now right].
Qed.

Lemma _siftup_order pos heap :
  (pos < length heap)%nat ->
  HeapOrder.heap_from lt (S pos) heap ->
  HeapOrder.heap_from lt pos (heapq._siftup lt pos heap).
Proof.
  intros Hpos Hheap. unfold heapq._siftup.
  destruct (lookup_lt_is_Some_2 heap pos Hpos) as [x Hx]. rewrite Hx.
  pose proof (_siftup_loop_order (length heap) pos pos heap) as Hloop.
  pose proof (_siftup_loop_length lt (length heap) pos heap) as Hlen.
  pose proof (_siftup_loop_perm lt (length heap) pos heap x Hpos) as [Hp1 _].
  destruct (heapq._siftup_loop lt (length heap) pos heap) as [heap1 pos1].
  simpl in *.
  destruct Hloop as (Hdesc & Hleaf & Hheap1); [lia | done | constructor | |].
  { intros i a b Hi Hk [Hne|Hne] Ha Hb; [|done].
    apply (Hheap i); [done | lia | done..]. }
  unfold heapq._siftdown.
  rewrite list_lookup_insert_eq by lia.
  rewrite length_insert, Hlen, _siftdown_loop_hole.
  apply _siftdown_loop_order; [lia | lia | done | done |].
  intros c y Hc Hpc Hy. apply lookup_lt_Some in Hy.
  destruct (child_of_parent c Hc); lia.
Qed.

Lemma heap_from_weaken k k' heap :
  (k <= k')%nat -> HeapOrder.heap_from lt k heap -> HeapOrder.heap_from lt k' heap.
Proof. intros Hk Hheap i a b Hi Hp. apply Hheap; [done | lia]. Qed.

Lemma heappush_order heap x :
  HeapOrder.is_heap lt heap -> HeapOrder.is_heap lt (heapq.heappush lt heap x).
Proof.
  intros Hheap. unfold heapq.heappush, heapq._siftdown.
  rewrite lookup_app_r by lia. rewrite Nat.sub_diag. cbn [lookup list_lookup].
  destruct (decide (length heap = 0%nat)) as [Hnil|Hne].
  { destruct heap; [|done]. simpl. intros i a b Hi _ Ha.
    destruct i; [lia | done]. }
  assert (HeapOrder.parent (length heap) < length heap)%nat as Hpar
    by (apply parent_lt; lia).
  destruct (lookup_lt_is_Some_2 heap _ Hpar) as [g Hg].
  replace (heap ++ [x])%list with (<[length heap := x]> (heap ++ [g])%list).
  2:{ rewrite insert_app_r_alt by lia. now rewrite Nat.sub_diag. }
  rewrite length_insert, _siftdown_loop_hole.
  apply _siftdown_loop_order.
  - rewrite length_app. simpl. lia.
  - rewrite length_app. simpl. lia.
  - apply descendant_root.
  - intros i a b Hi _ Ha Hb.
    assert (HeapOrder.parent i < i)%nat as Hpi by now apply parent_lt.
    pose proof (lookup_lt_Some _ _ _ Ha) as Hlen.
    rewrite length_app in Hlen. simpl in Hlen.
    rewrite lookup_app_l in Hb by lia.
    destruct (decide (i = length heap)) as [->|Hi'].
    + rewrite lookup_app_r in Ha by lia. rewrite Nat.sub_diag in Ha.
      simpl in Ha. replace a with g by congruence.
      replace b with g by congruence. apply le_refl.
    + rewrite lookup_app_l in Ha by lia.
      apply (Hheap i); [done | lia | done..].
  - intros c y Hc Hpc Hy. apply lookup_lt_Some in Hy.
    rewrite length_app in Hy. simpl in Hy.
    destruct (child_of_parent c Hc); lia.
Qed.

Lemma heappop_order heap x heap' :
  HeapOrder.is_heap lt heap -> heapq.heappop lt heap = Some (x, heap') ->
  HeapOrder.is_heap lt heap'.
Proof.
  intros Hheap. unfold heapq.heappop.
  destruct (last heap) as [lastelt|] eqn:Hlast; [|done].
  apply last_Some in Hlast as [heap1 ->]. rewrite removelast_last.
  destruct heap1 as [|returnitem heap1]; intros [= <- <-].
  { intros i ? ? _ _ Hi. done. }
  apply _siftup_order; [simpl; lia|].
  intros i a b Hi Hk Ha Hb.
  apply (Hheap i); [done | lia | |].
  - apply lookup_app_l_Some. destruct i; [lia | exact Ha].
  - apply lookup_app_l_Some.
    destruct (HeapOrder.parent i); [lia | exact Hb].
Qed.

Lemma heapify_order heap : HeapOrder.is_heap lt (heapq.heapify lt heap).
Proof.
  unfold heapq.heapify.
  assert (forall k h, (k <= length h / 2)%nat -> HeapOrder.heap_from lt k h ->
            HeapOrder.is_heap lt (foldl (fun h i => heapq._siftup lt i h) h
                                    (rev (seq 0 k)))) as Hall.
  { induction k as [|k IH]; intros h Hk Hh; [done|].
    rewrite seq_S, rev_app_distr. simpl.
    assert (k < length h)%nat as Hlt'.
    { pose proof (Nat.Div0.mul_div_le (length h) 2). lia. }
    apply IH.
    - rewrite _siftup_length. lia.
    - now apply _siftup_order. }
  apply Hall; [done|].
  intros i a b Hi Hk Ha Hb. apply lookup_lt_Some in Ha.
  pose proof (Nat.div_mod_eq (length heap) 2) as Hdiv.
  pose proof (Nat.mod_upper_bound (length heap) 2).
  destruct (child_of_parent i Hi); lia.
Qed.

(** In a heap no item is smaller than the root. *)
Lemma heap_root_least heap root x :
  HeapOrder.is_heap lt heap -> heap !! 0%nat = Some root -> x ∈ heap ->
  root ≼ x.
Proof.
  intros Hheap Hroot [i Hi]%list_elem_of_lookup_1. revert x Hi.
  induction i as [i IH] using lt_wf_ind. intros x Hi.
  destruct (decide (i = 0%nat)) as [->|Hne].
  { replace x with root by congruence. apply le_refl. }
  assert (HeapOrder.parent i < i)%nat as Hpi by (apply parent_lt; lia).
  destruct (lookup_lt_is_Some_2 heap (HeapOrder.parent i)) as [y Hy].
  { apply lookup_lt_Some in Hi. lia. }
  apply (le_trans _ y); [now apply (IH (HeapOrder.parent i))|].
  apply (Hheap i); [lia | lia | done..].
Qed.
End heapq_order.

(** ** The order of the expiry records *)

Section tuple_order.
Import CacheEngine.

Lemma string_ltb_lt s t : String.ltb s t = true <-> OrderedTypeEx.String_as_OT.lt s t.
Proof.
  unfold String.ltb. rewrite <- OrderedTypeEx.String_as_OT.cmp_lt. unfold OrderedTypeEx.String_as_OT.cmp.
  destruct (String.compare s t); split; congruence.
Qed.

Lemma string_lt_trichotomy s t :
  OrderedTypeEx.String_as_OT.lt s t \/ s = t \/ OrderedTypeEx.String_as_OT.lt t s.
Proof.
  destruct (String.compare s t) eqn:Hc.
  - right. left. now apply OrderedTypeEx.String_as_OT.cmp_eq.
  - left. now apply OrderedTypeEx.String_as_OT.cmp_lt.
  - right. right. apply OrderedTypeEx.String_as_OT.cmp_lt.
    unfold OrderedTypeEx.String_as_OT.cmp. rewrite String.compare_antisym, Hc. reflexivity.
Qed.

Lemma tuple_lt_spec a b :
  tuple_lt a b = true <->
  (a.1 < b.1)%Q \/ ((a.1 == b.1)%Q /\ OrderedTypeEx.String_as_OT.lt a.2 b.2).
Proof.
  unfold tuple_lt. destruct (Qeq_bool a.1 b.1) eqn:Heq.
  - apply Qeq_bool_iff in Heq. rewrite string_ltb_lt. split; [tauto|].
    intros [Hlt|[_ Hlt]]; [lra | done].
  - apply Qeq_bool_neq in Heq. rewrite flt_spec. tauto.
Qed.

Lemma tuple_lt_order : HeapOrder.strict_weak_order tuple_lt.
Proof.
  split.
  - intros x y Hxy. apply not_true_is_false. intros Hyx.
    apply tuple_lt_spec in Hxy, Hyx.
    destruct Hxy as [Hxy|[Hxy Hs]], Hyx as [Hyx|[Hyx Ht]]; try lra.
    apply (OrderedTypeEx.String_as_OT.lt_not_eq x.2 x.2); [|done].
    eapply OrderedTypeEx.String_as_OT.lt_trans; eauto.
  - intros x y z Hyx Hzy. apply not_true_is_false. intros Hzx.
    apply not_true_iff_false in Hyx, Hzy.
    rewrite tuple_lt_spec in Hyx, Hzy. apply tuple_lt_spec in Hzx.
    destruct (Q_dec y.1 x.1) as [[Hlt|Hgt]|Heq]; [tauto| |].
    + destruct Hzx as [Hzx|[Hzx _]]; apply Hzy; left; lra.
    + destruct Hzx as [Hzx|[Hzx Hs]]; [apply Hzy; left; lra|].
      destruct (string_lt_trichotomy z.2 y.2) as [Hl|[He|Hg]].
      * apply Hzy. right. split; [lra | done].
      * apply Hyx. right. split; [done|]. now rewrite <- He.
      * apply Hyx. right. split; [done|].
        eapply OrderedTypeEx.String_as_OT.lt_trans; eauto.
Qed.

(** A record that is not after a due record is due. *)
Lemma due_le now a b :
  tuple_lt b a = false -> due now b = true -> due now a = true.
Proof.
  intros Hle Hdue. apply not_true_iff_false in Hle.
  rewrite tuple_lt_spec in Hle. unfold due in *.
  apply flt_spec in Hdue. apply flt_spec.
  destruct (Qlt_le_dec b.1 a.1) as [Hlt|Hge]; [tauto | lra].
Qed.
End tuple_order.

Lemma filter_Permutation {A : Type} (f : A -> bool) (l l' : list A) :
  l ≡ₚ l' -> List.filter f l ≡ₚ List.filter f l'.
Proof.
  induction 1 as [|x l l' _ IH|x y l|l l' l'' _ IH1 _ IH2]; simpl.
  - done.
  - destruct (f x); [now f_equiv | done].
  - destruct (f x), (f y); try done. apply perm_swap.
  - now rewrite IH1.
Qed.

(** ** The sweep, on a well-formed heap *)

Section sweep_precise.
Import CacheEngine.

Lemma _remove_expired_loop_heap fuel now s :
  HeapOrder.is_heap tuple_lt (_expire_heap s) ->
  HeapOrder.is_heap tuple_lt (_expire_heap (_remove_expired_loop fuel now s)).
Proof.
  revert s. induction fuel as [|fuel IH]; intros s Hheap; [done|].
  cbn [_remove_expired_loop].
  destruct (_expire_heap s !! 0%nat) as [[t k]|]; [|done].
  destruct (Py.flt t now); [|done].
  destruct (heapq.heappop tuple_lt (_expire_heap s)) as [[[t' k'] heap']|]
    eqn:Hpop; [|done].
  apply IH. simpl. eapply heappop_order; eauto using tuple_lt_order.
Qed.

(** The sweep only deletes. *)
Lemma _remove_expired_loop_None fuel now s key :
  _data s !! key = None -> _data (_remove_expired_loop fuel now s) !! key = None.
Proof.
  revert s. induction fuel as [|fuel IH]; intros s Hkey; [done|].
  cbn [_remove_expired_loop].
  destruct (_expire_heap s !! 0%nat) as [[t k]|]; [|done].
  destruct (Py.flt t now); [|done].
  destruct (heapq.heappop tuple_lt (_expire_heap s)) as [[[t' k'] heap']|];
    [|done].
  apply IH. simpl. case_decide; [|done].
  destruct (decide (k' = key)) as [->|Hne];
    [apply lookup_delete_eq | now rewrite lookup_delete_ne].
Qed.

(** A key is out of reach of the sweep unless one of its records is due. *)
Lemma _remove_expired_loop_not_due key fuel now s :
  Forall (fun r => r.2 = key -> due now r = false) (_expire_heap s) ->
  _data (_remove_expired_loop fuel now s) !! key = _data s !! key.
Proof.
  revert s. induction fuel as [|fuel IH]; intros s Hheap; [done|].
  cbn [_remove_expired_loop].
  destruct (_expire_heap s !! 0%nat) as [[t k]|] eqn:Hroot; [|done].
  destruct (Py.flt t now) eqn:Hdue; [|done].
  destruct (heapq.heappop tuple_lt (_expire_heap s)) as [[[t' k'] heap']|]
    eqn:Hpop; [|done].
  pose proof (heappop_root _ _ _ _ Hpop) as Hroot'.
  assert ((t', k') = (t, k)) as [= -> ->] by congruence.
  apply heappop_Some in Hpop as [_ Hpop].
  destruct (Hpop _ Hheap) as [Hk Hheap']. simpl in Hk.
  rewrite IH by exact Hheap'. simpl.
  case_decide; [|done]. apply lookup_delete_ne. intros ->.
  unfold due in Hk. simpl in Hk. rewrite Hk in Hdue; done.
Qed.

(** A key with a due record in a well-formed heap is removed. *)
Lemma _remove_expired_loop_due key fuel now s r :
  (length (_expire_heap s) <= fuel)%nat ->
  HeapOrder.is_heap tuple_lt (_expire_heap s) ->
  r ∈ _expire_heap s -> due now r = true -> r.2 = key ->
  _data (_remove_expired_loop fuel now s) !! key = None.
Proof.
  revert s. induction fuel as [|fuel IH]; intros s Hlen Hheap Hin Hdue Hkey.
  { destruct (_expire_heap s); [by apply elem_of_nil in Hin | simpl in Hlen; lia]. }
  cbn [_remove_expired_loop].
  destruct (_expire_heap s !! 0%nat) as [[t k]|] eqn:Hroot.
  2:{ destruct (_expire_heap s); [by apply elem_of_nil in Hin | done]. }
  assert (due now (t, k) = true) as Hdue0.
  { eapply due_le; [|exact Hdue].
    eapply heap_root_least; eauto using tuple_lt_order. }
  unfold due in Hdue0. simpl in Hdue0. rewrite Hdue0.
  destruct (heapq.heappop tuple_lt (_expire_heap s)) as [[[t' k'] heap']|]
    eqn:Hpop.
  2:{ destruct (heappop_is_Some tuple_lt _ _ Hroot). congruence. }
  pose proof (heappop_root _ _ _ _ Hpop) as Hroot'.
  assert ((t', k') = (t, k)) as [= -> ->] by congruence.
  pose proof (heappop_perm _ _ _ _ Hpop) as Hperm.
  pose proof (heappop_order _ tuple_lt_order _ _ _ Hheap Hpop) as Hheap'.
  apply heappop_Some in Hpop as [Hl _].
  rewrite <- Hperm in Hin. apply elem_of_cons in Hin as [->|Hin].
  - apply _remove_expired_loop_None. simpl in *. subst k.
    case_decide as Hk; [apply lookup_delete_eq|].
    now apply eq_None_not_Some.
  - apply IH; simpl; [lia | done..].
Qed.

Lemma _remove_expired_loop_none_due fuel now s :
  (length (_expire_heap s) <= fuel)%nat ->
  HeapOrder.is_heap tuple_lt (_expire_heap s) ->
  Forall (fun r => due now r = false)
    (_expire_heap (_remove_expired_loop fuel now s)).
Proof.
  intros Hlen Hheap.
  pose proof (_remove_expired_loop_exit fuel now s Hlen) as Hexit.
  pose proof (_remove_expired_loop_heap fuel now s Hheap) as Hheap'.
  apply Forall_forall. intros r Hr.
  destruct (_expire_heap (_remove_expired_loop fuel now s) !! 0%nat)
    as [[t k]|] eqn:Hroot.
  - destruct (due now r) eqn:Hdue; [|done].
    assert (due now (t, k) = true) as Hdue0.
    { eapply due_le; [|exact Hdue].
      eapply heap_root_least; eauto using tuple_lt_order. }
    unfold due in Hdue0. simpl in Hdue0. congruence.
  - destruct (_expire_heap (_remove_expired_loop fuel now s));
      [by apply elem_of_nil in Hr | done].
Qed.

(** The records that stay are the ones that were there and are not due. *)
Lemma _remove_expired_loop_records fuel now s :
  (length (_expire_heap s) <= fuel)%nat ->
  HeapOrder.is_heap tuple_lt (_expire_heap s) ->
  _expire_heap (_remove_expired_loop fuel now s)
  ≡ₚ List.filter (fun r => negb (due now r)) (_expire_heap s).
Proof.
  revert s. induction fuel as [|fuel IH]; intros s Hlen Hheap.
  { simpl. destruct (_expire_heap s); [done | simpl in Hlen; lia]. }
  assert (forall h, HeapOrder.is_heap tuple_lt h ->
            match h !! 0%nat with
            | Some r => due now r = false
            | None => True
            end -> List.filter (fun r => negb (due now r)) h = h) as Hall.
  { intros h Hh Hroot. apply forallb_filter_id, forallb_forall.
    intros r Hr%list_elem_of_In.
    destruct (h !! 0%nat) as [r0|] eqn:Hr0.
    - destruct (due now r) eqn:Hdue; [|done].
      rewrite (due_le now r0 r) in Hroot; [done | | done].
      eapply heap_root_least; eauto using tuple_lt_order.
    - destruct h; [by apply elem_of_nil in Hr | done]. }
  cbn [_remove_expired_loop].
  destruct (_expire_heap s !! 0%nat) as [[t k]|] eqn:Hroot.
  2:{ rewrite Hall; [done..|]. now rewrite Hroot. }
  destruct (Py.flt t now) eqn:Hdue.
  2:{ rewrite Hall; [done..|]. now rewrite Hroot. }
  destruct (heapq.heappop tuple_lt (_expire_heap s)) as [[[t' k'] heap']|]
    eqn:Hpop.
  2:{ destruct (heappop_is_Some tuple_lt _ _ Hroot). congruence. }
  pose proof (heappop_root _ _ _ _ Hpop) as Hroot'.
  assert ((t', k') = (t, k)) as [= -> ->] by congruence.
  pose proof (heappop_perm _ _ _ _ Hpop) as Hperm.
  pose proof (heappop_order _ tuple_lt_order _ _ _ Hheap Hpop) as Hheap'.
  apply heappop_Some in Hpop as [Hl _].
  rewrite IH by (simpl; (lia || done)). simpl.
  rewrite <- (filter_Permutation _ _ _ Hperm). simpl.
  unfold due at 2. simpl. now rewrite Hdue.
Qed.
End sweep_precise.

(** ** The asynchronous engine keeps its records in a heap *)

Section engine_facts.
Import CacheEngine.

Lemma has_due_record_true now key s :
  Engine.has_due_record now key s = true <->
  exists r, r ∈ _expire_heap s /\ due now r = true /\ r.2 = key.
Proof.
  unfold Engine.has_due_record. rewrite existsb_exists. split.
  - intros (r & Hin & [Hdue Hk%String.eqb_eq]%andb_prop).
    exists r. now rewrite list_elem_of_In.
  - intros (r & Hin & Hdue & Hk). exists r. rewrite <- list_elem_of_In.
    split; [done|]. rewrite Hdue. now apply String.eqb_eq.
Qed.

Lemma has_due_record_false now key s :
  Engine.has_due_record now key s = false <->
  Forall (fun r => r.2 = key -> due now r = false) (_expire_heap s).
Proof.
  rewrite <- not_true_iff_false, has_due_record_true, Forall_forall. split.
  - intros Hno r Hin Hk. apply not_true_iff_false. intros Hdue.
    apply Hno. by exists r.
  - intros Hall (r & Hin & Hdue & Hk). rewrite (Hall r Hin Hk) in Hdue. done.
Qed.

Lemma int_of_float_inject (x : Q) (z : Z) :
  (x == inject_Z z)%Q -> Py.int_of_float x = z.
Proof.
  unfold Qeq, Py.int_of_float. simpl. intros Hx.
  replace (Qnum x) with (z * Z.pos (Qden x)) by lia.
  apply Z.quot_mul. lia.
Qed.

Lemma int_of_float_le (x : Q) (z : Z) :
  (0 <= x)%Q -> (x <= inject_Z z)%Q -> Py.int_of_float x <= z.
Proof.
  unfold Qle, Py.int_of_float. simpl. intros H0 Hx.
  rewrite Z.quot_div_nonneg by lia.
  apply Z.div_le_upper_bound; lia.
Qed.

(** The state that a round of the background task leaves is the one of the
    sweep. *)
Lemma _proactive_expire_round_state now s :
  (_proactive_expire_round now s).1 = _remove_expired_keys now s.
Proof.
  unfold _proactive_expire_round.
  now destruct (_expire_heap (_remove_expired_keys now s)) as [|[t k] h].
Qed.
End engine_facts.

Lemma init_heap_ok t : Engine.heap_ok (CacheEngine.init t).
Proof. intros i x y _ _ Hx. done. Qed.

Lemma set_heap_ok now key value expire s :
  Engine.heap_ok s -> Engine.heap_ok (CacheEngine.set now key value expire s).
Proof.
  intros Hs. unfold Engine.heap_ok, CacheEngine.set in *.
  destruct expire as [e|]; [|done]. destruct (Py.truthy e); [|done]. simpl.
  apply heappush_order; [apply tuple_lt_order | done].
Qed.

Lemma run_heap_ok now o s :
  Engine.heap_ok s -> Engine.heap_ok (Engine.run now o s).
Proof.
  intros Hs. destruct o as [key value expire|key|key|key|key|]; simpl.
  - now apply set_heap_ok.
  - now apply _remove_expired_loop_heap.
  - unfold Engine.heap_ok, CacheEngine.delete in *. case_decide; [|done]. simpl.
    apply heapify_order, tuple_lt_order.
  - unfold Engine.heap_ok, CacheEngine.incr in *.
    now destruct (CacheEngine.current_value key s).
  - unfold Engine.heap_ok, CacheEngine.decr in *.
    now destruct (CacheEngine.current_value key s).
  - rewrite _proactive_expire_round_state.
    now apply _remove_expired_loop_heap.
Qed.

(** X1.  The list of expiry records of the asynchronous engine is a binary
    heap for the order of the tuples when the engine is created, and every
    operation keeps it one: [set] pushes, [get] and the background round
    pop, [delete] rebuilds the heap, [incr] and [decr] leave it alone. *)
Theorem engine_keeps_heap :
  (forall t, Engine.heap_ok (CacheEngine.init t)) /\
  forall now o s, Engine.heap_ok s -> Engine.heap_ok (Engine.run now o s).
Proof. split; [exact init_heap_ok | exact run_heap_ok]. Qed.

Lemma engine_keeps_heap_witness :
  Engine.heap_ok
    (Engine.run 3 (Engine.OpDelete "a")
       (Engine.run 2 (Engine.OpSet "b" "y" (Some 1))
          (Engine.run 1 (Engine.OpSet "a" "x" (Some 9)) (CacheEngine.init 0)))).
Proof.
  destruct engine_keeps_heap as [Hinit Hrun].
  apply Hrun, Hrun, Hrun, Hinit.
Defined.

(** X2.  On an engine whose records form a heap, the sweep removes exactly
    the keys that a due record names, leaves every other entry as it was,
    and keeps exactly the records that are not due, again as a heap. *)
Theorem sweep_removes_exactly_due_keys (now : Q) (s : CacheEngine.state)
    (Hs : Engine.heap_ok s) :
  let s' := CacheEngine._remove_expired_keys now s in
  (forall key,
     CacheEngine._data s' !! key
     = if Engine.has_due_record now key s then None
       else CacheEngine._data s !! key) /\
  CacheEngine._expire_heap s'
  ≡ₚ List.filter (fun r => negb (due now r)) (CacheEngine._expire_heap s) /\
  Forall (fun r => due now r = false) (CacheEngine._expire_heap s') /\
  Engine.heap_ok s'.
Proof.
  intros s'. subst s'. unfold CacheEngine._remove_expired_keys.
  repeat split.
  - intros key. destruct (Engine.has_due_record now key s) eqn:Hdue.
    + apply has_due_record_true in Hdue as (r & Hin & Hdue & Hk).
      now apply (_remove_expired_loop_due key _ now s r).
    + apply has_due_record_false in Hdue.
      now apply _remove_expired_loop_not_due.
  - now apply _remove_expired_loop_records.
  - now apply _remove_expired_loop_none_due.
  - now apply _remove_expired_loop_heap.
Qed.

Lemma sweep_removes_exactly_due_keys_witness :
  let s := CacheEngine.set 0 "c" "z" None
             (CacheEngine.set 0 "b" "y" (Some 9)
                (CacheEngine.set 0 "a" "x" (Some 1) (CacheEngine.init 0))) in
  let s' := CacheEngine._remove_expired_keys 5 s in
  CacheEngine._data s' !! "a" = None /\
  CacheEngine._data s' !! "b" = Some "y" /\
  CacheEngine._data s' !! "c" = Some "z".
Proof.
  intros s s'.
  assert (Engine.heap_ok s) as Hs
    by (repeat apply set_heap_ok; apply init_heap_ok).
  destruct (sweep_removes_exactly_due_keys 5 s Hs) as (Hdata & _).
  repeat split; subst s'; rewrite Hdata; reflexivity.
Defined.

(** X3.  Whatever the shape of the list of records, the sweep only deletes:
    an entry it leaves is the entry of before, and a key that no due record
    names is never removed. *)
Theorem sweep_only_deletes_due_keys (now : Q) (s : CacheEngine.state)
    (key : string) :
  let s' := CacheEngine._remove_expired_keys now s in
  (CacheEngine._data s' !! key = None \/
   CacheEngine._data s' !! key = CacheEngine._data s !! key) /\
  (Engine.has_due_record now key s = false ->
   CacheEngine._data s' !! key = CacheEngine._data s !! key).
Proof.
  intros s'. subst s'. unfold CacheEngine._remove_expired_keys.
  split.
  - generalize (length (CacheEngine._expire_heap s)). intros fuel. revert s.
    induction fuel as [|fuel IH]; intros s; [now right|].
    cbn [CacheEngine._remove_expired_loop].
    destruct (CacheEngine._expire_heap s !! 0%nat) as [[t k]|]; [|now right].
    destruct (Py.flt t now); [|now right].
    destruct (heapq.heappop CacheEngine.tuple_lt (CacheEngine._expire_heap s))
      as [[[t' k'] heap']|]; [|now right].
    match goal with
    | |- context [CacheEngine._remove_expired_loop fuel now ?s1] =>
        destruct (IH s1) as [Hnone|Hsame]; [now left|]; rewrite Hsame
    end.
    simpl. case_decide; [|now right].
    destruct (decide (k' = key)) as [->|Hne].
    + left. apply lookup_delete_eq.
    + right. now apply lookup_delete_ne.
  - intros Hdue. apply has_due_record_false in Hdue.
    now apply _remove_expired_loop_not_due.
Qed.

Lemma sweep_only_deletes_due_keys_witness :
  let s := CacheEngine.State {["a" := "x"; "b" := "y"]}
             [(1%Q, "b"); (9%Q, "a"); (2%Q, "b")] 0 in
  CacheEngine._data (CacheEngine._remove_expired_keys 5 s) !! "a"
  = CacheEngine._data s !! "a".
Proof.
  intros s.
  destruct (sweep_only_deletes_due_keys 5 s "a") as [_ Hkeep].
  apply Hkeep. reflexivity.
Defined.

(** ** Expiry, as a caller of the asynchronous engine sees it *)

(** X4.  When the records form a heap, a key set with a TTL that is not
    zero is gone once the TTL has passed: the next [get] answers [None], and
    [ttl] then answers -2.  The TTL [e] and the expiry [now + e] are numbers
    that a double holds exactly, so that [time.time() + expire] neither
    raises nor rounds. *)
Theorem expired_key_is_not_served (now now' : Q) (key value : string) (e : Z)
    (s : CacheEngine.state)
    (Hs : Engine.heap_ok s) (He : e <> 0)
    (Hfloat : Py.is_double (inject_Z e) = true)
    (Hexact : Py.is_double (now + inject_Z e) = true)
    (Hlate : (now + inject_Z e < now')%Q) :
  let s1 := CacheEngine.set now key value (Some e) s in
  (CacheEngine.get now' key s1).2 = None /\
  CacheEngine.ttl now' key (CacheEngine.get now' key s1).1 = -2.
Proof.
  intros s1.
  assert (CacheEngine._data (CacheEngine.get now' key s1).1 !! key = None) as Hgone.
  { unfold CacheEngine.get, CacheEngine._remove_expired_keys. simpl.
    apply (_remove_expired_loop_due key _ now' s1 ((now + inject_Z e)%Q, key)).
    - done.
    - now apply set_heap_ok.
    - subst s1. unfold CacheEngine.set, Py.truthy.
      rewrite (proj2 (Z.eqb_neq e 0) He). simpl.
      rewrite heappush_perm. left.
    - unfold due. simpl. now apply flt_spec.
    - done. }
  split; [exact Hgone | now apply async_ttl_absent].
Qed.

Lemma expired_key_is_not_served_witness :
  let s := CacheEngine.set 0 "other" "x" (Some 100) (CacheEngine.init 0) in
  (CacheEngine.get 7 "k" (CacheEngine.set 1 "k" "v" (Some 5) s)).2 = None.
Proof.
  intros s.
  apply (expired_key_is_not_served 1 7 "k" "v" 5 s).
  - apply set_heap_ok, init_heap_ok.
  - discriminate.
  - reflexivity.
  - reflexivity.
  - reflexivity.
Defined.

(** What [get] returns after a [set], in the form the protocol proofs
    use. *)
Lemma get_after_set_live (now now' : Q) (key value : string)
    (expire : option Z) (s : CacheEngine.state) :
  Engine.has_due_record now' key s = false ->
  match expire with
  | Some e => Py.flt (now + inject_Z e) now' = false
  | None => True
  end ->
  (CacheEngine.get now' key (CacheEngine.set now key value expire s)).2
  = Some value.
Proof.
  intros Hold Hnew.
  apply has_due_record_false in Hold.
  unfold CacheEngine.get, CacheEngine._remove_expired_keys. simpl.
  rewrite _remove_expired_loop_not_due.
  - unfold CacheEngine.set.
    destruct expire as [e|]; [destruct (Py.truthy e)|]; simpl;
      apply lookup_insert_eq.
  - unfold CacheEngine.set.
    destruct expire as [e|]; [destruct (Py.truthy e)|]; simpl; try done.
    apply heappush_Forall; [done|]. intros _. exact Hnew.
Qed.



(** X6.  For a key that no record names yet, [ttl] after a [set] with a
    TTL [e] that is not zero, where [e] and the expiry [now + e] are numbers
    that a double holds exactly (so that [time.time() + expire] neither
    raises nor rounds): [ttl] is exactly [e] at the instant of the [set]; it
    is between 0 and [e] until the TTL has passed; and it is the truncation
    of [now + e - now'] at an instant [now'] for which a double holds that
    difference exactly. *)
Theorem ttl_after_set (now now' : Q) (key value : string) (e : Z)
    (s : CacheEngine.state)
    (Hfresh : Forall (fun r => r.2 <> key) (CacheEngine._expire_heap s))
    (He : e <> 0)
    (Hfloat : Py.is_double (inject_Z e) = true)
    (Hexact : Py.is_double (now + inject_Z e) = true) :
  let s1 := CacheEngine.set now key value (Some e) s in
  CacheEngine.ttl now key s1 = e /\
  ((now <= now')%Q -> (now' <= now + inject_Z e)%Q ->
   0 <= CacheEngine.ttl now' key s1 <= e) /\
  (Py.is_double (now + inject_Z e - now') = true ->
   CacheEngine.ttl now' key s1 = Py.int_of_float (now + inject_Z e - now')%Q).
Proof.
  intros s1.
  assert (forall t, CacheEngine.ttl t key s1
                    = Py.int_of_float (now + inject_Z e - t)%Q) as Httl.
  { intros t. unfold CacheEngine.ttl.
    rewrite decide_True.
    2:{ subst s1. unfold CacheEngine.set. destruct (Py.truthy e); simpl;
          rewrite lookup_insert_eq; eauto. }
    assert (CacheEngine._expire_heap s1
            ≡ₚ ((now + inject_Z e)%Q, key) :: CacheEngine._expire_heap s) as Hperm.
    { subst s1. unfold CacheEngine.set, Py.truthy.
      rewrite (proj2 (Z.eqb_neq e 0) He). simpl. apply heappush_perm. }
    destruct (List.find _ _) as [[t' k']|] eqn:Hfind.
    - apply find_some in Hfind as [Hin Hk]. simpl in Hk.
      apply String.eqb_eq in Hk. subst k'.
      apply list_elem_of_In in Hin. rewrite Hperm in Hin.
      apply elem_of_cons in Hin as [[= -> ]|Hin]; [done|].
      rewrite Forall_forall in Hfresh. now destruct (Hfresh _ Hin).
    - exfalso.
      assert (In ((now + inject_Z e)%Q, key) (CacheEngine._expire_heap s1)) as Hin
        by (apply list_elem_of_In; rewrite Hperm; left).
      apply (find_none _ _ Hfind) in Hin. simpl in Hin.
      now rewrite String.eqb_refl in Hin. }
  split; [|split].
  - rewrite Httl. apply int_of_float_inject. ring.
  - intros Hge Hle. rewrite Httl. split.
    + apply int_of_float_nonneg. lra.
    + apply int_of_float_le; lra.
  - intros _. apply Httl.
Qed.

Lemma ttl_after_set_witness :
  CacheEngine.ttl (5 # 2) "k"
    (CacheEngine.set 1 "k" "v" (Some 5) (CacheEngine.init 0)) = 3.
Proof.
  destruct (ttl_after_set 1 (5 # 2) "k" "v" 5 (CacheEngine.init 0))
    as (_ & _ & Httl);
    [constructor | discriminate | reflexivity | reflexivity |].
  rewrite Httl; reflexivity.
Defined.

(** X7.  [delete] of a stored key answers 1, removes the entry and every
    record that names the key, and keeps the other records, as a heap.  A
    [set] without TTL that follows therefore gives a key that never
    expires.  [delete] of a key that is not stored answers 0 and changes
    nothing. *)
Theorem delete_purges_records (key : string) (s : CacheEngine.state) :
  match CacheEngine._data s !! key with
  | None => CacheEngine.delete key s = (s, 0)
  | Some _ =>
      let s' := (CacheEngine.delete key s).1 in
      (CacheEngine.delete key s).2 = 1 /\
      CacheEngine._data s' = base.delete key (CacheEngine._data s) /\
      CacheEngine._expire_heap s'
      ≡ₚ List.filter (fun r => negb (String.eqb r.2 key))
           (CacheEngine._expire_heap s) /\
      Engine.heap_ok s' /\
      forall now value later,
        let s2 := CacheEngine.set now key value None s' in
        CacheEngine.ttl later key s2 = -1 /\
        (CacheEngine.get later key s2).2 = Some value
  end.
Proof.
  unfold CacheEngine.delete.
  destruct (CacheEngine._data s !! key) as [v|] eqn:Hkey.
  2:{ rewrite decide_False; [done|]. now apply is_Some_None. }
  rewrite decide_True by eauto. simpl.
  split; [done|]. split; [done|].
  split; [apply heapify_perm|].
  split; [apply heapify_order, tuple_lt_order|].
  intros now value later.
  assert (Forall (fun r : Q * string => r.2 <> key)
            (heapq.heapify CacheEngine.tuple_lt
               (List.filter (fun r => negb (String.eqb r.2 key))
                  (CacheEngine._expire_heap s)))) as Hnone.
  { apply heapify_Forall, Forall_forall.
    intros r [_ Hr]%list_elem_of_In%filter_In.
    apply negb_true_iff, String.eqb_neq in Hr. done. }
  split.
  - apply async_ttl_no_record; simpl; [rewrite lookup_insert_eq; eauto | done].
  - unfold CacheEngine.get. simpl.
    apply (sweeps_keep_unscheduled_key key value [later]); simpl;
      [apply lookup_insert_eq | done].
Qed.

(** ** Counters of the asynchronous engine *)

Section counter_facts.
Import CacheEngine.

Lemma incr_spec key s n :
  current_value key s = Some n ->
  incr key s = (with_data (<[key := Py.str (n + 1)]> (_data s)) s, Py.Ret (n + 1)).
Proof. unfold incr. now intros ->. Qed.

Lemma decr_spec key s n :
  current_value key s = Some n ->
  decr key s = (with_data (<[key := Py.str (n - 1)]> (_data s)) s, Py.Ret (n - 1)).
Proof. unfold decr. now intros ->. Qed.


End counter_facts.



(** ** [info] *)

Section info_facts.
Import CacheEngine.

Lemma memory_usage_insert (d : gmap string string) key value t h :
  d !! key = None ->
  _get_memory_usage (State (<[key := value]> d) h t)
  = _get_memory_usage (State d h t) + (Py.len key + Py.len value).
Proof.
  intros Hkey. unfold _get_memory_usage. simpl.
  rewrite map_fold_insert_L; [done | | done].
  intros. lia.
Qed.

Lemma memory_usage_nonneg s : 0 <= _get_memory_usage s.
Proof.
  unfold _get_memory_usage.
  apply (map_fold_weak_ind (fun acc _ => 0 <= acc)); [done|].
  intros k v m acc _ Hacc. unfold Py.len. lia.
Qed.
End info_facts.

(** X9.  The memory figure of [info] is the sum of the lengths of the keys
    and values: it is 0 for a new engine, a [set] of a new key adds the
    lengths of the key and of the value and one to the count of keys, a
    [set] of a stored key changes the figure by the difference of the
    lengths of the values and keeps the count, and [delete] takes the
    lengths of the key and of its value away. *)
Theorem info_counts_keys_and_lengths (now : Q) (key value : string)
    (expire : option Z) (s : CacheEngine.state) :
  (forall t, CacheEngine.info t (CacheEngine.init t)
             = [("keys", 0); ("memory_usage", 0); ("uptime", 0)]) /\
  0 <= CacheEngine._get_memory_usage s /\
  let s' := CacheEngine.set now key value expire s in
  match CacheEngine._data s !! key with
  | None =>
      CacheEngine._get_memory_usage s'
      = CacheEngine._get_memory_usage s + Py.len key + Py.len value /\
      size (CacheEngine._data s') = S (size (CacheEngine._data s))
  | Some old =>
      CacheEngine._get_memory_usage s'
      = CacheEngine._get_memory_usage s - Py.len old + Py.len value /\
      size (CacheEngine._data s') = size (CacheEngine._data s) /\
      CacheEngine._get_memory_usage (CacheEngine.delete key s).1
      = CacheEngine._get_memory_usage s - Py.len key - Py.len old
  end.
Proof.
  split.
  { intros t. unfold CacheEngine.info, CacheEngine._get_memory_usage.
    cbn [CacheEngine.init CacheEngine._data CacheEngine._start_time].
    rewrite map_size_empty, map_fold_empty.
    now rewrite (int_of_float_inject (t - t) 0) by ring. }
  split; [apply memory_usage_nonneg|].
  intros s'.
  assert (forall h t h' t',
            CacheEngine._get_memory_usage (CacheEngine.State (CacheEngine._data s') h t)
            = CacheEngine._get_memory_usage (CacheEngine.State (CacheEngine._data s') h' t'))
    as Hirr by done.
  assert (CacheEngine._data s' = <[key := value]> (CacheEngine._data s)) as Hdata.
  { subst s'. unfold CacheEngine.set.
    destruct expire as [e|]; [destruct (Py.truthy e)|]; done. }
  assert (CacheEngine._get_memory_usage s'
          = CacheEngine._get_memory_usage
              (CacheEngine.State (<[key := value]> (CacheEngine._data s)) [] 0))
    as Hmem by (unfold CacheEngine._get_memory_usage; now rewrite Hdata).
  assert (CacheEngine._get_memory_usage s
          = CacheEngine._get_memory_usage
              (CacheEngine.State (CacheEngine._data s) [] 0)) as Hmem0 by done.
  destruct (CacheEngine._data s !! key) as [old|] eqn:Hkey.
  - pose proof (memory_usage_insert (base.delete key (CacheEngine._data s))
                  key old 0%Q [] (lookup_delete_eq _ _)) as Hold.
    pose proof (memory_usage_insert (base.delete key (CacheEngine._data s))
                  key value 0%Q [] (lookup_delete_eq _ _)) as Hnew.
    rewrite insert_delete_eq in Hnew.
    rewrite insert_delete_id in Hold by done.
    split; [rewrite Hmem, Hmem0; lia|]. split.
    + rewrite Hdata.
      rewrite <- (insert_delete_id (CacheEngine._data s) key old) at 2 by done.
      rewrite <- insert_delete_eq.
      now rewrite !map_size_insert_None by apply lookup_delete_eq.
    + unfold CacheEngine.delete. rewrite decide_True by eauto. simpl.
      rewrite Hmem0.
      change (CacheEngine._get_memory_usage
                (CacheEngine.State (base.delete key (CacheEngine._data s))
                   (heapq.heapify CacheEngine.tuple_lt
                      (List.filter (fun r : Q * string => negb (String.eqb r.2 key))
                         (CacheEngine._expire_heap s)))
                   (CacheEngine._start_time s)))
        with (CacheEngine._get_memory_usage
                (CacheEngine.State (base.delete key (CacheEngine._data s)) [] 0)).
      lia.
  - split.
    + rewrite Hmem, Hmem0, memory_usage_insert by done. lia.
    + rewrite Hdata. now apply map_size_insert_None.
Qed.

(** ** [save] and the target file *)

Lemma string_app_nil_r (s : string) : s ++ EmptyString = s.
Proof.
  induction s as [|c s IH]; [reflexivity|].
  change (String c (s ++ EmptyString) = String c s). congruence.
Qed.

Lemma string_app_assoc (s t u : string) : (s ++ t) ++ u = s ++ (t ++ u).
Proof.
  induction s as [|c s IH]; [reflexivity|].
  change (String c ((s ++ t) ++ u) = String c (s ++ (t ++ u))). congruence.
Qed.

Lemma string_app_length (s t : string) :
  String.length (s ++ t) = (String.length s + String.length t)%nat.
Proof.
  induction s as [|c s IH]; [reflexivity|].
  change (S (String.length (s ++ t)) = S (String.length s + String.length t)).
  congruence.
Qed.

Lemma append_neq (s suffix : string) :
  suffix <> EmptyString -> s ++ suffix <> s.
Proof.
  intros Hne Heq. rewrite <- (string_app_nil_r s) in Heq at 2.
  now apply String.app_inj in Heq.
Qed.

(** X10.  [save] never leaves the target path with anything but a complete
    snapshot: either it succeeds, the target holds both dumped objects and
    the temporary file is gone, or it raises and the target is what it was.
    No path other than the target and the temporary one is touched. *)
Theorem save_replaces_target_or_keeps_it {B : Type} (P : pickler B)
    (filename : string) (s : CacheEngine.state) (fs : filesystem B) :
  let r := CacheEngine.save P filename s fs in
  let content := (dump_data P (CacheEngine._data s)
                  ++ dump_heap P (CacheEngine._expire_heap s))%list in
  ((r.2 = Py.Ret tt /\
    files r.1 !! filename = Some content /\
    files r.1 !! (filename ++ ".tmp") = None) \/
   (exists e, r.2 = Py.Raise e /\ files r.1 !! filename = files fs !! filename)) /\
  (forall path, path <> filename -> path <> filename ++ ".tmp" ->
                files r.1 !! path = files fs !! path) /\
  denied r.1 = denied fs.
Proof.
  intros r content. subst r. unfold CacheEngine.save.
  assert (filename ++ ".tmp" <> filename) as Htmp by now apply append_neq.
  destruct (decide (filename ++ ".tmp" ∈ denied fs)) as [Hd|Hd]; simpl.
  { split; [right; eauto|]. done. }
  destruct (decide (filename ∈ denied fs)) as [Hf|Hf]; simpl.
  - split; [right; eexists; split; [done|]|split; [|done]].
    + now rewrite lookup_insert_ne.
    + intros path _ Hp. now rewrite lookup_insert_ne.
  - split; [left|split; [|done]].
    + split; [done|]. split; [apply lookup_insert_eq|].
      rewrite lookup_insert_ne by done. apply lookup_delete_eq.
    + intros path Hp Hp'.
      rewrite lookup_insert_ne, lookup_delete_ne, lookup_insert_ne by done. done.
Qed.

(** ** The background task *)



(** ** Tokens, [split] and [strip] *)

Section text_facts.
Import Py PyText.

Lemma string_cons_app c (s t : string) : String c s ++ t = String c (s ++ t).
Proof. reflexivity. Qed.

Lemma split_from_token cur w rest :
  no_space w = true -> split_from cur (w ++ rest) = split_from (cur ++ w) rest.
Proof.
  revert cur. induction w as [|c w IH]; intros cur Hw.
  - now rewrite string_app_nil_r.
  - simpl in Hw. apply andb_prop in Hw as [Hc%negb_true_iff Hw].
    rewrite string_cons_app. cbn [split_from]. rewrite Hc, IH by done.
    now rewrite string_app_assoc.
Qed.

Lemma split_from_all_space tail :
  all_space tail = true -> split_from EmptyString tail = [].
Proof.
  induction tail as [|c tail IH]; [done|]. simpl.
  intros [-> Htail]%andb_prop. now apply IH.
Qed.

Lemma split_from_end cur tail :
  cur <> EmptyString -> all_space tail = true -> split_from cur tail = [cur].
Proof.
  intros Hcur Htail. destruct tail as [|c tail]; simpl.
  - now destruct cur.
  - simpl in Htail. apply andb_prop in Htail as [-> Htail].
    rewrite split_from_all_space by done. now destruct cur.
Qed.

(** [split] gives back the tokens that single blanks separate, whatever
    blanks follow the last one. *)
Lemma split_join (ws : list string) (tail : string) :
  Forall is_token ws -> all_space tail = true ->
  split (String.concat " " ws ++ tail) = ws.
Proof.
  intros Hws Htail. unfold split.
  induction Hws as [|w ws [Hne Hw] Hws IH]; simpl.
  - now apply split_from_all_space.
  - destruct ws as [|w' ws].
    + rewrite split_from_token by done. now apply split_from_end.
    + rewrite !string_app_assoc, split_from_token by done.
      rewrite string_cons_app. cbn [split_from is_space]. simpl.
      destruct w; [done|]. simpl. f_equal. exact IH.
Qed.

Lemma split_lstrip s : split (lstrip s) = split s.
Proof.
  unfold split. induction s as [|c s IH]; [done|]. cbn [lstrip split_from].
  destruct (is_space c) eqn:Hc; [exact IH|]. cbn [split_from]. now rewrite Hc.
Qed.

Lemma split_from_rstrip cur s : split_from cur (rstrip s) = split_from cur s.
Proof.
  revert cur. induction s as [|c s IH]; intros cur; [done|].
  cbn [rstrip]. destruct (rstrip s) as [|c' r] eqn:Hr.
  - destruct (is_space c) eqn:Hc; cbn [split_from]; rewrite Hc.
    + rewrite <- (IH EmptyString). simpl. now destruct cur.
    + now rewrite <- IH.
  - cbn [split_from]. destruct (is_space c); [|apply IH].
    rewrite <- (IH EmptyString). now destruct cur.
Qed.

(** [s.strip().split()] is [s.split()]. *)
Lemma split_strip s : split (strip s) = split s.
Proof. unfold strip, split. now rewrite split_from_rstrip, split_lstrip. Qed.

Lemma rstrip_all_space tail : all_space tail = true -> rstrip tail = EmptyString.
Proof.
  induction tail as [|c tail IH]; [done|]. simpl.
  intros [-> Htail]%andb_prop. now rewrite IH.
Qed.

Lemma rstrip_token_tail w tail :
  no_space w = true -> all_space tail = true -> rstrip (w ++ tail) = w.
Proof.
  intros Hw Htail. induction w as [|c w IH].
  - now apply rstrip_all_space.
  - simpl in Hw. apply andb_prop in Hw as [Hc%negb_true_iff Hw].
    rewrite string_cons_app. cbn [rstrip]. rewrite IH, Hc by done.
    now destruct w.
Qed.

(** A reply that is a token followed by its terminator strips to the
    token. *)
Lemma strip_token_tail w tail :
  no_space w = true -> all_space tail = true -> strip (w ++ tail) = w.
Proof.
  intros Hw Htail. unfold strip.
  destruct w as [|c w].
  - replace (EmptyString ++ tail) with tail by done.
    assert (all_space (lstrip tail) = true) as Hl.
    { clear Hw. induction tail as [|c tail IH]; [done|]. simpl in *.
      apply andb_prop in Htail as [Hc Htail]. rewrite Hc. now apply IH. }
    now apply rstrip_all_space.
  - pose proof Hw as Hw'. simpl in Hw'.
    apply andb_prop in Hw' as [Hc%negb_true_iff _].
    rewrite string_cons_app. cbn [lstrip]. rewrite Hc.
    now apply (rstrip_token_tail (String c w)).
Qed.

Lemma no_space_app s t :
  no_space s = true -> no_space t = true -> no_space (s ++ t) = true.
Proof.
  intros Hs Ht. induction s as [|c s IH]; [done|].
  simpl in Hs. apply andb_prop in Hs as [Hc Hs].
  rewrite string_cons_app. simpl. now rewrite Hc, IH.
Qed.

Lemma no_space_digits u : no_space (NilEmpty.string_of_uint u) = true.
Proof. induction u; simpl; done. Qed.

(** The decimal string of an integer is a token. *)
Lemma str_is_token n : is_token (str n).
Proof.
  unfold str, is_token.
  destruct (Z.to_int n) as [u|u]; simpl.
  - split; [destruct u; done|]. destruct u; try done; apply no_space_digits.
  - split; [done|]. destruct u; simpl; try done; apply no_space_digits.
Qed.

Lemma read_short n s : (String.length s <= n)%nat -> read n s = s.
Proof.
  unfold read. revert n. induction s as [|c s IH]; intros n Hn.
  - now destruct n.
  - destruct n as [|n]; simpl in *; [lia|]. f_equal. apply IH. lia.
Qed.

Lemma slice_from_1 c s : slice_from 1 (String c s) = s.
Proof.
  unfold slice_from. simpl. rewrite Nat.sub_0_r.
  induction s as [|c' s IH]; [done|]. simpl. f_equal.
  destruct s; [done|]. exact IH.
Qed.
End text_facts.

(** ** The client against the asynchronous server *)

Section client_facts.
Context {B : Type} (P : pickler B).
Implicit Types (w : @CommandParser.world B).

(** A line of tokens is dispatched on its first token, in upper case. *)
Lemma parse_tokens now part0 args tail w :
  Forall PyText.is_token (part0 :: args) -> PyText.all_space tail = true ->
  CommandParser.parse P now (String.concat " " (part0 :: args) ++ tail) w
  = CommandParser.try_except
      (CommandParser.dispatch P now (Py.upper part0) args)
      (fun e => CommandParser.ret ("ERROR: " ++ Py.exn_msg e ++ CommandParser.crlf))
      w.
Proof.
  intros Hws Htail. unfold CommandParser.parse.
  now rewrite split_strip, split_join.
Qed.

Lemma concat_tokens_nonempty part0 args tail :
  PyText.is_token part0 ->
  String.concat " " (part0 :: args) ++ tail <> EmptyString.
Proof.
  intros [Hne _]. destruct part0 as [|c part0]; [done|].
  destruct args; simpl; discriminate.
Qed.

(** One exchange: the command goes out framed, the server answers with the
    reply of [parse], the client strips it.  The command and the reply must
    fit the 1024 bytes of a read. *)
Lemma send_command_tokens now part0 args w w' reply :
  Forall PyText.is_token (part0 :: args) ->
  (String.length (String.concat " " (part0 :: args)) + 2 <= 1024)%nat ->
  CommandParser.try_except
    (CommandParser.dispatch P now (Py.upper part0) args)
    (fun e => CommandParser.ret ("ERROR: " ++ Py.exn_msg e ++ CommandParser.crlf))
    w = (w', Py.Ret reply) ->
  reply <> EmptyString -> (String.length reply <= 1024)%nat ->
  PyRedisAsyncClient._send_command (PyRedisAsyncClient.async_server P now)
    (String.concat " " (part0 :: args)) (PyRedisAsyncClient.State true w)
  = (PyRedisAsyncClient.State true w', Py.Ret (Py.strip reply)).
Proof.
  intros Hws Hlen Hparse Hreply Hrlen.
  unfold PyRedisAsyncClient._send_command. cbn [negb PyRedisAsyncClient._connected
    PyRedisAsyncClient.peer].
  set (cmd := String.concat " " (part0 :: args)) in *.
  assert (exists tail,
            (if PyText.endswith cmd CommandParser.crlf then cmd
             else cmd ++ CommandParser.crlf) = cmd ++ tail /\
            PyText.all_space tail = true /\ (String.length tail <= 2)%nat)
    as (tail & -> & Htail & Htlen).
  { destruct (PyText.endswith cmd CommandParser.crlf).
    - exists EmptyString. rewrite string_app_nil_r. repeat split; simpl; lia.
    - exists CommandParser.crlf. repeat split; simpl; lia. }
  unfold PyRedisAsyncClient.async_server.
  rewrite read_short by (rewrite string_app_length; lia).
  unfold CommandParser.handle_client_round.
  assert (cmd ++ tail <> EmptyString) as Hne
    by (apply concat_tokens_nonempty; now apply Forall_inv in Hws).
  destruct (cmd ++ tail) as [|c0 rest] eqn:Hcmd; [done|].
  rewrite <- Hcmd. subst cmd. rewrite parse_tokens, Hparse by done.
  rewrite read_short by done. now destruct reply.
Qed.

Lemma upper_EX : Py.upper "EX" = "EX".
Proof. reflexivity. Qed.

Lemma dispatch_SET now key value w :
  CommandParser.dispatch P now "SET" [key; value] w
  = (CommandParser.World
       (CacheEngine.set now key value None (CommandParser.cache w))
       (CommandParser.disk w),
     Py.Ret ("OK" ++ CommandParser.crlf)).
Proof. reflexivity. Qed.

Lemma dispatch_SET_EX now key value ex a3 e w :
  Py.upper ex = "EX" -> Py.int a3 = Some e ->
  CommandParser.dispatch P now "SET" [key; value; ex; a3] w
  = (CommandParser.World
       (CacheEngine.set now key value (Some e) (CommandParser.cache w))
       (CommandParser.disk w),
     Py.Ret ("OK" ++ CommandParser.crlf)).
Proof.
  intros Hex Ha. unfold CommandParser.dispatch.
  cbn -[Py.upper Py.int String.append CacheEngine.set].
  rewrite Hex. cbn -[Py.int String.append CacheEngine.set]. now rewrite Ha.
Qed.


Lemma dispatch_GET now key w :
  CommandParser.dispatch P now "GET" [key] w
  = (CommandParser.World (CacheEngine.get now key (CommandParser.cache w)).1
       (CommandParser.disk w),
     Py.Ret (match (CacheEngine.get now key (CommandParser.cache w)).2 with
             | None => "(nil)" ++ CommandParser.crlf
             | Some v => v ++ CommandParser.crlf
             end)).
Proof.
  unfold CommandParser.dispatch. cbn -[String.append CacheEngine.get].
  unfold CommandParser.bind, CommandParser.cache_get.
  now destruct (CacheEngine.get now key (CommandParser.cache w)) as [c [v|]].
Qed.

Lemma dispatch_DEL now key w :
  CommandParser.dispatch P now "DEL" [key] w
  = (CommandParser.World (CacheEngine.delete key (CommandParser.cache w)).1
       (CommandParser.disk w),
     Py.Ret (":" ++ Py.str (CacheEngine.delete key (CommandParser.cache w)).2
             ++ CommandParser.crlf)).
Proof.
  unfold CommandParser.dispatch. cbn -[String.append CacheEngine.delete Py.str].
  unfold CommandParser.bind, CommandParser.cache_delete.
  now destruct (CacheEngine.delete key (CommandParser.cache w)) as [c n].
Qed.

Lemma dispatch_TTL now key w :
  CommandParser.dispatch P now "TTL" [key] w
  = (w, Py.Ret (":" ++ Py.str (CacheEngine.ttl now key (CommandParser.cache w))
                ++ CommandParser.crlf)).
Proof. reflexivity. Qed.

Lemma dispatch_INCR now key w :
  CommandParser.dispatch P now "INCR" [key] w
  = (CommandParser.World (CacheEngine.incr key (CommandParser.cache w)).1
       (CommandParser.disk w),
     match (CacheEngine.incr key (CommandParser.cache w)).2 with
     | Py.Ret n => Py.Ret (":" ++ Py.str n ++ CommandParser.crlf)
     | Py.Raise e => Py.Raise e
     end).
Proof.
  unfold CommandParser.dispatch. cbn -[String.append CacheEngine.incr Py.str].
  unfold CommandParser.bind, CommandParser.cache_incr.
  now destruct (CacheEngine.incr key (CommandParser.cache w)) as [c [n|e]].
Qed.

Lemma dispatch_DECR now key w :
  CommandParser.dispatch P now "DECR" [key] w
  = (CommandParser.World (CacheEngine.decr key (CommandParser.cache w)).1
       (CommandParser.disk w),
     match (CacheEngine.decr key (CommandParser.cache w)).2 with
     | Py.Ret n => Py.Ret (":" ++ Py.str n ++ CommandParser.crlf)
     | Py.Raise e => Py.Raise e
     end).
Proof.
  unfold CommandParser.dispatch. cbn -[String.append CacheEngine.decr Py.str].
  unfold CommandParser.bind, CommandParser.cache_decr.
  now destruct (CacheEngine.decr key (CommandParser.cache w)) as [c [n|e]].
Qed.

(** The reply to an integer answer, as the client decodes it. *)
Lemma int_reply_of_answer {W : Type} default n (c : @PyRedisAsyncClient.state W) :
  PyRedisAsyncClient.int_reply default
    (Py.strip (":" ++ Py.str n ++ CommandParser.crlf)) c
  = (c, Py.Ret n).
Proof.
  change (":" ++ Py.str n ++ CommandParser.crlf)
    with (String ":" (Py.str n) ++ CommandParser.crlf).
  rewrite strip_token_tail; [|apply (str_is_token n)|done].
  unfold PyRedisAsyncClient.int_reply.
  assert (PyText.startswith (String ":" (Py.str n)) ":" = true) as ->
    by (unfold PyText.startswith; cbn; now destruct (Py.str n)).
  now rewrite slice_from_1, int_str.
Qed.
End client_facts.

(** X12.  Through the text protocol, for a key and a value that are tokens
    and short enough for one read, and a TTL (if one is given) such that a
    double holds the TTL and the expiry exactly, so that the server's
    [time.time() + expire] neither raises nor rounds: the client's [set]
    makes the server store the value, with the TTL, and answers [True]; a
    [get] that follows returns the value as long as no record that names
    the key is due.  The value [(nil)] is the one exception: [get] returns
    [None] for it. *)
Theorem client_set_get_round_trip {B : Type} (P : pickler B) (now now' : Q)
    (key value : string) (expire : option Z) (w : @CommandParser.world B)
    (Hkey : PyText.is_token key) (Hvalue : PyText.is_token value)
    (Hlen : (String.length key + String.length value
             + match expire with
               | Some e => 4 + String.length (Py.str e)
               | None => 0
               end + 7 <= 1024)%nat)
    (Hfloat : match expire with
              | Some e => Py.is_double (inject_Z e) = true /\
                          Py.is_double (now + inject_Z e) = true
              | None => True
              end)
    (Hold : Engine.has_due_record now' key (CommandParser.cache w) = false)
    (Hnew : match expire with
            | Some e => Py.flt (now + inject_Z e) now' = false
            | None => True
            end) :
  let w1 := CommandParser.World
              (CacheEngine.set now key value expire (CommandParser.cache w))
              (CommandParser.disk w) in
  let w2 := CommandParser.World
              (CacheEngine.get now' key (CommandParser.cache w1)).1
              (CommandParser.disk w) in
  PyRedisAsyncClient.set (PyRedisAsyncClient.async_server P now) key value expire
    (PyRedisAsyncClient.State true w)
  = (PyRedisAsyncClient.State true w1, Py.Ret true) /\
  PyRedisAsyncClient.get (PyRedisAsyncClient.async_server P now') key
    (PyRedisAsyncClient.State true w1)
  = (PyRedisAsyncClient.State true w2,
     Py.Ret (if String.eqb value "(nil)" then None else Some value)).
Proof.
  intros w1 w2.
  assert (PyText.is_token "SET" /\ PyText.is_token "GET" /\ PyText.is_token "EX")
    as (Hset & Hget & Hex) by (repeat split; done).
  split.
  - unfold PyRedisAsyncClient.set, PyRedisAsyncClient.bind.
    destruct expire as [e|].
    + change ("SET " ++ key ++ " " ++ value ++ " EX " ++ Py.str e)
        with (String.concat " " ["SET"; key; value; "EX"; Py.str e]).
      erewrite send_command_tokens with (reply := "OK" ++ CommandParser.crlf)
        (w' := w1); [done | | | | done | simpl; lia].
      * repeat first [apply Forall_nil | apply List.Forall_cons]; try done.
        apply str_is_token.
      * simpl. rewrite !string_app_length. simpl. lia.
      * change (Py.upper "SET") with "SET". unfold CommandParser.try_except.
        rewrite (dispatch_SET_EX P now key value "EX" (Py.str e) e);
          [done | done | apply int_str].
    + change ("SET " ++ key ++ " " ++ value)
        with (String.concat " " ["SET"; key; value]).
      erewrite send_command_tokens with (reply := "OK" ++ CommandParser.crlf)
        (w' := w1); [done | | | | done | simpl; lia].
      * repeat first [apply Forall_nil | apply List.Forall_cons]; done.
      * simpl. rewrite !string_app_length. simpl. lia.
      * done.
  - unfold PyRedisAsyncClient.get, PyRedisAsyncClient.bind.
    change ("GET " ++ key) with (String.concat " " ["GET"; key]).
    pose proof (get_after_set_live now now' key value expire
                  (CommandParser.cache w) Hold Hnew) as Hlive.
    erewrite send_command_tokens with (reply := value ++ CommandParser.crlf)
      (w' := w2).
    + rewrite strip_token_tail by (done || apply Hvalue). done.
    + repeat first [apply Forall_nil | apply List.Forall_cons]; done.
    + simpl. rewrite !string_app_length. simpl. lia.
    + change (Py.upper "GET") with "GET". unfold CommandParser.try_except.
      rewrite dispatch_GET. subst w1. cbn [CommandParser.cache]. now rewrite Hlive.
    + destruct Hvalue as [Hne _]. now destruct value.
    + rewrite string_app_length. simpl. destruct expire; lia.
Qed.

Lemma client_set_get_round_trip_witness :
  let w := CommandParser.World (CacheEngine.init 0) (FS (B := Frames.frame) ∅ ∅) in
  PyRedisAsyncClient.get (PyRedisAsyncClient.async_server Frames.pickle 3) "user"
    (PyRedisAsyncClient.set (PyRedisAsyncClient.async_server Frames.pickle 1)
       "user" "alice" (Some 60) (PyRedisAsyncClient.State true w)).1
  = (PyRedisAsyncClient.State true
       (CommandParser.World
          (CacheEngine.get 3 "user"
             (CacheEngine.set 1 "user" "alice" (Some 60) (CacheEngine.init 0))).1
          (FS ∅ ∅)),
     Py.Ret (Some "alice")).
Proof.
  intros w.
  destruct (client_set_get_round_trip Frames.pickle 1 3 "user" "alice" (Some 60) w)
    as [Hset Hget];
    [done | done | simpl; lia | split; reflexivity | reflexivity | reflexivity |].
  rewrite Hset. exact Hget.
Defined.

Section client_answers.
Context {B : Type} (P : pickler B).
Implicit Types (w : @CommandParser.world B).

Lemma one_key_command name key :
  PyText.is_token name -> PyText.is_token key ->
  Forall PyText.is_token [name; key].
Proof. intros. repeat first [apply Forall_nil | apply List.Forall_cons]; done. Qed.

Lemma error_reply_is_default {W : Type} default (c : @PyRedisAsyncClient.state W) :
  PyRedisAsyncClient.int_reply default
    (Py.strip ("ERROR: " ++ Py.exn_msg CacheEngine.not_an_integer
               ++ CommandParser.crlf)) c
  = (c, Py.Ret default).
Proof. reflexivity. Qed.
End client_answers.

(** X13.  [incr] and [decr] of the client, for a key that is a token: when
    the stored value reads as the integer [n], the server stores [n + 1]
    (or [n - 1]) and the client returns that number; when the value is not
    an integer the server changes nothing and the client returns 0 instead
    of raising. *)
Theorem client_incr_decr {B : Type} (P : pickler B) (now : Q) (key : string)
    (w : @CommandParser.world B)
    (Hkey : PyText.is_token key)
    (Hlen : (String.length key + 7 <= 1024)%nat) :
  let T := PyRedisAsyncClient.async_server P now in
  let c := PyRedisAsyncClient.State true w in
  let stored r := PyRedisAsyncClient.State true
                    (CommandParser.World r (CommandParser.disk w)) in
  match CacheEngine.current_value key (CommandParser.cache w) with
  | Some n =>
      ((String.length (Py.str (n + 1)) + 3 <= 1024)%nat ->
       PyRedisAsyncClient.incr T key c
       = (stored (CacheEngine.incr key (CommandParser.cache w)).1, Py.Ret (n + 1))) /\
      ((String.length (Py.str (n - 1)) + 3 <= 1024)%nat ->
       PyRedisAsyncClient.decr T key c
       = (stored (CacheEngine.decr key (CommandParser.cache w)).1, Py.Ret (n - 1)))
  | None =>
      PyRedisAsyncClient.incr T key c = (c, Py.Ret 0) /\
      PyRedisAsyncClient.decr T key c = (c, Py.Ret 0)
  end.
Proof.
  intros T c stored. subst T c stored.
  unfold PyRedisAsyncClient.incr, PyRedisAsyncClient.decr, PyRedisAsyncClient.bind.
  change ("INCR " ++ key) with (String.concat " " ["INCR"; key]).
  change ("DECR " ++ key) with (String.concat " " ["DECR"; key]).
  assert (forall name, String.length name = 4%nat ->
            (String.length (String.concat " " [name; key]) + 2 <= 1024)%nat) as Hcmd.
  { intros name Hname. simpl. rewrite !string_app_length, Hname. simpl. lia. }
  destruct (CacheEngine.current_value key (CommandParser.cache w)) as [n|] eqn:Hn.
  - split; intros Hr.
    + erewrite send_command_tokens
        with (reply := ":" ++ Py.str (n + 1) ++ CommandParser.crlf).
      * apply int_reply_of_answer.
      * now apply one_key_command.
      * now apply Hcmd.
      * change (Py.upper "INCR") with "INCR". unfold CommandParser.try_except.
        rewrite dispatch_INCR, (incr_spec _ _ _ Hn). done.
      * done.
      * change (":" ++ Py.str (n + 1) ++ CommandParser.crlf)
          with (String ":" (Py.str (n + 1) ++ CommandParser.crlf)).
        simpl. rewrite string_app_length. simpl. lia.
    + erewrite send_command_tokens
        with (reply := ":" ++ Py.str (n - 1) ++ CommandParser.crlf).
      * apply int_reply_of_answer.
      * now apply one_key_command.
      * now apply Hcmd.
      * change (Py.upper "DECR") with "DECR". unfold CommandParser.try_except.
        rewrite dispatch_DECR, (decr_spec _ _ _ Hn). done.
      * done.
      * change (":" ++ Py.str (n - 1) ++ CommandParser.crlf)
          with (String ":" (Py.str (n - 1) ++ CommandParser.crlf)).
        simpl. rewrite string_app_length. simpl. lia.
  - assert (CacheEngine.incr key (CommandParser.cache w)
            = (CommandParser.cache w, Py.Raise CacheEngine.not_an_integer)) as Hi
      by (unfold CacheEngine.incr; now rewrite Hn).
    assert (CacheEngine.decr key (CommandParser.cache w)
            = (CommandParser.cache w, Py.Raise CacheEngine.not_an_integer)) as Hd
      by (unfold CacheEngine.decr; now rewrite Hn).
    split.
    + erewrite send_command_tokens
        with (reply := "ERROR: " ++ Py.exn_msg CacheEngine.not_an_integer
                       ++ CommandParser.crlf) (w' := w).
      * apply error_reply_is_default.
      * now apply one_key_command.
      * now apply Hcmd.
      * change (Py.upper "INCR") with "INCR". unfold CommandParser.try_except.
        rewrite dispatch_INCR, Hi. now destruct w.
      * done.
      * vm_compute. lia.
    + erewrite send_command_tokens
        with (reply := "ERROR: " ++ Py.exn_msg CacheEngine.not_an_integer
                       ++ CommandParser.crlf) (w' := w).
      * apply error_reply_is_default.
      * now apply one_key_command.
      * now apply Hcmd.
      * change (Py.upper "DECR") with "DECR". unfold CommandParser.try_except.
        rewrite dispatch_DECR, Hd. now destruct w.
      * done.
      * vm_compute. lia.
Qed.

Lemma client_incr_decr_witness :
  let w := CommandParser.World
             (CacheEngine.set 0 "n" "abc" None (CacheEngine.init 0))
             (FS (B := Frames.frame) ∅ ∅) in
  PyRedisAsyncClient.incr (PyRedisAsyncClient.async_server Frames.pickle 1) "n"
    (PyRedisAsyncClient.State true w)
  = (PyRedisAsyncClient.State true w, Py.Ret 0).
Proof.
  intros w.
  pose proof (client_incr_decr Frames.pickle 1 "n" w) as H.
  destruct H as [Hincr _]; [done | simpl; lia |]. exact Hincr.
Defined.

(** X14.  [ttl] and [delete] of the client, for a key that is a token,
    return what the engine answers: [ttl] the integer of [CacheEngine.ttl]
    without changing the server, [delete] the count 0 or 1 of
    [CacheEngine.delete], which the server has applied. *)
Theorem client_ttl_delete {B : Type} (P : pickler B) (now : Q) (key : string)
    (w : @CommandParser.world B)
    (Hkey : PyText.is_token key)
    (Hlen : (String.length key + 6 <= 1024)%nat)
    (Hreply : (String.length
                 (Py.str (CacheEngine.ttl now key (CommandParser.cache w))) + 3
               <= 1024)%nat) :
  let T := PyRedisAsyncClient.async_server P now in
  let c := PyRedisAsyncClient.State true w in
  PyRedisAsyncClient.ttl T key c
  = (c, Py.Ret (CacheEngine.ttl now key (CommandParser.cache w))) /\
  PyRedisAsyncClient.delete T key c
  = (PyRedisAsyncClient.State true
       (CommandParser.World (CacheEngine.delete key (CommandParser.cache w)).1
          (CommandParser.disk w)),
     Py.Ret (CacheEngine.delete key (CommandParser.cache w)).2) /\
  ((CacheEngine.delete key (CommandParser.cache w)).2 = 0 \/
   (CacheEngine.delete key (CommandParser.cache w)).2 = 1).
Proof.
  intros T c. subst T c.
  unfold PyRedisAsyncClient.ttl, PyRedisAsyncClient.delete, PyRedisAsyncClient.bind.
  change ("TTL " ++ key) with (String.concat " " ["TTL"; key]).
  change ("DEL " ++ key) with (String.concat " " ["DEL"; key]).
  assert (forall name, String.length name = 3%nat ->
            (String.length (String.concat " " [name; key]) + 2 <= 1024)%nat) as Hcmd.
  { intros name Hname. simpl. rewrite !string_app_length, Hname. simpl. lia. }
  assert ((CacheEngine.delete key (CommandParser.cache w)).2 = 0 \/
          (CacheEngine.delete key (CommandParser.cache w)).2 = 1) as Hcount.
  { unfold CacheEngine.delete. case_decide; [now right | now left]. }
  split; [|split; [|exact Hcount]].
  - erewrite send_command_tokens
      with (reply := ":" ++ Py.str (CacheEngine.ttl now key (CommandParser.cache w))
                     ++ CommandParser.crlf) (w' := w).
    + apply int_reply_of_answer.
    + now apply one_key_command.
    + now apply Hcmd.
    + change (Py.upper "TTL") with "TTL". unfold CommandParser.try_except.
      now rewrite dispatch_TTL.
    + done.
    + change (String.length
                (String ":" (Py.str (CacheEngine.ttl now key (CommandParser.cache w))
                             ++ CommandParser.crlf)) <= 1024)%nat.
      simpl. rewrite string_app_length. simpl. lia.
  - erewrite send_command_tokens
      with (reply := ":" ++ Py.str (CacheEngine.delete key (CommandParser.cache w)).2
                     ++ CommandParser.crlf).
    + apply int_reply_of_answer.
    + now apply one_key_command.
    + now apply Hcmd.
    + change (Py.upper "DEL") with "DEL". unfold CommandParser.try_except.
      now rewrite dispatch_DEL.
    + done.
    + destruct Hcount as [-> | ->]; vm_compute; lia.
Qed.

Lemma client_ttl_delete_witness :
  let w := CommandParser.World
             (CacheEngine.set 0 "k" "v" (Some 60) (CacheEngine.init 0))
             (FS (B := Frames.frame) ∅ ∅) in
  PyRedisAsyncClient.ttl (PyRedisAsyncClient.async_server Frames.pickle 10) "k"
    (PyRedisAsyncClient.State true w)
  = (PyRedisAsyncClient.State true w, Py.Ret 50).
Proof.
  intros w.
  destruct (client_ttl_delete Frames.pickle 10 "k" w) as [Httl _];
    [done | simpl; lia | vm_compute; lia |].
  exact Httl.
Defined.

(** X15.  The client never writes on a connection it knows to be closed.
    When it is not connected, [_send_command] raises [ConnectionError]
    without calling the transport, and [ping] answers [False].  When the
    peer answers with no bytes, [_send_command] raises, the client is marked
    as not connected, and the next command does not reach the peer. *)
Theorem client_stops_after_close {W : Type} (T : string -> W -> W * string)
    (command command' : string) (w : W) :
  let sent := if PyText.endswith command CommandParser.crlf then command
              else command ++ CommandParser.crlf in
  (PyRedisAsyncClient._send_command T command (PyRedisAsyncClient.State false w)
   = (PyRedisAsyncClient.State false w,
      Py.Raise (PyRedisAsyncClient.ConnectionError "Not connected to server")) /\
   PyRedisAsyncClient.ping T (PyRedisAsyncClient.State false w)
   = (PyRedisAsyncClient.State false w, Py.Ret false)) /\
  (PyText.read 1024 (T sent w).2 = EmptyString ->
   let r := PyRedisAsyncClient._send_command T command
              (PyRedisAsyncClient.State true w) in
   r = (PyRedisAsyncClient.State false (T sent w).1,
        Py.Raise (PyRedisAsyncClient.ConnectionError
          "Error communicating with server: Connection closed by server")) /\
   PyRedisAsyncClient._send_command T command' r.1
   = (r.1, Py.Raise (PyRedisAsyncClient.ConnectionError "Not connected to server")) /\
   PyRedisAsyncClient.ping T r.1 = (r.1, Py.Ret false)).
Proof.
  intros sent. split; [done|]. intros Hclosed r.
  assert (r = (PyRedisAsyncClient.State false (T sent w).1,
               Py.Raise (PyRedisAsyncClient.ConnectionError
                 "Error communicating with server: Connection closed by server")))
    as Hr.
  { subst r. unfold PyRedisAsyncClient._send_command. simpl. fold sent.
    destruct (T sent w) as [w' written]. simpl in *. now rewrite Hclosed. }
  rewrite Hr. done.
Qed.

Lemma client_stops_after_close_witness :
  let T := fun (_ : string) (n : nat) => (S n, EmptyString) in
  (PyRedisAsyncClient._send_command T "GET a"
     (PyRedisAsyncClient._send_command T "GET k"
        (PyRedisAsyncClient.State true 0%nat)).1).1
  = PyRedisAsyncClient.State false 1%nat.
Proof.
  intros T.
  destruct (client_stops_after_close T "GET k" "GET a" 0%nat) as [_ Hclosed].
  destruct (Hclosed eq_refl) as (_ & Hnext & _).
  rewrite Hnext. reflexivity.
Defined.

(** ** What the handlers send *)

Section framing.
Context {B : Type} (P : pickler B).
Implicit Types (w : @CommandParser.world B).

Lemma framed_1 (a : string) :
  exists body, a ++ CommandParser.crlf = body ++ CommandParser.crlf.
Proof. now exists a. Qed.

Lemma framed_2 (a b : string) :
  exists body, a ++ b ++ CommandParser.crlf = body ++ CommandParser.crlf.
Proof. exists (a ++ b). now rewrite string_app_assoc. Qed.

Lemma framed_3 (a b c : string) :
  exists body, a ++ b ++ c ++ CommandParser.crlf = body ++ CommandParser.crlf.
Proof. exists (a ++ b ++ c). now rewrite !string_app_assoc. Qed.

Lemma dispatch_framed now command args w :
  match (CommandParser.dispatch P now command args w).2 with
  | Py.Ret reply => exists body, reply = body ++ CommandParser.crlf
  | Py.Raise _ => True
  end.
Proof.
  unfold CommandParser.dispatch, CommandParser.bind, CommandParser.ret,
    CommandParser.cache_set, CommandParser.cache_get, CommandParser.cache_delete,
    CommandParser.cache_ttl, CommandParser.cache_incr, CommandParser.cache_decr,
    CommandParser.cache_save, CommandParser.cache_info.
  repeat case_match; simplify_eq/=;
    first [ done | apply framed_1 | apply framed_2 | apply framed_3 ].
Qed.

Lemma parse_framed now data w :
  exists w' body,
    CommandParser.parse P now data w = (w', Py.Ret (body ++ CommandParser.crlf)).
Proof.
  unfold CommandParser.parse.
  destruct (Py.split (Py.strip data)) as [|part0 args]; [by eexists _, _|].
  unfold CommandParser.try_except.
  pose proof (dispatch_framed now (Py.upper part0) args w) as H.
  destruct (CommandParser.dispatch P now (Py.upper part0) args w) as [w' [reply|e]];
    simpl in H.
  - destruct H as [body ->]. by eexists _, _.
  - exists w', ("ERROR: " ++ Py.exn_msg e). unfold CommandParser.ret.
    now rewrite string_app_assoc.
Qed.
End framing.

(** X16.  The asynchronous server answers every read that decodes: on any
    message [parse] returns a reply, which always ends with CR LF (so it is
    never empty), and the round of the connection loop hands it to the
    writer and goes on to the next read.  An empty read and a read that
    does not decode end the loop without a reply and without a change. *)
Theorem async_replies_are_framed {B : Type} (P : pickler B)
    (decode : string -> Py.result string) (now : Q) (data : string)
    (w : @CommandParser.world B) :
  (forall message,
     exists w' body,
       CommandParser.parse P now message w
       = (w', Py.Ret (body ++ CommandParser.crlf))) /\
  CommandParser.handle_client_read P decode now EmptyString w = (w, Close None) /\
  (data <> EmptyString ->
   match decode data with
   | Py.Raise _ =>
       CommandParser.handle_client_read P decode now data w = (w, Close None)
   | Py.Ret message =>
       (exists w' body,
          CommandParser.parse P now message w
          = (w', Py.Ret (body ++ CommandParser.crlf)) /\
          CommandParser.handle_client_read P decode now data w
          = (w', Continue (body ++ CommandParser.crlf))) /\
       (message <> EmptyString ->
        CommandParser.handle_client_read P decode now data w
        = CommandParser.handle_client_round P now message w)
   end).
Proof.
  split; [intros message; apply parse_framed|]. split; [done|].
  intros Hdata. unfold CommandParser.handle_client_read.
  destruct data as [|c data]; [done|].
  destruct (decode (String c data)) as [message|e]; [|done].
  split.
  - destruct (parse_framed P now message w) as (w' & body & Hparse).
    exists w', body. now rewrite Hparse.
  - intros Hmessage. unfold CommandParser.handle_client_round.
    now destruct message.
Qed.

(** ** Blank messages *)

Section blank_facts.
Import Py PyText.

Lemma lstrip_all_space s : all_space s = true -> lstrip s = EmptyString.
Proof.
  induction s as [|c s IH]; [done|]. simpl.
  intros [-> Hs]%andb_prop. now apply IH.
Qed.

Lemma strip_all_space s : all_space s = true -> strip s = EmptyString.
Proof. intros Hs. unfold strip. now rewrite lstrip_all_space. Qed.

Lemma split_from_nil cur s :
  split_from cur s = [] -> cur = EmptyString /\ all_space s = true.
Proof.
  revert cur. induction s as [|c s IH]; intros cur; simpl.
  - now destruct cur.
  - destruct (is_space c) eqn:Hc.
    + destruct cur; [|done]. intros H. now apply IH in H as [_ ->].
    + intros H. apply IH in H as [H _]. now destruct cur.
Qed.

(** A message that does not strip to nothing has a first token. *)
Lemma split_nonblank s :
  strip s <> EmptyString ->
  exists part0 args, split s = part0 :: args.
Proof.
  intros Hs. destruct (split s) as [|part0 args] eqn:Hsplit; [|eauto].
  apply split_from_nil in Hsplit as [_ Hall].
  now apply strip_all_space in Hall.
Qed.
End blank_facts.

(** X17.  A message made of blanks only (a bare line end, for instance):
    the asynchronous server answers [ERROR: No command specified] and keeps
    the connection; the threaded server takes it for the end of the
    connection and closes without a reply.  Neither changes its store. *)
Theorem blank_message_is_answered_or_closes {B : Type} (P : pickler B)
    (now : Q) (data : string) (w : @CommandParser.world B)
    (db : PyRedisLite.state)
    (Hblank : PyText.all_space data = true)
    (Hdata : data <> EmptyString) :
  CommandParser.handle_client_round P now data w
  = (w, Continue ("ERROR: No command specified" ++ CommandParser.crlf)) /\
  PyRedisLite.handle_client_round now data db = (db, Close None).
Proof.
  pose proof (strip_all_space data Hblank) as Hstrip.
  split.
  - unfold CommandParser.handle_client_round, CommandParser.parse.
    rewrite Hstrip. now destruct data.
  - unfold PyRedisLite.handle_client_round. now rewrite Hstrip.
Qed.

Lemma blank_message_is_answered_or_closes_witness :
  PyRedisLite.handle_client_round 0 CommandParser.crlf PyRedisLite.init
  = (PyRedisLite.init, Close None).
Proof.
  destruct (blank_message_is_answered_or_closes Frames.pickle 0 CommandParser.crlf
              (CommandParser.World (CacheEngine.init 0) (FS ∅ ∅)) PyRedisLite.init)
    as [_ Hlite]; [reflexivity | discriminate |].
  exact Hlite.
Defined.

(** X18.  In the threaded handler [parts[0]] never fails: a message that
    does not strip to nothing always has a first token, and the round is the
    dispatch of that token, in upper case, on the tokens that follow.  The
    tokens are those of the message as received. *)
Theorem lite_message_has_command (now : Q) (received : string)
    (db : PyRedisLite.state)
    (Hreceived : Py.strip received <> EmptyString) :
  exists part0 args,
    Py.split received = part0 :: args /\
    PyRedisLite.handle_client_round now received db
    = match PyRedisLite.dispatch now (Py.upper part0) args db with
      | (db', Py.Ret response) =>
          (db', Continue (response ++ PyRedisLite.newline))
      | (db', Py.Raise e) =>
          (db', Close (Some ("ERROR: " ++ Py.exn_msg e ++ PyRedisLite.newline)))
      end.
Proof.
  destruct (split_nonblank received Hreceived) as (part0 & args & Hsplit).
  exists part0, args. split; [done|].
  unfold PyRedisLite.handle_client_round.
  destruct (Py.strip received) as [|c r] eqn:Hstrip; [done|].
  now rewrite <- Hstrip, split_strip, Hsplit.
Qed.

Lemma lite_message_has_command_witness :
  PyRedisLite.handle_client_round 0 "  get k " PyRedisLite.init
  = (PyRedisLite.init, Continue ("(nil)" ++ PyRedisLite.newline)).
Proof.
  destruct (lite_message_has_command 0 "  get k " PyRedisLite.init)
    as (part0 & args & Hsplit & Hround); [discriminate|].
  rewrite Hround. injection Hsplit as <- <-. reflexivity.
Defined.

(** ** An expiry that is not a number *)

Section bad_expire.
Context {B : Type} (P : pickler B).

End bad_expire.



(** ** The threaded engine: expiry *)

(** X20.  A [set] with an expiry of [n] seconds in the threaded engine,
    whether [n] comes as an integer that is not zero or as a token, replaces
    any expiry the key had; [n] and the expiry [now + n] are numbers that a
    double holds exactly, so that [time.time() + int(ex)] neither raises nor
    rounds.  Up to and including the instant [now + n] the key is served,
    [exists] answers 1 and [ttl] answers a number between 0 and [n], the
    truncated remaining time when a double holds that time exactly; after
    [now + n] the first read removes the key and its expiry, and the answers
    are [(nil)], 0 and -2. *)
Theorem lite_set_with_expiry (now now' : Q) (key value : string)
    (ex : PyRedisLite.pyval) (n : Z) (s : PyRedisLite.state)
    (Hex : PyRedisLite.truthy ex = true)
    (Hn : PyRedisLite.to_int ex = Py.Ret n)
    (Hfloat : Py.is_double (inject_Z n) = true)
    (Hexact : Py.is_double (now + inject_Z n) = true) :
  let s1 := PyRedisLite.State (<[key := value]> (PyRedisLite.data s))
              (<[key := (now + inject_Z n)%Q]> (PyRedisLite.expirations s)) in
  PyRedisLite.set now key value (Some ex) s = (s1, Py.Ret "OK") /\
  ((now' <= now + inject_Z n)%Q ->
   PyRedisLite.get now' key s1 = (s1, value) /\
   PyRedisLite.exists_ now' key s1 = (s1, "1") /\
   (exists t, PyRedisLite.ttl now' key s1 = (s1, Py.str t) /\ 0 <= t /\
              ((now <= now')%Q -> t <= n) /\
              (Py.is_double (now + inject_Z n - now') = true ->
               t = Py.int_of_float (now + inject_Z n - now')%Q))) /\
  ((now + inject_Z n < now')%Q ->
   let s2 := PyRedisLite.expire_key key s1 in
   PyRedisLite.get now' key s1 = (s2, "(nil)") /\
   PyRedisLite.exists_ now' key s1 = (s2, "0") /\
   PyRedisLite.ttl now' key s1 = (s2, "-2") /\
   PyRedisLite.data s2 !! key = None /\
   PyRedisLite.expirations s2 !! key = None).
Proof.
  intros s1. split; [|split].
  - unfold PyRedisLite.set. now rewrite Hex, Hn.
  - intros Hle. pose proof (proj2 (fgt_false _ _) Hle) as Hlive.
    unfold PyRedisLite.get, PyRedisLite.exists_, PyRedisLite.ttl. subst s1. simpl.
    rewrite !lookup_insert_eq, Hlive. split; [done|]. split; [done|].
    exists (Py.int_of_float (now + inject_Z n - now')%Q). repeat split.
    + apply int_of_float_nonneg. lra.
    + intros Hge. apply int_of_float_le; lra.
  - intros Hlate s2. apply fgt_true in Hlate.
    unfold PyRedisLite.get, PyRedisLite.exists_, PyRedisLite.ttl. subst s2 s1. simpl.
    rewrite !lookup_insert_eq, Hlate. repeat split; apply lookup_delete_eq.
Qed.

Lemma lite_set_with_expiry_witness :
  let s := (PyRedisLite.set 0 "k" "old" (Some (PyRedisLite.PyInt 100))
              PyRedisLite.init).1 in
  let s1 := (PyRedisLite.set 1 "k" "v" (Some (PyRedisLite.PyStr "5")) s).1 in
  (PyRedisLite.ttl (5 # 2) "k" s1).2 = "3" /\
  (PyRedisLite.get 7 "k" s1).2 = "(nil)".
Proof.
  intros s s1.
  destruct (lite_set_with_expiry 1 (5 # 2) "k" "v" (PyRedisLite.PyStr "5") 5 s
              eq_refl eq_refl eq_refl eq_refl) as (Hset & Hlive & _).
  destruct (lite_set_with_expiry 1 7 "k" "v" (PyRedisLite.PyStr "5") 5 s
              eq_refl eq_refl eq_refl eq_refl) as (_ & _ & Hlate).
  destruct Hlive as (_ & _ & t & Httl & _ & _ & Ht); [unfold Qle; simpl; lia|].
  destruct Hlate as (Hget & _); [reflexivity|].
  subst s1. rewrite Hset. cbn [fst]. rewrite Httl, Hget, Ht by reflexivity.
  split; reflexivity.
Defined.

(** X21.  One round of [active_expire], with the clock read as [now] for
    every key, removes exactly the keys whose expiry is before [now], from
    both dictionaries, and leaves every other key and expiry as it was. *)
Theorem active_expire_removes_expired_keys (now : Q) (s : PyRedisLite.state)
    (key : string) :
  let s' := PyRedisLite.active_expire_round now s in
  match PyRedisLite.expirations s !! key with
  | Some t =>
      if Py.fgt now t
      then PyRedisLite.data s' !! key = None /\
           PyRedisLite.expirations s' !! key = None
      else PyRedisLite.data s' !! key = PyRedisLite.data s !! key /\
           PyRedisLite.expirations s' !! key = Some t
  | None =>
      PyRedisLite.data s' !! key = PyRedisLite.data s !! key /\
      PyRedisLite.expirations s' !! key = None
  end.
Proof.
  intros s'. subst s'. unfold PyRedisLite.active_expire_round.
  destruct (foldl_delete_expired (PyRedisLite.keys_to_delete now s) s key)
    as [He Hd].
  rewrite He, Hd. clear He Hd.
  pose proof (elem_of_keys_to_delete now s key) as Hin.
  destruct (decide (key ∈ PyRedisLite.keys_to_delete now s)) as [Hk|Hk].
  - apply Hin in Hk as (t & -> & ->). done.
  - destruct (PyRedisLite.expirations s !! key) as [t|] eqn:Ht; [|done].
    destruct (Py.fgt now t) eqn:Hgt; [|done].
    destruct Hk. apply Hin. eauto.
Qed.

(** X22.  The three readers of the threaded engine that check the expiry
    agree.  [get], [exists] and [ttl] leave the same state, and either the
    key is live in it ([get] returns the stored value, [exists] answers 1,
    [ttl] does not answer -2, nothing is changed) or it is absent from it
    ([get] returns [(nil)], [exists] answers 0, [ttl] answers -2). *)
Theorem lite_readers_agree (now : Q) (key : string) (s : PyRedisLite.state) :
  let r := PyRedisLite.get now key s in
  (PyRedisLite.exists_ now key s).1 = r.1 /\
  (PyRedisLite.ttl now key s).1 = r.1 /\
  ((r.1 = s /\ PyRedisLite.data s !! key = Some r.2 /\
    (PyRedisLite.exists_ now key s).2 = "1" /\
    (PyRedisLite.ttl now key s).2 <> "-2") \/
   (PyRedisLite.data r.1 !! key = None /\ r.2 = "(nil)" /\
    (PyRedisLite.exists_ now key s).2 = "0" /\
    (PyRedisLite.ttl now key s).2 = "-2")).
Proof.
  intros r. subst r.
  pose proof (lite_ttl_spec now key s) as Httl.
  unfold PyRedisLite.get, PyRedisLite.exists_ in *.
  destruct (PyRedisLite.data s !! key) as [v|] eqn:Hv.
  - destruct (PyRedisLite.expirations s !! key) as [t|] eqn:Ht.
    + destruct (Py.fgt now t) eqn:Hgt.
      * rewrite Httl. simpl. split; [done|]. split; [done|]. right.
        split; [apply lookup_delete_eq | done].
      * destruct Httl as [-> Hpos]. simpl. split; [done|]. split; [done|]. left.
        repeat split; try done. now apply str_nonneg_ne.
    + rewrite Httl. simpl. split; [done|]. split; [done|]. left.
      repeat split; done.
  - rewrite Httl. simpl. split; [done|]. split; [done|]. now right.
Qed.

(** ** The threaded server, through its text protocol *)

Section lite_protocol.
Import PyRedisLite.

End lite_protocol.



(** ** Snapshots, from the command to the next start *)

Section save_command.
Context {B : Type} (P : pickler B).
Implicit Types (w : @CommandParser.world B).

Lemma save_round now tail w :
  PyText.all_space tail = true ->
  CommandParser.handle_client_round P now ("SAVE" ++ tail) w
  = match CacheEngine.save P "dump.rdb" (CommandParser.cache w)
            (CommandParser.disk w) with
    | (fs, Py.Ret _) =>
        (CommandParser.World (CommandParser.cache w) fs,
         Continue ("OK" ++ CommandParser.crlf))
    | (fs, Py.Raise e) =>
        (CommandParser.World (CommandParser.cache w) fs,
         Continue ("ERROR: " ++ Py.exn_msg e ++ CommandParser.crlf))
    end.
Proof.
  intros Htail. unfold CommandParser.handle_client_round.
  change ("SAVE" ++ tail) with (String.concat " " ["SAVE"] ++ tail).
  destruct (String.concat " " ["SAVE"] ++ tail) eqn:Hline; [done|].
  rewrite <- Hline.
  rewrite parse_tokens;
    [|repeat first [apply Forall_nil | apply List.Forall_cons]; done | done].
  change (Py.upper "SAVE") with "SAVE".
  unfold CommandParser.try_except, CommandParser.dispatch.
  cbn -[String.append CacheEngine.save].
  unfold CommandParser.bind, CommandParser.cache_save, CommandParser.ret.
  now destruct (CacheEngine.save P "dump.rdb" _ _) as [fs [[]|e]].
Qed.
End save_command.

(** X24.  A [SAVE] command on writable paths is answered [OK], leaves the
    engine as it is, and writes a snapshot from which the next start of the
    server, at any later time, comes up with the same dictionary and the
    same heap of expiration records.  The pickler is any one that reads back
    what it dumps. *)
Theorem save_command_then_restart {B : Type} (P : pickler B) (now now' : Q)
    (tail : string) (w : @CommandParser.world B)
    (HP : pickler_sound P)
    (Htail : PyText.all_space tail = true)
    (Htmp : "dump.rdb.tmp" ∉ denied (CommandParser.disk w))
    (Hfile : "dump.rdb" ∉ denied (CommandParser.disk w)) :
  exists fs',
    CommandParser.handle_client_round P now ("SAVE" ++ tail) w
    = (CommandParser.World (CommandParser.cache w) fs',
       Continue ("OK" ++ CommandParser.crlf)) /\
    CommandParser.main_startup P now' fs'
    = Py.Ret (CommandParser.World
                (CacheEngine.State (CacheEngine._data (CommandParser.cache w))
                   (CacheEngine._expire_heap (CommandParser.cache w)) now')
                fs').
Proof.
  destruct HP as [Hdata Hheap].
  destruct (save_writes P "dump.rdb" (CommandParser.cache w) (CommandParser.disk w)
              Htmp Hfile) as (fs' & Hsave & Hread).
  exists fs'. split.
  - now rewrite save_round, Hsave.
  - unfold CommandParser.main_startup, CacheEngine.load.
    rewrite Hread, Hdata.
    rewrite <- (app_nil_r (dump_heap P _)), Hheap. reflexivity.
Qed.

Lemma save_command_then_restart_witness :
  let s := CacheEngine.set 1 "b" "2" None
             (CacheEngine.set 0 "a" "1" (Some 5) (CacheEngine.init 0)) in
  exists fs',
    CommandParser.handle_client_round Frames.pickle 2 ("SAVE" ++ CommandParser.crlf)
      (CommandParser.World s (FS ∅ ∅))
    = (CommandParser.World s fs', Continue ("OK" ++ CommandParser.crlf)) /\
    CommandParser.main_startup Frames.pickle 10 fs'
    = Py.Ret (CommandParser.World
                (CacheEngine.State (CacheEngine._data s)
                   (CacheEngine._expire_heap s) 10) fs').
Proof.
  intros s.
  apply (save_command_then_restart Frames.pickle 2 10 CommandParser.crlf
           (CommandParser.World s (FS ∅ ∅))).
  - split; intros; reflexivity.
  - reflexivity.
  - simpl. apply not_elem_of_empty.
  - simpl. apply not_elem_of_empty.
Defined.

(** X25.  What does not stop the asynchronous server.  A [SAVE] whose
    temporary file cannot be opened is answered with the error of the
    operating system; engine and files are unchanged and the connection
    stays open.  A start without a snapshot file comes up with an empty
    engine. *)
Theorem failed_save_and_cold_start {B : Type} (P : pickler B) (now : Q)
    (tail : string) (w : @CommandParser.world B) (fs : filesystem B)
    (Htail : PyText.all_space tail = true) :
  ("dump.rdb.tmp" ∈ denied (CommandParser.disk w) ->
   CommandParser.handle_client_round P now ("SAVE" ++ tail) w
   = (w, Continue ("ERROR: [Errno 13] Permission denied: 'dump.rdb.tmp'"
                   ++ CommandParser.crlf))) /\
  (files fs !! "dump.rdb" = None ->
   CommandParser.main_startup P now fs
   = Py.Ret (CommandParser.World (CacheEngine.init now) fs)).
Proof.
  split.
  - intros Hdenied. rewrite save_round by done.
    unfold CacheEngine.save.
    change ("dump.rdb" ++ ".tmp") with "dump.rdb.tmp".
    rewrite decide_True by done. now destruct w.
  - intros Hnone. unfold CommandParser.main_startup, CacheEngine.load.
    now rewrite Hnone.
Qed.

Lemma failed_save_and_cold_start_witness :
  CommandParser.main_startup Frames.pickle 3 (FS ∅ ∅)
  = Py.Ret (CommandParser.World (CacheEngine.init 3) (FS ∅ ∅)).
Proof.
  destruct (failed_save_and_cold_start Frames.pickle 3 EmptyString
              (CommandParser.World (CacheEngine.init 0) (FS ∅ ∅)) (FS ∅ ∅) eq_refl)
    as [_ Hcold].
  apply Hcold. reflexivity.
Defined.
